(** * Playground widgets of the portfolio site: B+ tree, LSM tree, write-ahead
    log and the theme-colour checker.

    Shallow embedding of the algorithmic parts of
    - [src/components/playground/db/WALVisualizer.tsx] (the WAL widget and the
      two revisions of the B+ tree widget that the file holds),
    - [src/components/playground/db/LSMTree.tsx],
    - the theme colour checker script,
    together with the properties stated about them.

    Conventions.  JavaScript numbers that only ever hold integers (keys,
    log sequence numbers, clock readings) are [Z] or [nat]; arrays are lists;
    an exception (a [TypeError] on reading a property of [undefined]) is the
    [TypeError] outcome.  Render-only state (activity log lines, highlight
    paths, node ids built from the clock and the random generator) is left
    out where no modelled operation reads it. *)

From Stdlib Require Import ZArith NArith Lia Bool List String Ascii.
From Stdlib Require Import Sorting.Sorted Sorting.Permutation.
From stdpp Require Import base option list strings sorting.
Import ListNotations.

#[local] Set Warnings "-register-all".
#[local] Open Scope nat_scope.

(** ** Outcomes of a JavaScript call *)

Inductive Outcome (A : Type) : Type :=
| Ok (a : A)
| TypeError
| OutOfFuel.
Arguments Ok {A} a.
Arguments TypeError {A}.
Arguments OutOfFuel {A}.

#[global] Instance outcome_ret : MRet Outcome := @Ok.
#[global] Instance outcome_bind : MBind Outcome := fun A B f m =>
  match m with
  | Ok a => f a
  | TypeError => TypeError
  | OutOfFuel => OutOfFuel
  end.

(** ** Array helpers *)

Section JsArray.
Context {A : Type}.

(** [Array.prototype.sort] with a comparator: the sort is stable, so for a
    consistent comparator its result is the one of a stable insertion sort. *)
Fixpoint sort_insert (cmp : A -> A -> Z) (x : A) (l : list A) : list A :=
  match l with
  | [] => [x]
  | y :: l' => if (cmp x y <=? 0)%Z then x :: y :: l' else y :: sort_insert cmp x l'
  end.

Definition js_sort (cmp : A -> A -> Z) (l : list A) : list A :=
  foldr (sort_insert cmp) [] l.

(** The order a comparator stands for: [a] may come before [b]. *)
Definition cmp_le (cmp : A -> A -> Z) (a b : A) : Prop := (cmp a b <= 0)%Z.

(** [findIndex]: [None] stands for the result [-1]. *)
Fixpoint findIndex (p : A -> bool) (l : list A) : option nat :=
  match l with
  | [] => None
  | x :: l' => if p x then Some 0 else S <$> findIndex p l'
  end.

(** [a.splice(i, 0, x)]: insert [x] at index [i] (clamped to the length). *)
Definition splice_insert (i : nat) (x : A) (l : list A) : list A :=
  take i l ++ x :: drop i l.

End JsArray.

(** The comparator [(a, b) => a - b]. *)
Definition numeric (a b : Z) : Z := (a - b)%Z.

(** *** Facts about the array helpers *)

Section JsArrayFacts.
Context {A : Type}.
Implicit Types (cmp : A -> A -> Z) (l : list A).

Lemma length_sort_insert cmp x l : length (sort_insert cmp x l) = S (length l).
Proof. induction l as [|y l IH]; simpl; [done|]. case_match; simpl; lia. Qed.

Lemma length_js_sort cmp l : length (js_sort cmp l) = length l.
Proof.
  induction l as [|x l IH]; simpl; [done|].
  by rewrite length_sort_insert, IH.
Qed.

Lemma sort_insert_perm cmp x l : sort_insert cmp x l ≡ₚ x :: l.
Proof.
  induction l as [|y l IH]; simpl; [done|].
  case_match; [done|]. rewrite IH. apply Permutation_swap.
Qed.

Lemma js_sort_perm cmp l : js_sort cmp l ≡ₚ l.
Proof.
  induction l as [|x l IH]; simpl; [done|].
  by rewrite sort_insert_perm, IH.
Qed.

Lemma findIndex_lt p l i : findIndex p l = Some i -> i < length l.
Proof.
  revert i. induction l as [|x l IH]; intros i; simpl; [done|].
  case_match; [intros [= <-]; lia|].
  destruct (findIndex p l) as [j|]; simpl; [|done].
  intros [= <-]. specialize (IH j eq_refl). lia.
Qed.

Lemma findIndex_default_le p l : default (length l) (findIndex p l) <= length l.
Proof.
  destruct (findIndex p l) as [i|] eqn:E; simpl; [|done].
  apply findIndex_lt in E. lia.
Qed.

Lemma length_splice_insert i (x : A) l : length (splice_insert i x l) = S (length l).
Proof.
  unfold splice_insert. rewrite length_app. simpl.
  rewrite length_take, length_drop. lia.
Qed.

Lemma Forall_splice_insert (P : A -> Prop) i x l :
  P x -> Forall P l -> Forall P (splice_insert i x l).
Proof.
  intros Hx Hl. unfold splice_insert.
  apply Forall_app. split; [by apply Forall_take|].
  constructor; [done|by apply Forall_drop].
Qed.

Lemma lookup_map {B} (f : A -> B) l i : List.map f l !! i = f <$> (l !! i).
Proof. exact (list_lookup_fmap f l i). Qed.

End JsArrayFacts.

(** *** Sortedness of the result of [sort] *)

Section JsSortFacts.
Context {A : Type} (cmp : A -> A -> Z).

Hypothesis cmp_total : forall a b, cmp_le cmp a b \/ cmp_le cmp b a.

Lemma sort_insert_HdRel x y l :
  cmp_le cmp y x -> HdRel (cmp_le cmp) y l -> HdRel (cmp_le cmp) y (sort_insert cmp x l).
Proof using Type.
  intros Hyx Hhd. destruct l as [|z l]; simpl; [by constructor|].
  case_match; constructor; [done|]. by inversion Hhd.
Qed.

Lemma sort_insert_Sorted x l :
  Sorted (cmp_le cmp) l -> Sorted (cmp_le cmp) (sort_insert cmp x l).
Proof using cmp_total.
  induction 1 as [|y l Hl IH Hhd]; simpl; [by repeat constructor|].
  destruct (cmp x y <=? 0)%Z eqn:E.
  - apply Z.leb_le in E. by repeat constructor.
  - apply Z.leb_gt in E. constructor; [done|].
    apply sort_insert_HdRel; [|done].
    destruct (cmp_total x y) as [H|H]; [unfold cmp_le in H; lia|done].
Qed.

Lemma js_sort_Sorted l : Sorted (cmp_le cmp) (js_sort cmp l).
Proof using cmp_total.
  induction l as [|x l IH]; simpl; [constructor|]. by apply sort_insert_Sorted.
Qed.

Lemma js_sort_StronglySorted l :
  (forall a b c, cmp_le cmp a b -> cmp_le cmp b c -> cmp_le cmp a c) ->
  StronglySorted (cmp_le cmp) (js_sort cmp l).
Proof using cmp_total.
  intros Htrans. apply Sorted_StronglySorted; [exact Htrans|apply js_sort_Sorted].
Qed.

End JsSortFacts.

Lemma StronglySorted_last {A} (R : A -> A -> Prop) l x :
  StronglySorted R l -> last l = Some x -> forall y, y ∈ l -> y = x \/ R y x.
Proof.
  intros Hs Hlast y Hy. apply last_Some in Hlast as [l' ->].
  apply elem_of_app in Hy as [Hy|Hy].
  - right. eapply StronglySorted_app_1_elem_of; [done|done|]. by left.
  - apply list_elem_of_singleton in Hy. by left.
Qed.

Lemma StronglySorted_filter {A} (R : A -> A -> Prop) (P : A -> Prop)
    `{!forall x, Decision (P x)} l :
  StronglySorted R l -> StronglySorted R (filter P l).
Proof.
  induction 1 as [|x l Hl IH Hx]; [constructor|].
  rewrite filter_cons. case_decide; [|done].
  constructor; [done|]. rewrite Forall_forall in Hx. apply Forall_forall.
  intros y [_ Hy]%list_elem_of_filter. by apply Hx.
Qed.

(** ** The B+ tree widget, revision with functional state update *)

Module BPlusTree.

(** [interface BPlusNode].  The fields [id] (a render key built from the
    clock and the random generator) and [next] (written on a leaf split, read
    only to be copied and to draw an arrow) do not influence the keys and
    children of any node and are not part of this value model; the in-place
    model [BPlusTreeMut] below keeps [next]. *)
Inductive BPlusNode : Type :=
  mkNode { keys : list Z; children : list BPlusNode; isLeaf : bool }.

Definition MAX_KEYS : nat := 3.

Definition createLeafNode (ks : list Z) : BPlusNode :=
  {| keys := ks; children := []; isLeaf := true |}.

Definition createInternalNode (ks : list Z) (cs : list BPlusNode) : BPlusNode :=
  {| keys := ks; children := cs; isLeaf := false |}.

Fixpoint cloneNode (node : BPlusNode) : BPlusNode :=
  match node with
  | mkNode ks cs lf => mkNode ks (List.map cloneNode cs) lf
  end.

(** The object returned by [insertRecursive]. *)
Record InsertResult : Type :=
  { newNode : option BPlusNode; promotedKey : option Z }.

Definition noSplit : InsertResult := {| newNode := None; promotedKey := None |}.

(** [insertRecursive(node, key)].  The source updates [node] in place; here
    the first component of the result is [node] as the call leaves it.
    [node.children[childIndex]] being [undefined] makes the recursive call
    throw.  The lookups [rightKeys[0]] and [newKeys[mid]] are taken when the
    array is longer than [MAX_KEYS], so they are in range. *)
Fixpoint insertRecursive (node : BPlusNode) (key : Z)
  : Outcome (BPlusNode * InsertResult) :=
  match node with
  | mkNode node_keys node_children true =>
      let newKeys := js_sort numeric (node_keys ++ [key]) in
      if length newKeys <=? MAX_KEYS then
        Ok (mkNode newKeys node_children true, noSplit)
      else
        let mid := (length newKeys + 1) / 2 in
        let leftKeys := take mid newKeys in
        let rightKeys := drop mid newKeys in
        let newLeaf := createLeafNode rightKeys in
        Ok (mkNode leftKeys node_children true,
            {| newNode := Some newLeaf; promotedKey := rightKeys !! 0 |})
  | mkNode node_keys node_children false =>
      let childIndex :=
        default (length node_keys) (findIndex (fun k => (key <? k)%Z) node_keys) in
      match List.map (fun c => insertRecursive c key) node_children !! childIndex with
      | None => TypeError
      | Some r =>
          '(child, result) ← r;
          let node_children := <[childIndex := child]> node_children in
          match newNode result, promotedKey result with
          | Some new_node, Some promoted =>
              let newKeys := splice_insert childIndex promoted node_keys in
              let newChildren := splice_insert (childIndex + 1) new_node node_children in
              if length newKeys <=? MAX_KEYS then
                Ok (mkNode newKeys newChildren false, noSplit)
              else
                let mid := length newKeys / 2 in
                let leftKeys := take mid newKeys in
                let rightKeys := drop (mid + 1) newKeys in
                let newInternal :=
                  createInternalNode rightKeys (drop (mid + 1) newChildren) in
                Ok (mkNode leftKeys (take (mid + 1) newChildren) false,
                    {| newNode := Some newInternal; promotedKey := newKeys !! mid |})
          | _, _ => Ok (mkNode node_keys node_children false, noSplit)
          end
      end
  end.

(** [insert(key)]: the updater passed to [setRoot], from the previous root to
    the next one. *)
Definition insert (prevRoot : option BPlusNode) (key : Z)
  : Outcome (option BPlusNode) :=
  match prevRoot with
  | None => Ok (Some (createLeafNode [key]))
  | Some prevRoot =>
      let root := cloneNode prevRoot in
      '(root, result) ← insertRecursive root key;
      match newNode result, promotedKey result with
      | Some new_node, Some promoted =>
          Ok (Some (createInternalNode [promoted] [root; new_node]))
      | _, _ => Ok (Some root)
      end
  end.

(** A sequence of inserts, each one applied to the root the previous one
    produced, starting from the empty tree ([null]). *)
Definition insertAll (ks : list Z) : Outcome (option BPlusNode) :=
  foldl (fun acc k => root ← acc; insert root k) (Ok None) ks.

(** Numbers as [getTreeDepth] needs them: [Math.max()] of no arguments is
    [-Infinity], and adding one to it leaves it. *)
Inductive JsNumber : Type := NegInfinity | Num (n : Z).

Definition js_max (a b : JsNumber) : JsNumber :=
  match a, b with
  | NegInfinity, _ => b
  | _, NegInfinity => a
  | Num x, Num y => Num (Z.max x y)
  end.

Definition Math_max (l : list JsNumber) : JsNumber := foldr js_max NegInfinity l.

Definition js_succ (a : JsNumber) : JsNumber :=
  match a with
  | NegInfinity => NegInfinity
  | Num x => Num (1 + x)
  end.

Fixpoint nodeDepth (node : BPlusNode) : JsNumber :=
  match node with
  | mkNode _ _ true => Num 1
  | mkNode _ cs false => js_succ (Math_max (List.map nodeDepth cs))
  end.

(** [getTreeDepth(node)], on a node or [null]. *)
Definition getTreeDepth (node : option BPlusNode) : JsNumber :=
  match node with
  | None => Num 0
  | Some n => nodeDepth n
  end.

(** Depths (the root at 1) at which the leaves of a tree sit, left to right. *)
Fixpoint leafDepths (d : nat) (node : BPlusNode) : list nat :=
  match node with
  | mkNode _ _ true => [d]
  | mkNode _ cs false => concat (List.map (leafDepths (S d)) cs)
  end.

(** Every node of a tree satisfies [p]. *)
Fixpoint allNodes (p : BPlusNode -> bool) (node : BPlusNode) : bool :=
  match node with
  | mkNode _ cs _ => p node && forallb (allNodes p) cs
  end.

Definition withinMaxKeys (node : BPlusNode) : bool :=
  length (keys node) <=? MAX_KEYS.

(** *** Shape of the trees the widget builds *)

(** A tree of height [h] whose nodes hold at most [MAX_KEYS] keys, whose
    internal nodes have one child more than keys and whose leaves all sit at
    depth [h]. *)
Fixpoint shaped (h : nat) (node : BPlusNode) : bool :=
  match node with
  | mkNode ks cs true => (length ks <=? MAX_KEYS) && (h =? 1) && (length cs =? 0)
  | mkNode ks cs false =>
      (length ks <=? MAX_KEYS) && (length cs =? length ks + 1)
      && (1 <? h) && forallb (shaped (pred h)) cs
  end.

Definition isSplit (res : InsertResult) (n : BPlusNode) (pk : Z) : Prop :=
  res = {| newNode := Some n; promotedKey := Some pk |}.

(** All leaves sit at the depth [getTreeDepth] reports. *)
Definition leavesLevel (t : option BPlusNode) : Prop :=
  match t with
  | None => True
  | Some root =>
      Forall (fun d => Num (Z.of_nat d) = getTreeDepth (Some root)) (leafDepths 1 root)
  end.

(** How one insert changes the depth: the old root keeps its depth, and the
    tree gets deeper exactly when a new root is created above it. *)
Definition depthStep (t : option BPlusNode) (key : Z) : Prop :=
  match t with
  | None => insert None key = Ok (Some (createLeafNode [key]))
  | Some root =>
      exists root' res,
        insertRecursive (cloneNode root) key = Ok (root', res) /\
        nodeDepth root' = nodeDepth root /\
        ((res = noSplit /\ insert t key = Ok (Some root')) \/
         (exists n pk,
            res = {| newNode := Some n; promotedKey := Some pk |} /\
            insert t key = Ok (Some (createInternalNode [pk] [root'; n])) /\
            nodeDepth n = nodeDepth root /\
            nodeDepth (createInternalNode [pk] [root'; n]) = js_succ (nodeDepth root)))
  end.

Definition allNodesOpt (p : BPlusNode -> bool) (t : option BPlusNode) : bool :=
  match t with
  | None => true
  | Some root => allNodes p root
  end.

Definition treeShaped (t : option BPlusNode) : Prop :=
  match t with
  | None => True
  | Some root => exists h, shaped h root = true
  end.

(** *** Search, the order of the keys and the filling of the nodes *)

(** [searchRecursive(node)] for the key of the enclosing [search]: the nodes
    whose ids it pushes on [path] and the boolean it returns.  A child index
    without a child ([undefined]) ends the search with [false]. *)
Fixpoint searchRecursive (node : BPlusNode) (key : Z) : list BPlusNode * bool :=
  match node with
  | mkNode ks cs true => ([node], existsb (Z.eqb key) ks)
  | mkNode ks cs false =>
      let childIndex :=
        default (length ks) (findIndex (fun k => (key <? k)%Z) ks) in
      match List.map (fun c => searchRecursive c key) cs !! childIndex with
      | None => ([node], false)
      | Some (path, found) => (node :: path, found)
      end
  end.

(** [search(key)]: the path it highlights and what [searchRecursive(root)]
    returned. *)
Definition search (root : option BPlusNode) (key : Z) : list BPlusNode * bool :=
  match root with
  | None => ([], false)
  | Some node => searchRecursive node key
  end.

Fixpoint leafCount (node : BPlusNode) : nat :=
  match node with
  | mkNode _ _ true => 1
  | mkNode _ cs false => foldl (fun sum child => sum + leafCount child) 0 cs
  end.

(** [countLeaves(node)], on a node or [null]. *)
Definition countLeaves (node : option BPlusNode) : nat :=
  match node with
  | None => 0
  | Some n => leafCount n
  end.

(** The keys of the leaves, left to right. *)
Fixpoint leafKeys (node : BPlusNode) : list Z :=
  match node with
  | mkNode ks _ true => ks
  | mkNode _ cs false => concat (List.map leafKeys cs)
  end.

Definition treeKeys (t : option BPlusNode) : list Z :=
  match t with
  | None => []
  | Some root => leafKeys root
  end.

(** The first key of the leaves below a node. *)
Definition firstKey (node : BPlusNode) : option Z := head (leafKeys node).

(** Every key of an internal node is the first key below the child to its
    right. *)
Fixpoint wellKeyed (node : BPlusNode) : bool :=
  match node with
  | mkNode _ _ true => true
  | mkNode ks cs false =>
      bool_decide (Some <$> ks = firstKey <$> drop 1 cs) && forallb wellKeyed cs
  end.

Definition wellKeyedOpt (t : option BPlusNode) : bool :=
  match t with
  | None => true
  | Some root => wellKeyed root
  end.

(** What a call of [insertRecursive] hands back besides the node: the keys
    of the new sibling, if there is one. *)
Definition newKeysOf (res : InsertResult) : list Z :=
  match newNode res with
  | Some n => leafKeys n
  | None => []
  end.

(** The tree holds its keys in order: the leaf keys ascend from left to
    right and every key of an internal node is the first key to its right. *)
Definition keysOrdered (t : option BPlusNode) : Prop :=
  wellKeyedOpt t = true /\ StronglySorted Z.le (treeKeys t).

(** A node other than the root is at least half full: a leaf holds two keys
    or more, an internal node one key or more. *)
Definition halfFull (node : BPlusNode) : bool :=
  if isLeaf node then 2 <=? length (keys node) else 1 <=? length (keys node).

(** The root holds a key, and every node below it is at least half full. *)
Definition rootFilled (t : option BPlusNode) : bool :=
  match t with
  | None => true
  | Some root => (1 <=? length (keys root)) && forallb (allNodes halfFull) (children root)
  end.

(** *** Proofs *)

Section node_induction.
Variable P : BPlusNode -> Prop.
Hypothesis step : forall ks cs lf, Forall P cs -> P (mkNode ks cs lf).

Fixpoint BPlusNode_rect_nested (node : BPlusNode) : P node :=
  match node with
  | mkNode ks cs lf =>
      step ks cs lf
        ((fix go (l : list BPlusNode) : Forall P l :=
            match l with
            | [] => @List.Forall_nil _ P
            | c :: l0 => @List.Forall_cons _ P c l0 (BPlusNode_rect_nested c) (go l0)
            end) cs)
  end.
End node_induction.

Lemma forallb_Forall {A} (p : A -> bool) (l : list A) :
  forallb p l = true <-> Forall (fun x => p x = true) l.
Proof.
  induction l as [|x l IH]; simpl.
  - split; [constructor|done].
  - rewrite andb_true_iff, IH. split.
    + intros [? ?]. by constructor.
    + by inversion 1.
Qed.

Lemma shaped_leaf h ks cs :
  shaped h (mkNode ks cs true) = true <-> length ks <= MAX_KEYS /\ h = 1 /\ cs = [].
Proof.
  simpl. rewrite !andb_true_iff, Nat.leb_le, !Nat.eqb_eq, length_zero_iff_nil.
  tauto.
Qed.

Lemma shaped_internal h ks cs :
  shaped h (mkNode ks cs false) = true <->
  length ks <= MAX_KEYS /\ length cs = length ks + 1 /\ 1 < h /\
  Forall (fun c => shaped (pred h) c = true) cs.
Proof.
  simpl. rewrite !andb_true_iff, Nat.leb_le, Nat.eqb_eq, Nat.ltb_lt, forallb_Forall.
  tauto.
Qed.

Lemma cloneNode_id node : cloneNode node = node.
Proof.
  induction node as [ks cs lf IH] using BPlusNode_rect_nested. simpl. f_equal.
  induction IH as [|c cs Hc _ IHcs]; simpl; [done|]. by rewrite Hc, IHcs.
Qed.

Lemma insertRecursive_leaf ks cs key :
  insertRecursive (mkNode ks cs true) key =
  let newKeys := js_sort numeric (ks ++ [key]) in
  if length newKeys <=? MAX_KEYS then Ok (mkNode newKeys cs true, noSplit)
  else
    let mid := (length newKeys + 1) / 2 in
    Ok (mkNode (take mid newKeys) cs true,
        {| newNode := Some (createLeafNode (drop mid newKeys));
           promotedKey := drop mid newKeys !! 0 |}).
Proof. reflexivity. Qed.

Lemma insertRecursive_internal ks cs key :
  insertRecursive (mkNode ks cs false) key =
  let childIndex := default (length ks) (findIndex (fun k => (key <? k)%Z) ks) in
  match List.map (fun c => insertRecursive c key) cs !! childIndex with
  | None => TypeError
  | Some r =>
      '(child, result) ← r;
      let cs' := <[childIndex := child]> cs in
      match newNode result, promotedKey result with
      | Some new_node, Some promoted =>
          let newKeys := splice_insert childIndex promoted ks in
          let newChildren := splice_insert (childIndex + 1) new_node cs' in
          if length newKeys <=? MAX_KEYS then
            Ok (mkNode newKeys newChildren false, noSplit)
          else
            let mid := length newKeys / 2 in
            Ok (mkNode (take mid newKeys) (take (mid + 1) newChildren) false,
                {| newNode := Some (createInternalNode (drop (mid + 1) newKeys)
                                      (drop (mid + 1) newChildren));
                   promotedKey := newKeys !! mid |})
      | _, _ => Ok (mkNode ks cs' false, noSplit)
      end
  end.
Proof. reflexivity. Qed.

Lemma insertRecursive_shaped node : forall h key,
  shaped h node = true ->
  exists node' res,
    insertRecursive node key = Ok (node', res) /\ shaped h node' = true /\
    (res = noSplit \/ exists n pk, isSplit res n pk /\ shaped h n = true).
Proof.
  induction node as [ks cs lf IH] using BPlusNode_rect_nested.
  intros h key Hsh. destruct lf.
  - apply shaped_leaf in Hsh as (Hks & -> & ->).
    rewrite insertRecursive_leaf. cbv zeta.
    pose proof (length_js_sort numeric (ks ++ [key])) as Hlen.
    rewrite length_app in Hlen. simpl in Hlen.
    set (newKeys := js_sort numeric (ks ++ [key])) in *.
    unfold MAX_KEYS in *.
    destruct (length newKeys <=? 3) eqn:E.
    + apply Nat.leb_le in E. eexists _, _. split; [done|]. split; [|by left].
      apply shaped_leaf. unfold MAX_KEYS. split_and!; [lia|done|done].
    + apply Nat.leb_gt in E.
      assert (length newKeys = 4) as H4 by lia. rewrite H4.
      change ((4 + 1) / 2) with 2.
      destruct (drop 2 newKeys !! 0) as [pk|] eqn:Epk.
      2:{ apply lookup_ge_None in Epk. rewrite length_drop in Epk. lia. }
      eexists _, _. split; [done|]. split.
      * apply shaped_leaf. rewrite length_take. unfold MAX_KEYS. split_and!; [lia|done|done].
      * right. eexists _, _. split; [done|].
        apply shaped_leaf. rewrite length_drop. unfold MAX_KEYS. split_and!; [lia|done|done].
  - apply shaped_internal in Hsh as (Hks & Hcs & Hh & Hall).
    rewrite insertRecursive_internal. cbv zeta.
    pose proof (findIndex_default_le (fun k => (key <? k)%Z) ks) as Hidx.
    set (i := default (length ks) (findIndex (fun k => (key <? k)%Z) ks)) in *.
    rewrite lookup_map.
    destruct (cs !! i) as [c|] eqn:Ec.
    2:{ apply lookup_ge_None in Ec. lia. }
    simpl.
    destruct (proj1 (Forall_lookup _ _) IH i c Ec (pred h) key) as (c' & res & -> & Hc' & Hres).
    { by eapply (proj1 (Forall_lookup _ _) Hall). }
    simpl.
    assert (Forall (fun c => shaped (pred h) c = true) (<[i:=c']> cs)) as Hall'.
    { by apply Forall_insert. }
    destruct Hres as [-> | (n & pk & -> & Hn)]; simpl.
    + eexists _, _. split; [done|]. split; [|by left].
      apply shaped_internal. rewrite length_insert. done.
    + pose proof (length_splice_insert i pk ks) as HlenK.
      pose proof (length_splice_insert (i + 1) n (<[i:=c']> cs)) as HlenC.
      rewrite length_insert in HlenC.
      pose proof (Forall_splice_insert _ (i + 1) n _ Hn Hall') as HallC.
      unfold MAX_KEYS in *.
      destruct (length (splice_insert i pk ks) <=? 3) eqn:E.
      * apply Nat.leb_le in E. eexists _, _. split; [done|]. split; [|by left].
        apply shaped_internal. unfold MAX_KEYS. split_and!; [lia|lia|lia|done].
      * apply Nat.leb_gt in E.
        assert (length (splice_insert i pk ks) = 4) as H4 by lia. rewrite H4.
        change (fst (Nat.divmod 4 1 0 1)) with 2. change (2 + 1) with 3.
        destruct (splice_insert i pk ks !! 2) as [pk'|] eqn:Epk.
        2:{ apply lookup_ge_None in Epk. lia. }
        eexists _, _. split; [done|]. split.
        -- apply shaped_internal. rewrite !length_take. unfold MAX_KEYS.
           split_and!; [lia|lia|lia|by apply Forall_take].
        -- right. eexists _, _. split; [done|].
           apply shaped_internal. rewrite !length_drop. unfold MAX_KEYS.
           split_and!; [lia|lia|lia|by apply Forall_drop].
Qed.

Lemma shaped_pos h node : shaped h node = true -> 1 <= h.
Proof.
  destruct node as [ks cs []]; intros H.
  - apply shaped_leaf in H. lia.
  - apply shaped_internal in H. lia.
Qed.

Lemma shaped_allNodes node : forall h,
  shaped h node = true -> allNodes withinMaxKeys node = true.
Proof.
  induction node as [ks cs lf IH] using BPlusNode_rect_nested.
  intros h Hsh. simpl. apply andb_true_iff. destruct lf.
  - apply shaped_leaf in Hsh as (Hks & _ & ->). split; [by apply Nat.leb_le|done].
  - apply shaped_internal in Hsh as (Hks & _ & _ & Hall). split.
    + by apply Nat.leb_le.
    + apply forallb_Forall.
      induction IH as [|c cs Hc _ IHcs]; [constructor|].
      inversion Hall; subst. constructor; eauto.
Qed.

Lemma Math_max_const (x : Z) (l : list JsNumber) :
  l <> [] -> Forall (fun d => d = Num x) l -> Math_max l = Num x.
Proof.
  intros Hne Hall.
  assert (Math_max l = match l with [] => NegInfinity | _ => Num x end) as ->;
    [|by destruct l].
  clear Hne. induction Hall as [|d l -> _ IH]; [done|].
  change (Math_max (Num x :: l)) with (js_max (Num x) (Math_max l)).
  rewrite IH. destruct l; simpl; [done|]. f_equal. lia.
Qed.

Lemma shaped_nodeDepth node : forall h,
  shaped h node = true -> nodeDepth node = Num (Z.of_nat h).
Proof.
  induction node as [ks cs lf IH] using BPlusNode_rect_nested.
  intros h Hsh. destruct lf.
  - apply shaped_leaf in Hsh as (_ & -> & _). done.
  - apply shaped_internal in Hsh as (_ & Hcs & Hh & Hall). simpl.
    rewrite (Math_max_const (Z.of_nat (pred h))).
    + simpl. f_equal. lia.
    + destruct cs; [simpl in Hcs; lia|done].
    + clear Hcs. induction IH as [|c cs Hc _ IHcs]; simpl; [constructor|].
      inversion Hall; subst. constructor; eauto.
Qed.

Lemma shaped_leafDepths node : forall h d0,
  shaped h node = true -> Forall (fun d => d + 1 = d0 + h) (leafDepths d0 node).
Proof.
  induction node as [ks cs lf IH] using BPlusNode_rect_nested.
  intros h d0 Hsh. destruct lf.
  - apply shaped_leaf in Hsh as (_ & -> & _). simpl. by constructor.
  - apply shaped_internal in Hsh as (_ & _ & Hh & Hall). simpl.
    induction IH as [|c cs Hc _ IHcs]; simpl; [constructor|].
    inversion Hall; subst. apply Forall_app. split; [|by apply IHcs].
    eapply Forall_impl; [by apply Hc|]. simpl. intros d Hd. lia.
Qed.

Lemma insert_shaped t key :
  treeShaped t -> exists root', insert t key = Ok (Some root') /\ treeShaped (Some root').
Proof.
  destruct t as [root|]; simpl.
  - intros [h Hsh]. rewrite cloneNode_id.
    destruct (insertRecursive_shaped root h key Hsh)
      as (root' & res & -> & Hroot' & [-> | (n & pk & -> & Hn)]); simpl.
    + eauto.
    + eexists. split; [done|]. exists (S h). apply shaped_internal.
      pose proof (shaped_pos _ _ Hn). unfold MAX_KEYS. simpl.
      split_and!; [lia|lia|lia|]. by repeat constructor.
  - intros _. eexists. split; [done|]. by exists 1.
Qed.

Lemma insertAll_snoc ks k :
  insertAll (ks ++ [k]) = (root ← insertAll ks; insert root k).
Proof. unfold insertAll. by rewrite foldl_app. Qed.

Lemma insertAll_shaped ks : exists t, insertAll ks = Ok t /\ treeShaped t.
Proof.
  induction ks as [|k ks IH] using rev_ind.
  - by exists None.
  - destruct IH as (t & Ht & Hsh). rewrite insertAll_snoc, Ht. simpl.
    destruct (insert_shaped t k Hsh) as (root' & -> & Hroot'). eauto.
Qed.

Lemma treeShaped_leavesLevel t : treeShaped t -> leavesLevel t.
Proof.
  destruct t as [root|]; [|done]. intros [h Hsh]. simpl.
  rewrite (shaped_nodeDepth _ _ Hsh).
  eapply Forall_impl; [by apply (shaped_leafDepths root h 1)|].
  simpl. intros d Hd. f_equal. lia.
Qed.

Lemma treeShaped_depthStep t key : treeShaped t -> depthStep t key.
Proof.
  destruct t as [root|]; [|done]. intros [h Hsh]. simpl.
  rewrite cloneNode_id.
  destruct (insertRecursive_shaped root h key Hsh)
    as (root' & res & -> & Hroot' & [-> | (n & pk & -> & Hn)]).
  - exists root', noSplit. split; [done|].
    rewrite (shaped_nodeDepth _ _ Hroot'), (shaped_nodeDepth _ _ Hsh).
    split; [done|]. by left.
  - eexists root', _. split; [done|].
    rewrite (shaped_nodeDepth _ _ Hroot'), (shaped_nodeDepth _ _ Hsh).
    split; [done|]. right. exists n, pk. split_and!; try done.
    + by apply shaped_nodeDepth.
    + rewrite (shaped_nodeDepth _ _ Hn). simpl. f_equal. lia.
Qed.

(** *** The properties of the widget *)

(** C4.  After every insert of every sequence of inserts from the empty tree,
    each node of the tree, leaf or internal, holds at most [MAX_KEYS] keys.
    A leaf whose keys, with the new one, number more than [MAX_KEYS] never
    reaches the tree in that state: [insertRecursive] leaves it with the
    left half, returns a new leaf with the right half, and promotes the
    first key of that new leaf. *)
Theorem max_keys_after_every_insert :
  (forall ks : list Z,
     exists t, insertAll ks = Ok t /\ allNodesOpt withinMaxKeys t = true) /\
  (forall (ks : list Z) (cs : list BPlusNode) (key : Z),
     let newKeys := js_sort numeric (ks ++ [key]) in
     exists node' res,
       insertRecursive (mkNode ks cs true) key = Ok (node', res) /\
       ((length newKeys <= MAX_KEYS /\ keys node' = newKeys /\ res = noSplit) \/
        (MAX_KEYS < length newKeys /\
         exists first rest,
           newKeys = keys node' ++ first :: rest /\
           length (keys node') <= length (first :: rest) + 1 /\
           length (first :: rest) <= length (keys node') /\
           res = {| newNode := Some (createLeafNode (first :: rest));
                    promotedKey := Some first |}))).
Proof.
  split.
  - intros ks. destruct (insertAll_shaped ks) as (t & Ht & Hsh).
    exists t. split; [done|]. destruct t as [root|]; [|done].
    destruct Hsh as [h Hsh]. by eapply shaped_allNodes.
  - intros ks cs key newKeys. rewrite insertRecursive_leaf. cbv zeta.
    fold newKeys. destruct (length newKeys <=? MAX_KEYS) eqn:E.
    + apply Nat.leb_le in E. eexists _, _. split; [done|]. by left.
    + apply Nat.leb_gt in E. eexists _, _. split; [done|]. right.
      split; [done|]. unfold MAX_KEYS in E.
      set (mid := (length newKeys + 1) / 2).
      assert (mid < length newKeys /\ length newKeys <= 2 * mid
              /\ 2 * mid <= length newKeys + 1) as (Hmid & Hlo & Hhi).
      { unfold mid.
        pose proof (Nat.div_mod_eq (length newKeys + 1) 2) as Hd.
        pose proof (Nat.mod_upper_bound (length newKeys + 1) 2). lia. }
      destruct (drop mid newKeys) as [|first rest] eqn:Edrop.
      { apply (f_equal length) in Edrop. rewrite length_drop in Edrop.
        simpl in Edrop. lia. }
      exists first, rest. cbn [keys].
      pose proof (f_equal length Edrop) as Hlen. rewrite length_drop in Hlen.
      rewrite length_take. split_and!.
      * by rewrite <-Edrop, take_drop.
      * lia.
      * lia.
      * done.
Qed.

(** C7.  After every sequence of inserts from the empty tree all leaves sit at
    one depth, the depth [getTreeDepth] reports; and a further insert leaves
    the depth of the old root as it is, so the tree gets deeper only when
    [insert] creates a new root above the old one (whose two children both
    have the old depth). *)
Theorem leaves_level_and_depth_grows_at_root (ks : list Z) (key : Z) :
  exists t, insertAll ks = Ok t /\ leavesLevel t /\ depthStep t key.
Proof.
  destruct (insertAll_shaped ks) as (t & Ht & Hsh). exists t.
  split_and!; [done|by apply treeShaped_leavesLevel|by apply treeShaped_depthStep].
Qed.

(** *** Search, key order and occupancy: proofs *)

Lemma findIndex_Some {A} (p : A -> bool) l i :
  findIndex p l = Some i ->
  (exists x, l !! i = Some x /\ p x = true) /\
  (forall j y, j < i -> l !! j = Some y -> p y = false).
Proof.
  revert i. induction l as [|x l IH]; intros i; simpl; [done|].
  destruct (p x) eqn:Ex.
  - intros [= <-]. split; [by exists x|]. intros j y Hj. lia.
  - destruct (findIndex p l) as [i'|]; simpl; [|done].
    intros [= <-]. destruct (IH i' eq_refl) as [Hx Hlt]. split; [done|].
    intros [|j] y Hj; simpl.
    + by intros [= <-].
    + apply Hlt. lia.
Qed.

Lemma findIndex_None {A} (p : A -> bool) l :
  findIndex p l = None -> Forall (fun x => p x = false) l.
Proof.
  induction l as [|x l IH]; simpl; [constructor|].
  destruct (p x) eqn:Ex; [done|].
  destruct (findIndex p l); simpl; [done|]. intros _. constructor; auto.
Qed.

Lemma js_sort_numeric_sorted l : StronglySorted Z.le (js_sort numeric l).
Proof.
  assert (forall a b, cmp_le numeric a b <-> (a <= b)%Z) as Hle.
  { intros a b. unfold cmp_le, numeric. lia. }
  rewrite <-(list_fmap_id (js_sort numeric l)).
  apply (StronglySorted_fmap id (cmp_le numeric)); [intros a b; apply Hle|].
  apply js_sort_StronglySorted.
  - intros a b. rewrite !Hle. lia.
  - intros a b c. rewrite !Hle. lia.
Qed.

(** Replacing a segment of a sorted list by a sorted list with one more
    element, which fits between the neighbours. *)
Lemma sorted_replace (A L L' B : list Z) key :
  StronglySorted Z.le (A ++ L ++ B) ->
  L' ≡ₚ L ++ [key] -> StronglySorted Z.le L' ->
  Forall (fun a => (a <= key)%Z) A -> Forall (fun b => (key <= b)%Z) B ->
  StronglySorted Z.le (A ++ L' ++ B).
Proof.
  intros Hs Hp HL' HA HB.
  apply StronglySorted_app in Hs as (HAL & HsA & Hs).
  apply StronglySorted_app in Hs as (HLB & HsL & HsB).
  rewrite Forall_forall in HA. rewrite Forall_forall in HB.
  apply StronglySorted_app. split_and!; [|done|].
  - intros a x Ha Hx. apply elem_of_app in Hx as [Hx|Hx].
    + rewrite Hp in Hx. apply elem_of_app in Hx as [Hx|Hx].
      * apply HAL; [done|]. apply elem_of_app. by left.
      * apply list_elem_of_singleton in Hx as ->. by apply HA.
    + apply HAL; [done|]. apply elem_of_app. by right.
  - apply StronglySorted_app. split_and!; [|done|done].
    intros x b Hx Hb. rewrite Hp in Hx. apply elem_of_app in Hx as [Hx|Hx].
    + by apply HLB.
    + apply list_elem_of_singleton in Hx as ->. by apply HB.
Qed.

(** The first element of a sorted list is its least. *)
Lemma sorted_head_le (l : list Z) x y :
  StronglySorted Z.le l -> head l = Some x -> y ∈ l -> (x <= y)%Z.
Proof.
  destruct l as [|a l]; [done|]. intros Hs [= ->] Hy.
  apply StronglySorted_cons in Hs as [Hall _]. rewrite Forall_forall in Hall.
  apply elem_of_cons in Hy as [->|Hy]; [lia|by apply Hall].
Qed.

Lemma head_concat_cons {A} (l : list A) (ls : list (list A)) x :
  head l = Some x -> head (concat (l :: ls)) = Some x.
Proof. destruct l; [done|]. by intros [= ->]. Qed.

Lemma leafKeys_internal ks cs :
  leafKeys (mkNode ks cs false) = concat (leafKeys <$> cs).
Proof. reflexivity. Qed.

Lemma wellKeyed_internal ks cs :
  wellKeyed (mkNode ks cs false) = true <->
  Some <$> ks = firstKey <$> drop 1 cs /\ Forall (fun c => wellKeyed c = true) cs.
Proof.
  simpl. rewrite andb_true_iff, bool_decide_eq_true, forallb_Forall. tauto.
Qed.

Lemma fmap_splice_insert {A B} (f : A -> B) i x (l : list A) :
  f <$> splice_insert i x l = splice_insert i (f x) (f <$> l).
Proof. unfold splice_insert. by rewrite fmap_app, fmap_cons, fmap_take, fmap_drop. Qed.

Lemma splice_insert_after {A} i (c n : A) l :
  i < length l ->
  splice_insert (i + 1) n (<[i:=c]> l) = take i l ++ c :: n :: drop (S i) l.
Proof.
  intros Hi. unfold splice_insert. rewrite (insert_take_drop l i c Hi).
  assert (length (take i l) = i) as Hlen by (rewrite length_take; lia).
  rewrite <-Hlen at 1 4.
  rewrite take_app_add, drop_app_add. simpl.
  by rewrite <-(assoc_L (++)).
Qed.

Lemma drop_1_splice_insert {A} i (x a : A) l :
  drop 1 (splice_insert (i + 1) x (a :: l)) = splice_insert i x (drop 1 (a :: l)).
Proof. unfold splice_insert. by rewrite Nat.add_1_r. Qed.

Lemma drop_1_take {A} n (l : list A) : drop 1 (take (S n) l) = take n (drop 1 l).
Proof. destruct l; [by destruct n|done]. Qed.

Lemma childIndex_spec key ks :
  let i := default (length ks) (findIndex (fun k => (key <? k)%Z) ks) in
  i <= length ks /\
  (forall j y, j < i -> ks !! j = Some y -> (y <= key)%Z) /\
  (forall y, ks !! i = Some y -> (key < y)%Z).
Proof.
  intros i. split; [apply findIndex_default_le|]. subst i.
  destruct (findIndex _ ks) as [i|] eqn:E; simpl.
  - apply findIndex_Some in E as [(x & Hx & Hp) Hlt]. split.
    + intros j y Hj Hy. specialize (Hlt j y Hj Hy). lia.
    + intros y Hy. rewrite Hx in Hy. injection Hy as <-. lia.
  - apply findIndex_None in E. rewrite Forall_lookup in E. split.
    + intros j y _ Hy. specialize (E j y Hy). simpl in E. lia.
    + intros y Hy. apply lookup_lt_Some in Hy. lia.
Qed.

(** The link between the keys of an internal node and its children. *)
Lemma separator_child ks cs j :
  Some <$> ks = firstKey <$> drop 1 cs ->
  (forall k, ks !! j = Some k -> exists d, cs !! S j = Some d /\ firstKey d = Some k) /\
  (forall d, cs !! S j = Some d -> exists k, ks !! j = Some k /\ firstKey d = Some k).
Proof.
  intros Hk. apply (f_equal (fun l => l !! j)) in Hk.
  rewrite !list_lookup_fmap, lookup_drop in Hk. simpl in Hk. split.
  - intros k Hj. rewrite Hj in Hk. simpl in Hk.
    destruct (cs !! S j) as [d|]; [|done]. injection Hk as Hk. eauto.
  - intros d Hd. rewrite Hd in Hk. simpl in Hk.
    destruct (ks !! j) as [k|]; [|done]. injection Hk as Hk. eauto.
Qed.

Lemma elem_of_concat_lookup {A} (ls : list (list A)) i l x :
  ls !! i = Some l -> x ∈ l -> x ∈ concat ls.
Proof.
  intros Hi Hx. rewrite <-(take_drop_middle ls i l Hi), concat_app. simpl.
  rewrite !elem_of_app. auto.
Qed.

Lemma firstKey_elem node k : firstKey node = Some k -> k ∈ leafKeys node.
Proof.
  unfold firstKey. destruct (leafKeys node); [done|]. intros [= ->]. by left.
Qed.

(** The two halves an internal node with four keys is split into. *)
Lemma split_wellKeyed ks2 cs2 pk :
  length ks2 = 4 -> length cs2 = 5 ->
  Some <$> ks2 = firstKey <$> drop 1 cs2 ->
  Forall (fun c => wellKeyed c = true) cs2 ->
  ks2 !! 2 = Some pk ->
  wellKeyed (mkNode (take 2 ks2) (take 3 cs2) false) = true /\
  wellKeyed (createInternalNode (drop 3 ks2) (drop 3 cs2)) = true /\
  firstKey (createInternalNode (drop 3 ks2) (drop 3 cs2)) = Some pk /\
  leafKeys (mkNode (take 2 ks2) (take 3 cs2) false) <> [].
Proof.
  intros HlenK HlenC Hk Hwk Hpk. split_and!.
  - apply wellKeyed_internal. split; [|by apply Forall_take].
    rewrite drop_1_take, !fmap_take, fmap_drop. by rewrite Hk, fmap_drop.
  - apply wellKeyed_internal. split; [|by apply Forall_drop].
    rewrite drop_drop, !fmap_drop. rewrite Hk, fmap_drop, drop_drop. done.
  - destruct (proj1 (separator_child ks2 cs2 2 Hk) pk Hpk) as (d & Hd & Hfd).
    unfold firstKey, createInternalNode. rewrite leafKeys_internal.
    rewrite (drop_S cs2 d 3 Hd). rewrite fmap_cons. by apply head_concat_cons.
  - destruct (ks2 !! 0) as [k0|] eqn:Ek0.
    2:{ apply lookup_ge_None in Ek0. lia. }
    destruct (proj1 (separator_child ks2 cs2 0 Hk) k0 Ek0) as (d & Hd & Hfd).
    apply firstKey_elem in Hfd. rewrite leafKeys_internal.
    intros Hnil.
    assert (k0 ∈ concat (leafKeys <$> take 3 cs2)) as Hin.
    { eapply (elem_of_concat_lookup _ 1); [|exact Hfd].
      rewrite list_lookup_fmap, lookup_take_lt by lia. by rewrite Hd. }
    rewrite Hnil in Hin. by apply elem_of_nil in Hin.
Qed.

Lemma insertRecursive_keys node : forall h key,
  shaped h node = true -> wellKeyed node = true ->
  StronglySorted Z.le (leafKeys node) ->
  exists node' res,
    insertRecursive node key = Ok (node', res) /\
    wellKeyed node' = true /\
    leafKeys node' ++ newKeysOf res ≡ₚ leafKeys node ++ [key] /\
    StronglySorted Z.le (leafKeys node' ++ newKeysOf res) /\
    leafKeys node' <> [] /\
    (res = noSplit \/
     exists n pk, isSplit res n pk /\ wellKeyed n = true /\ firstKey n = Some pk).
Proof.
  induction node as [ks cs lf IH] using BPlusNode_rect_nested.
  intros h key Hsh Hwk Hsorted. destruct lf.
  - (* a leaf *)
    apply shaped_leaf in Hsh as (Hks & -> & ->).
    rewrite insertRecursive_leaf. cbv zeta.
    pose proof (length_js_sort numeric (ks ++ [key])) as Hlen.
    rewrite length_app in Hlen. simpl in Hlen.
    pose proof (js_sort_perm numeric (ks ++ [key])) as Hperm.
    pose proof (js_sort_numeric_sorted (ks ++ [key])) as Hsort.
    set (newKeys := js_sort numeric (ks ++ [key])) in *.
    unfold MAX_KEYS in *.
    destruct (length newKeys <=? 3) eqn:E.
    + eexists _, _. split; [done|]. unfold newKeysOf. simpl.
      rewrite app_nil_r. split_and!; [done|done|done| |by left].
      intros Hnil. rewrite Hnil in Hlen. simpl in Hlen. lia.
    + apply Nat.leb_gt in E.
      assert (length newKeys = 4) as H4 by lia. rewrite H4.
      change ((4 + 1) / 2) with 2.
      destruct (drop 2 newKeys !! 0) as [pk|] eqn:Epk.
      2:{ apply lookup_ge_None in Epk. rewrite length_drop in Epk. lia. }
      eexists _, _. split; [done|]. unfold newKeysOf. simpl.
      rewrite take_drop. split_and!; [done|done|done| |].
      * intros Hnil. apply (f_equal length) in Hnil.
        rewrite length_take in Hnil. change (length []) with 0 in Hnil. lia.
      * right. eexists _, _. split; [done|]. split; [done|].
        unfold firstKey. simpl. by rewrite head_lookup.
  - (* an internal node *)
    apply shaped_internal in Hsh as (Hks & Hcs & Hh & Hall).
    apply wellKeyed_internal in Hwk as [Hk Hwk].
    rewrite leafKeys_internal in Hsorted.
    rewrite insertRecursive_internal. cbv zeta.
    destruct (childIndex_spec key ks) as (Hidx & Hbelow & Habove).
    set (i := default (length ks) (findIndex (fun k => (key <? k)%Z) ks)) in *.
    rewrite lookup_map.
    destruct (cs !! i) as [c|] eqn:Ec.
    2:{ apply lookup_ge_None in Ec. lia. }
    simpl.
    pose proof (take_drop_middle cs i c Ec) as Hcs_eq.
    set (A := concat (leafKeys <$> take i cs)).
    set (B := concat (leafKeys <$> drop (S i) cs)).
    assert (concat (leafKeys <$> cs) = A ++ leafKeys c ++ B) as Hall_eq.
    { rewrite <-Hcs_eq at 1. by rewrite fmap_app, concat_app. }
    rewrite Hall_eq in Hsorted.
    assert (StronglySorted Z.le (leafKeys c)) as Hsc.
    { apply StronglySorted_app_1_r, StronglySorted_app_1_l in Hsorted. done. }
    destruct (proj1 (Forall_lookup _ _) IH i c Ec (pred h) key)
      as (c' & res & -> & Hwc' & Hperm & Hsort & Hne & Hres).
    { by eapply (proj1 (Forall_lookup _ _) Hall). }
    { by eapply (proj1 (Forall_lookup _ _) Hwk). }
    { done. }
    simpl.
    (* the neighbours bound the key *)
    assert (Forall (fun a => (a <= key)%Z) A) as HA.
    { destruct i as [|i']; [by constructor|].
      destruct (proj2 (separator_child ks cs i' Hk) c Ec) as (k & Hki & Hfk).
      assert (k <= key)%Z by (apply (Hbelow i' k); [lia|done]).
      apply firstKey_elem in Hfk. apply Forall_forall. intros a Ha.
      assert (a <= k)%Z; [|lia].
      eapply (StronglySorted_app_1_elem_of _ _ _ _ _ Hsorted); [done|].
      apply elem_of_app. by left. }
    assert (Forall (fun b => (key <= b)%Z) B) as HB.
    { destruct (cs !! S i) as [d|] eqn:Ed.
      - destruct (proj2 (separator_child ks cs i Hk) d Ed) as (k & Hki & Hfk).
        specialize (Habove k Hki).
        assert (StronglySorted Z.le B) as HsB.
        { by apply StronglySorted_app_1_r, StronglySorted_app_1_r in Hsorted. }
        apply Forall_forall. intros b Hb.
        assert (k <= b)%Z; [|lia].
        eapply sorted_head_le; [exact HsB| |done].
        unfold B. rewrite (drop_S cs d (S i) Ed), fmap_cons.
        by apply head_concat_cons.
      - apply lookup_ge_None in Ed. unfold B. rewrite drop_ge by lia. constructor. }
    (* the first key below the child stays *)
    assert (0 < i -> firstKey c' = firstKey c) as Hfirst.
    { intros Hi. destruct i as [|i']; [lia|].
      destruct (proj2 (separator_child ks cs i' Hk) c Ec) as (k & Hki & Hfk).
      assert (k <= key)%Z by (apply (Hbelow i' k); [lia|done]).
      rewrite Hfk. unfold firstKey.
      destruct (leafKeys c') as [|x rest] eqn:Ex; [done|]. simpl. f_equal.
      assert (x <= k)%Z.
      { eapply (sorted_head_le _ x k Hsort); [done|].
        rewrite Hperm. apply elem_of_app. left. by apply firstKey_elem. }
      assert (k <= x)%Z; [|lia].
      assert (x ∈ leafKeys c ++ [key]) as Hx by (rewrite <-Hperm; by left).
      apply elem_of_app in Hx as [Hx|Hx].
      - by apply (sorted_head_le (leafKeys c)).
      - apply list_elem_of_singleton in Hx as ->. done. }
    assert (Forall (fun c => wellKeyed c = true) (<[i:=c']> cs)) as Hwk'.
    { by apply Forall_insert. }
    assert (i < length cs) as Hilt by (by eapply lookup_lt_Some).
    assert (firstKey <$> drop 1 (<[i:=c']> cs) = firstKey <$> drop 1 cs) as Hdrop.
    { destruct i as [|i'].
      - destruct cs; done.
      - rewrite <-(list_insert_id cs (S i') c Ec) at 2.
        rewrite !fmap_drop, !list_fmap_insert. by rewrite Hfirst by lia. }
    destruct Hres as [-> | (n & pk & Hres & Hwn & Hfn)];
      [|unfold isSplit in Hres; subst res]; simpl.
    + (* the child did not split *)
      unfold newKeysOf in *. simpl in *. rewrite app_nil_r in *.
      assert (concat (leafKeys <$> <[i:=c']> cs) = A ++ leafKeys c' ++ B) as Hnew.
      { rewrite (insert_take_drop cs i c' Hilt). by rewrite fmap_app, concat_app. }
      eexists _, _. split; [done|]. simpl. rewrite app_nil_r.
      change (concat (List.map leafKeys (<[i:=c']> cs)))
        with (concat (leafKeys <$> <[i:=c']> cs)).
      change (concat (List.map leafKeys cs)) with (concat (leafKeys <$> cs)).
      rewrite Hnew, Hall_eq. split_and!.
      * apply wellKeyed_internal. split; [by rewrite Hdrop|done].
      * rewrite Hperm. rewrite <-!(assoc_L (++)). do 2 f_equiv.
        apply Permutation_app_comm.
      * by eapply sorted_replace.
      * intros Hnil. apply app_eq_nil in Hnil as [_ Hnil].
        apply app_eq_nil in Hnil as [Hnil _]. done.
      * by left.
    + (* the child split *)
      unfold newKeysOf in Hperm, Hsort. simpl in Hperm, Hsort.
      set (ks2 := splice_insert i pk ks).
      set (cs2 := splice_insert (i + 1) n (<[i:=c']> cs)).
      pose proof (length_splice_insert i pk ks) as HlenK.
      pose proof (length_splice_insert (i + 1) n (<[i:=c']> cs)) as HlenC.
      rewrite length_insert in HlenC. fold ks2 in HlenK. fold cs2 in HlenC.
      assert (concat (leafKeys <$> cs2) = A ++ (leafKeys c' ++ leafKeys n) ++ B) as Hnew.
      { unfold cs2. rewrite (splice_insert_after i c' n cs Hilt).
        rewrite fmap_app, concat_app. simpl. by rewrite <-!(assoc_L (++)). }
      assert (Some <$> ks2 = firstKey <$> drop 1 cs2) as Hk2.
      { unfold ks2, cs2. destruct (<[i:=c']> cs) as [|a l] eqn:Ecs'.
        { apply (f_equal length) in Ecs'. rewrite length_insert in Ecs'.
          simpl in Ecs'. lia. }
        rewrite drop_1_splice_insert, !fmap_splice_insert, Hfn.
        by rewrite Hdrop, Hk. }
      assert (Forall (fun c => wellKeyed c = true) cs2) as Hwk2.
      { by apply Forall_splice_insert. }
      assert (concat (leafKeys <$> cs2) ≡ₚ concat (leafKeys <$> cs) ++ [key]) as Hperm2.
      { rewrite Hnew, Hall_eq, Hperm. rewrite <-!(assoc_L (++)). do 2 f_equiv.
        apply Permutation_app_comm. }
      assert (StronglySorted Z.le (concat (leafKeys <$> cs2))) as Hsort2.
      { rewrite Hnew. by eapply sorted_replace. }
      unfold MAX_KEYS in *.
      destruct (length ks2 <=? 3) eqn:E.
      * eexists _, _. split; [done|]. unfold newKeysOf. simpl. rewrite app_nil_r.
        change (concat (List.map leafKeys cs2)) with (concat (leafKeys <$> cs2)).
        change (concat (List.map leafKeys cs)) with (concat (leafKeys <$> cs)).
        split_and!; [by apply wellKeyed_internal|done|done| |by left].
        rewrite Hnew. intros Hnil. apply app_eq_nil in Hnil as [_ Hnil].
        apply app_eq_nil in Hnil as [Hnil _].
        apply app_eq_nil in Hnil as [Hnil _]. done.
      * apply Nat.leb_gt in E.
        assert (length ks2 = 4) as H4 by lia. rewrite H4.
        change (fst (Nat.divmod 4 1 0 1)) with 2. change (2 + 1) with 3.
        destruct (ks2 !! 2) as [pk'|] eqn:Epk.
        2:{ apply lookup_ge_None in Epk. lia. }
        destruct (split_wellKeyed ks2 cs2 pk') as (Hl & Hr & Hfr & Hnel);
          [done|lia|done|done|done|].
        eexists _, _. split; [done|]. unfold newKeysOf. cbn [newNode].
        assert (leafKeys (mkNode (take 2 ks2) (take 3 cs2) false) ++
                leafKeys (createInternalNode (drop 3 ks2) (drop 3 cs2)) =
                concat (leafKeys <$> cs2)) as ->.
        { unfold createInternalNode. rewrite !leafKeys_internal.
          by rewrite <-concat_app, <-fmap_app, take_drop. }
        change (leafKeys (mkNode ks cs false)) with (concat (leafKeys <$> cs)).
        split_and!; [done|done|done|done|].
        right. eexists _, _. split; [done|]. done.
Qed.

Lemma insert_keysOrdered t key :
  treeShaped t -> keysOrdered t ->
  exists root', insert t key = Ok (Some root') /\ treeShaped (Some root') /\
    keysOrdered (Some root') /\ treeKeys (Some root') ≡ₚ treeKeys t ++ [key].
Proof.
  intros Hsh [Hwk Hsorted].
  destruct (insert_shaped t key Hsh) as (root' & Hins & Hsh').
  exists root'. split; [done|]. split; [done|].
  destruct t as [root|]; simpl in *.
  - destruct Hsh as [h Hsh]. rewrite cloneNode_id in Hins.
    destruct (insertRecursive_keys root h key Hsh Hwk Hsorted)
      as (node' & res & Hrec & Hwk' & Hperm & Hsort & _ & Hres).
    rewrite Hrec in Hins. simpl in Hins.
    destruct Hres as [-> | (n & pk & Hres & Hwn & Hfn)];
      [|unfold isSplit in Hres; subst res]; simpl in Hins;
      injection Hins as <-; unfold newKeysOf in Hperm, Hsort;
      cbn [newNode noSplit] in Hperm, Hsort.
    + rewrite app_nil_r in Hperm, Hsort. split; [by split|done].
    + unfold keysOrdered, createInternalNode. cbn [wellKeyedOpt treeKeys].
      rewrite leafKeys_internal. simpl concat. rewrite app_nil_r.
      split; [split|]; [|done|done].
      apply wellKeyed_internal. split; [simpl; by rewrite Hfn|].
      by repeat constructor.
  - injection Hins as <-. simpl. split; [|done]. split; [done|].
    repeat constructor.
Qed.

Lemma insertAll_keysOrdered ks :
  exists t, insertAll ks = Ok t /\ treeShaped t /\ keysOrdered t /\ treeKeys t ≡ₚ ks.
Proof.
  induction ks as [|k ks IH] using rev_ind.
  - exists None. split_and!; try done. split; [done|constructor].
  - destruct IH as (t & Ht & Hsh & Hord & Hperm). rewrite insertAll_snoc, Ht. simpl.
    destruct (insert_keysOrdered t k Hsh Hord) as (root' & -> & Hsh' & Hord' & Hperm').
    exists (Some root'). split_and!; try done. by rewrite Hperm', Hperm.
Qed.

Lemma existsb_eqb key (ks : list Z) : existsb (Z.eqb key) ks = true <-> key ∈ ks.
Proof.
  induction ks as [|k ks IH]; simpl.
  - split; [done|by intros ?%elem_of_nil].
  - rewrite orb_true_iff, IH, elem_of_cons, Z.eqb_eq. done.
Qed.

Lemma searchRecursive_internal ks cs key :
  searchRecursive (mkNode ks cs false) key =
  let childIndex := default (length ks) (findIndex (fun k => (key <? k)%Z) ks) in
  match cs !! childIndex with
  | None => ([mkNode ks cs false], false)
  | Some c => (mkNode ks cs false :: (searchRecursive c key).1, (searchRecursive c key).2)
  end.
Proof.
  cbn [searchRecursive]. cbv zeta. rewrite lookup_map.
  destruct (cs !! _) as [c|]; simpl; [|done]. by destruct (searchRecursive c key).
Qed.

Lemma searchRecursive_found node : forall key,
  wellKeyed node = true -> StronglySorted Z.le (leafKeys node) ->
  (searchRecursive node key).2 = true <-> key ∈ leafKeys node.
Proof.
  induction node as [ks cs lf IH] using BPlusNode_rect_nested.
  intros key Hwk Hsorted. destruct lf.
  - simpl. apply existsb_eqb.
  - apply wellKeyed_internal in Hwk as [Hk Hwk].
    rewrite leafKeys_internal in *. rewrite searchRecursive_internal. cbv zeta.
    destruct (childIndex_spec key ks) as (Hidx & Hbelow & Habove).
    set (i := default (length ks) (findIndex (fun k => (key <? k)%Z) ks)) in *.
    assert (length ks = length cs - 1) as Hlen.
    { apply (f_equal length) in Hk. by rewrite !length_fmap, length_drop in Hk. }
    destruct (cs !! i) as [c|] eqn:Ec; simpl.
    2:{ apply lookup_ge_None in Ec. assert (cs = []) as ->.
        { destruct cs; [done|]. simpl in *. lia. }
        simpl. split; [done|by intros ?%elem_of_nil]. }
    pose proof (take_drop_middle cs i c Ec) as Hcs_eq.
    set (A := concat (leafKeys <$> take i cs)).
    set (B := concat (leafKeys <$> drop (S i) cs)).
    assert (concat (leafKeys <$> cs) = A ++ leafKeys c ++ B) as Hall_eq.
    { rewrite <-Hcs_eq at 1. by rewrite fmap_app, concat_app. }
    rewrite Hall_eq in *.
    assert (StronglySorted Z.le (leafKeys c)) as Hsc.
    { apply StronglySorted_app_1_r, StronglySorted_app_1_l in Hsorted. done. }
    rewrite (proj1 (Forall_lookup _ _) IH i c Ec key);
      [|by eapply (proj1 (Forall_lookup _ _) Hwk)|done].
    split; [intros ?; rewrite !elem_of_app; auto|].
    rewrite !elem_of_app. intros [HA|[Hc|HB]]; [|done|].
    + destruct i as [|i']; [by apply elem_of_nil in HA|].
      destruct (proj2 (separator_child ks cs i' Hk) c Ec) as (k & Hki & Hfk).
      assert (k <= key)%Z by (apply (Hbelow i' k); [lia|done]).
      apply firstKey_elem in Hfk.
      assert (key <= k)%Z.
      { eapply (StronglySorted_app_1_elem_of _ _ _ _ _ Hsorted); [done|].
        apply elem_of_app. by left. }
      by assert (key = k) as -> by lia.
    + exfalso. destruct (cs !! S i) as [d|] eqn:Ed.
      * destruct (proj2 (separator_child ks cs i Hk) d Ed) as (k & Hki & Hfk).
        specialize (Habove k Hki).
        assert (StronglySorted Z.le B) as HsB.
        { by apply StronglySorted_app_1_r, StronglySorted_app_1_r in Hsorted. }
        assert (k <= key)%Z; [|lia].
        eapply sorted_head_le; [exact HsB| |done].
        unfold B. rewrite (drop_S cs d (S i) Ed), fmap_cons.
        by apply head_concat_cons.
      * apply lookup_ge_None in Ed. unfold B in HB. rewrite drop_ge in HB by lia.
        by apply elem_of_nil in HB.
Qed.

Lemma searchRecursive_path node : forall h key,
  shaped h node = true -> length (searchRecursive node key).1 = h.
Proof.
  induction node as [ks cs lf IH] using BPlusNode_rect_nested.
  intros h key Hsh. destruct lf.
  - apply shaped_leaf in Hsh as (_ & -> & _). done.
  - apply shaped_internal in Hsh as (Hks & Hcs & Hh & Hall).
    rewrite searchRecursive_internal. cbv zeta.
    pose proof (findIndex_default_le (fun k => (key <? k)%Z) ks) as Hidx.
    set (i := default (length ks) (findIndex (fun k => (key <? k)%Z) ks)) in *.
    destruct (cs !! i) as [c|] eqn:Ec.
    2:{ apply lookup_ge_None in Ec. lia. }
    simpl. rewrite (proj1 (Forall_lookup _ _) IH i c Ec (pred h) key); [lia|].
    by eapply (proj1 (Forall_lookup _ _) Hall).
Qed.

(** X1.  A key is found by [search] in the tree built by a sequence of
    inserts exactly when it is one of the inserted keys. *)
Theorem search_finds_exactly_the_inserted_keys (ks : list Z) (key : Z) :
  exists t, insertAll ks = Ok t /\ ((search t key).2 = true <-> key ∈ ks).
Proof.
  destruct (insertAll_keysOrdered ks) as (t & Ht & Hsh & [Hwk Hsorted] & Hperm).
  exists t. split; [done|]. rewrite <-Hperm. destruct t as [root|]; simpl.
  - by apply searchRecursive_found.
  - split; [done|by intros ?%elem_of_nil].
Qed.

(** X2.  Read from left to right, the leaves of the tree built by a sequence
    of inserts hold the inserted keys, each as often as it was inserted, in
    ascending order. *)
Theorem leaves_hold_the_keys_in_order (ks : list Z) :
  exists t, insertAll ks = Ok t /\ treeKeys t ≡ₚ ks /\ StronglySorted Z.le (treeKeys t).
Proof.
  destruct (insertAll_keysOrdered ks) as (t & Ht & Hsh & [Hwk Hsorted] & Hperm).
  by exists t.
Qed.

(** X3.  In the tree built by a sequence of inserts every key of an internal
    node is the first (hence least) leaf key of the subtree to its right. *)
Theorem separators_are_first_keys_to_the_right (ks : list Z) :
  exists t, insertAll ks = Ok t /\ wellKeyedOpt t = true.
Proof.
  destruct (insertAll_keysOrdered ks) as (t & Ht & Hsh & [Hwk Hsorted] & Hperm).
  by exists t.
Qed.

(** X4.  [search] visits one node per level: the path it highlights is as
    long as the tree is deep. *)
Theorem search_path_is_as_long_as_the_tree_is_deep (ks : list Z) (key : Z) :
  exists t, insertAll ks = Ok t /\
    getTreeDepth t = Num (Z.of_nat (length (search t key).1)).
Proof.
  destruct (insertAll_shaped ks) as (t & Ht & Hsh). exists t. split; [done|].
  destruct t as [root|]; [|done]. destruct Hsh as [h Hsh]. simpl.
  by rewrite (searchRecursive_path _ h), (shaped_nodeDepth _ h).
Qed.

Lemma allNodes_unfold p node :
  allNodes p node = p node && forallb (allNodes p) (children node).
Proof. by destruct node. Qed.

Lemma insertRecursive_filled node : forall h key,
  shaped h node = true ->
  forallb (allNodes halfFull) (children node) = true ->
  exists node' res,
    insertRecursive node key = Ok (node', res) /\
    ((res = noSplit /\ isLeaf node' = isLeaf node /\
      length (keys node) <= length (keys node') /\
      (isLeaf node = true -> 1 <= length (keys node')) /\
      forallb (allNodes halfFull) (children node') = true) \/
     (exists n pk, isSplit res n pk /\
        allNodes halfFull node' = true /\ allNodes halfFull n = true)).
Proof.
  induction node as [ks cs lf IH] using BPlusNode_rect_nested.
  intros h key Hsh Hfill. destruct lf.
  - apply shaped_leaf in Hsh as (Hks & -> & ->).
    rewrite insertRecursive_leaf. cbv zeta.
    pose proof (length_js_sort numeric (ks ++ [key])) as Hlen.
    rewrite length_app in Hlen. simpl in Hlen.
    set (newKeys := js_sort numeric (ks ++ [key])) in *.
    unfold MAX_KEYS in *.
    destruct (length newKeys <=? 3) eqn:E.
    + eexists _, _. split; [done|]. left. simpl. split_and!; try done; lia.
    + apply Nat.leb_gt in E.
      assert (length newKeys = 4) as H4 by lia. rewrite H4.
      change ((4 + 1) / 2) with 2.
      destruct (drop 2 newKeys !! 0) as [pk|] eqn:Epk.
      2:{ apply lookup_ge_None in Epk. rewrite length_drop in Epk. lia. }
      eexists _, _. split; [done|]. right. eexists _, _. split; [done|].
      unfold createLeafNode, halfFull. simpl.
      rewrite length_take, length_drop, H4. done.
  - apply shaped_internal in Hsh as (Hks & Hcs & Hh & Hall).
    simpl in Hfill. apply forallb_Forall in Hfill.
    rewrite insertRecursive_internal. cbv zeta.
    pose proof (findIndex_default_le (fun k => (key <? k)%Z) ks) as Hidx.
    set (i := default (length ks) (findIndex (fun k => (key <? k)%Z) ks)) in *.
    rewrite lookup_map.
    destruct (cs !! i) as [c|] eqn:Ec.
    2:{ apply lookup_ge_None in Ec. lia. }
    simpl.
    pose proof (proj1 (Forall_lookup _ _) Hfill i c Ec) as Hc. simpl in Hc.
    rewrite allNodes_unfold in Hc. apply andb_true_iff in Hc as [Hhalf Hcc].
    destruct (proj1 (Forall_lookup _ _) IH i c Ec (pred h) key)
      as (c' & res & -> & Hres); [by eapply (proj1 (Forall_lookup _ _) Hall)|done|].
    simpl.
    assert (allNodes halfFull c' = true /\
            (res = noSplit \/ exists n pk, isSplit res n pk /\ allNodes halfFull n = true))
      as [Hc' Hres'].
    { destruct Hres as [(-> & Hlf & Hlen & _ & Hch) | (n & pk & Hs & Hc' & Hn)].
      - split; [|by left]. rewrite allNodes_unfold, Hch, andb_true_r.
        unfold halfFull in *. rewrite Hlf.
        destruct (isLeaf c); apply Nat.leb_le; apply Nat.leb_le in Hhalf; lia.
      - split; [done|]. right. eauto. }
    assert (Forall (fun c => allNodes halfFull c = true) (<[i:=c']> cs)) as Hfill'.
    { by apply Forall_insert. }
    destruct Hres' as [-> | (n & pk & Hs & Hn)];
      [|unfold isSplit in Hs; subst res]; simpl.
    + eexists _, _. split; [done|]. left. simpl.
      split_and!; try done. by apply forallb_Forall.
    + pose proof (length_splice_insert i pk ks) as HlenK.
      pose proof (Forall_splice_insert _ (i + 1) n _ Hn Hfill') as HfillC.
      unfold MAX_KEYS in *.
      destruct (length (splice_insert i pk ks) <=? 3) eqn:E.
      * eexists _, _. split; [done|]. left. simpl.
        split_and!; [done|done|lia|done|by apply forallb_Forall].
      * apply Nat.leb_gt in E.
        assert (length (splice_insert i pk ks) = 4) as H4 by lia. rewrite H4.
        change (fst (Nat.divmod 4 1 0 1)) with 2. change (2 + 1) with 3.
        destruct (splice_insert i pk ks !! 2) as [pk'|] eqn:Epk.
        2:{ apply lookup_ge_None in Epk. lia. }
        eexists _, _. split; [done|]. right. eexists _, _. split; [done|].
        unfold createInternalNode. rewrite !allNodes_unfold. unfold halfFull. simpl.
        rewrite length_take, length_drop, H4. simpl. split.
        -- apply forallb_Forall. by apply Forall_take.
        -- apply forallb_Forall. by apply Forall_drop.
Qed.

Lemma insert_rootFilled t key :
  treeShaped t -> rootFilled t = true ->
  exists root', insert t key = Ok (Some root') /\ rootFilled (Some root') = true.
Proof.
  intros Hsh Hfill. destruct t as [root|]; simpl.
  - destruct Hsh as [h Hsh]. rewrite cloneNode_id.
    unfold rootFilled in Hfill. apply andb_true_iff in Hfill as [Hroot Hfill].
    apply Nat.leb_le in Hroot.
    destruct (insertRecursive_filled root h key Hsh Hfill)
      as (root' & res & -> & [(-> & Hlf & Hlen & _ & Hch) | (n & pk & Hs & Hc' & Hn)]).
    + simpl. eexists. split; [done|]. rewrite Hch, andb_true_r.
      destruct (keys root'); [simpl in Hlen; lia|done].
    + unfold isSplit in Hs. subst res. simpl. eexists. split; [done|].
      simpl. by rewrite Hc', Hn.
  - by eexists.
Qed.

Lemma insertAll_rootFilled ks :
  exists t, insertAll ks = Ok t /\ treeShaped t /\ rootFilled t = true.
Proof.
  induction ks as [|k ks IH] using rev_ind.
  - by exists None.
  - destruct IH as (t & Ht & Hsh & Hfill). rewrite insertAll_snoc, Ht. simpl.
    destruct (insert_shaped t k Hsh) as (root1 & Hins1 & Hsh1).
    destruct (insert_rootFilled t k Hsh Hfill) as (root' & Hins & Hfill').
    rewrite Hins in Hins1. injection Hins1 as <-. rewrite Hins. eauto.
Qed.

(** Counting leaves and keys. *)
Lemma foldl_add_sum {A} (f : A -> nat) l a :
  foldl (fun sum x => sum + f x) a l = a + sum_list_with f l.
Proof.
  revert a. induction l as [|x l IH]; intros a; simpl; [lia|]. rewrite IH. lia.
Qed.

Lemma leafCount_internal ks cs :
  leafCount (mkNode ks cs false) = sum_list_with leafCount cs.
Proof. simpl. by rewrite foldl_add_sum. Qed.

Lemma length_concat_fmap {A B} (f : A -> list B) l :
  length (concat (f <$> l)) = sum_list_with (fun x => length (f x)) l.
Proof.
  induction l as [|x l IH]; [done|].
  rewrite fmap_cons. cbn [concat sum_list_with]. by rewrite length_app, IH.
Qed.

Lemma sum_list_with_le {A} (f g : A -> nat) l :
  Forall (fun x => f x <= g x) l -> sum_list_with f l <= sum_list_with g l.
Proof. induction 1; simpl; lia. Qed.

Lemma sum_list_with_const {A} (m : nat) (l : list A) :
  sum_list_with (fun _ => m) l = length l * m.
Proof. induction l; simpl; lia. Qed.

Lemma sum_list_with_mul {A} (f : A -> nat) (m : nat) (l : list A) :
  sum_list_with (fun x => m * f x) l = m * sum_list_with f l.
Proof. induction l; simpl; lia. Qed.

Lemma filled_counts node : forall h,
  shaped h node = true -> allNodes halfFull node = true ->
  2 ^ (h - 1) <= leafCount node /\
  2 * leafCount node <= length (leafKeys node) /\
  length (leafKeys node) <= 3 * leafCount node.
Proof.
  induction node as [ks cs lf IH] using BPlusNode_rect_nested.
  intros h Hsh Hfill. rewrite allNodes_unfold in Hfill.
  apply andb_true_iff in Hfill as [Hhalf Hfill]. destruct lf.
  - apply shaped_leaf in Hsh as (Hks & -> & ->). unfold halfFull in Hhalf.
    cbn [isLeaf keys] in Hhalf. apply Nat.leb_le in Hhalf.
    cbn [leafCount leafKeys]. unfold MAX_KEYS in *. change (2 ^ (1 - 1)) with 1. lia.
  - apply shaped_internal in Hsh as (Hks & Hcs & Hh & Hall).
    unfold halfFull in Hhalf. cbn [isLeaf keys children] in Hhalf, Hfill.
    apply Nat.leb_le in Hhalf.
    apply forallb_Forall in Hfill.
    rewrite leafCount_internal, leafKeys_internal, length_concat_fmap.
    assert (Forall (fun c => 2 ^ (h - 2) <= leafCount c /\
                             2 * leafCount c <= length (leafKeys c) /\
                             length (leafKeys c) <= 3 * leafCount c) cs) as Hcs'.
    { apply Forall_forall. intros c Hc. rewrite Forall_forall in IH, Hall, Hfill.
      destruct (IH c Hc (pred h)) as (H1 & H2 & H3); [by apply Hall|by apply Hfill|].
      replace (h - 2) with (pred h - 1) by lia. done. }
    split_and!.
    + transitivity (sum_list_with (fun _ : BPlusNode => 2 ^ (h - 2)) cs).
      * rewrite sum_list_with_const.
        replace (h - 1) with (S (h - 2)) by lia. rewrite Nat.pow_succ_r'. nia.
      * apply sum_list_with_le. eapply Forall_impl; [exact Hcs'|]. simpl. tauto.
    + rewrite <-sum_list_with_mul. apply sum_list_with_le.
      eapply Forall_impl; [exact Hcs'|]. simpl. tauto.
    + rewrite <-sum_list_with_mul. apply sum_list_with_le.
      eapply Forall_impl; [exact Hcs'|]. simpl. tauto.
Qed.

(** X5.  In the tree built by a sequence of inserts every node below the root
    is at least half full (a leaf holds at least two keys, an internal node
    at least one), and the root holds a key. *)
Theorem nodes_below_the_root_are_half_full (ks : list Z) :
  exists t, insertAll ks = Ok t /\ rootFilled t = true.
Proof. destruct (insertAll_rootFilled ks) as (t & Ht & _ & Hfill). eauto. Qed.

(** X6.  The tree stays shallow and its leaves well used: with [n] keys
    inserted and [countLeaves] leaves, [n] is at most three times the number
    of leaves; and once the tree has [h >= 2] levels, [n] is at least twice
    the number of leaves and at least [2 ^ h]. *)
Theorem depth_is_logarithmic_in_the_number_of_keys (ks : list Z) :
  exists t h, insertAll ks = Ok t /\ getTreeDepth t = Num (Z.of_nat h) /\
    length ks <= 3 * countLeaves t /\
    (2 <= h -> 2 * countLeaves t <= length ks /\ 2 ^ h <= length ks).
Proof.
  destruct (insertAll_keysOrdered ks) as (t & Ht & Hsh & _ & Hperm).
  destruct (insertAll_rootFilled ks) as (t' & Ht' & _ & Hfill).
  rewrite Ht in Ht'. injection Ht' as <-.
  apply Permutation_length in Hperm. rewrite <-Hperm.
  destruct t as [root|]; [|exists None, 0; split_and!; try done; simpl; lia].
  destruct Hsh as [h Hsh]. exists (Some root), h.
  split; [done|]. split; [by apply shaped_nodeDepth|].
  destruct root as [ks0 cs lf]. destruct lf.
  - apply shaped_leaf in Hsh as (Hks & -> & ->). unfold MAX_KEYS in Hks.
    cbn [countLeaves leafCount treeKeys leafKeys]. lia.
  - apply shaped_internal in Hsh as (Hks & Hcs & Hh & Hall).
    unfold rootFilled in Hfill. cbn [keys children] in Hfill.
    apply andb_true_iff in Hfill as [Hroot Hfill].
    apply Nat.leb_le in Hroot. apply forallb_Forall in Hfill.
    cbn [countLeaves treeKeys].
    rewrite leafCount_internal, leafKeys_internal, length_concat_fmap.
    assert (Forall (fun c => 2 ^ (h - 2) <= leafCount c /\
                             2 * leafCount c <= length (leafKeys c) /\
                             length (leafKeys c) <= 3 * leafCount c) cs) as Hcs'.
    { apply Forall_forall. intros c Hc. rewrite Forall_forall in Hall, Hfill.
      destruct (filled_counts c (pred h)) as (H1 & H2 & H3);
        [by apply Hall|by apply Hfill|].
      replace (h - 2) with (pred h - 1) by lia. done. }
    assert (sum_list_with (fun c => length (leafKeys c)) cs
            <= 3 * sum_list_with leafCount cs) as H3.
    { rewrite <-sum_list_with_mul. apply sum_list_with_le.
      eapply Forall_impl; [exact Hcs'|]. simpl. tauto. }
    assert (2 * sum_list_with leafCount cs
            <= sum_list_with (fun c => length (leafKeys c)) cs) as H2.
    { rewrite <-sum_list_with_mul. apply sum_list_with_le.
      eapply Forall_impl; [exact Hcs'|]. simpl. tauto. }
    assert (2 ^ (h - 1) <= sum_list_with leafCount cs) as H1.
    { transitivity (sum_list_with (fun _ : BPlusNode => 2 ^ (h - 2)) cs).
      - rewrite sum_list_with_const.
        replace (h - 1) with (S (h - 2)) by lia. rewrite Nat.pow_succ_r'. nia.
      - apply sum_list_with_le. eapply Forall_impl; [exact Hcs'|]. simpl. tauto. }
    split; [done|]. intros _. split; [done|].
    replace h with (S (h - 1)) at 1 by lia. rewrite Nat.pow_succ_r'. lia.
Qed.

End BPlusTree.

(** ** The B+ tree widget, earlier revision updating nodes in place *)

Module BPlusTreeMut.
Import BPlusTree.

(** This revision keeps the node objects of the previous tree and assigns to
    their fields, so the objects and the references between them are
    explicit here: a heap of node objects, a reference being an index into
    it.  Arrays ([keys], [children]) are only ever replaced as a whole,
    never written in place, and are kept as values in the node. *)
Definition ref : Type := nat.

(** [interface BPlusNode] ([id] left out as above); [children] and [next]
    hold references. *)
Record BPlusNode : Type := mkNode
  { keys : list Z; children : list ref; isLeaf : bool; next : option ref }.

Abbreviation Heap := (list BPlusNode).

(** Computations on the heap that may throw or run out of fuel. *)
Definition M (A : Type) : Type := Heap -> Outcome (A * Heap).

#[global] Instance M_ret : MRet M := fun A a h => Ok (a, h).
#[global] Instance M_bind : MBind M := fun A B f m h =>
  match m h with
  | Ok (a, h') => f a h'
  | TypeError => TypeError
  | OutOfFuel => OutOfFuel
  end.

(** A new object; reading and assigning fields of an object. *)
Definition alloc (o : BPlusNode) : M ref := fun h => Ok (length h, h ++ [o]).

Definition load (r : ref) : M BPlusNode := fun h =>
  match h !! r with
  | Some o => Ok (o, h)
  | None => TypeError
  end.

Definition modify (r : ref) (f : BPlusNode -> BPlusNode) : M unit := fun h =>
  match h !! r with
  | Some o => Ok (tt, <[r := f o]> h)
  | None => TypeError
  end.

Definition throw {A} : M A := fun _ => TypeError.
Definition outOfFuel {A} : M A := fun _ => OutOfFuel.

Definition set_keys (ks : list Z) (o : BPlusNode) : BPlusNode :=
  {| keys := ks; children := children o; isLeaf := isLeaf o; next := next o |}.
Definition set_children (cs : list ref) (o : BPlusNode) : BPlusNode :=
  {| keys := keys o; children := cs; isLeaf := isLeaf o; next := next o |}.
Definition set_next (nx : option ref) (o : BPlusNode) : BPlusNode :=
  {| keys := keys o; children := children o; isLeaf := isLeaf o; next := nx |}.

Definition MAX_KEYS : nat := 3.

Definition createLeafNode (ks : list Z) : BPlusNode :=
  {| keys := ks; children := []; isLeaf := true; next := None |}.

Definition createInternalNode (ks : list Z) (cs : list ref) : BPlusNode :=
  {| keys := ks; children := cs; isLeaf := false; next := None |}.

Record InsertResult : Type :=
  { newNode : option ref; promotedKey : option Z }.

Definition noSplit : InsertResult := {| newNode := None; promotedKey := None |}.

(** [insertRecursive(node, key)], statement by statement.  The recursion
    follows references through the heap, hence the fuel. *)
Fixpoint insertRecursive (fuel : nat) (node : ref) (key : Z) : M InsertResult :=
  match fuel with
  | 0 => outOfFuel
  | S fuel =>
      n ← load node;
      if isLeaf n then
        let newKeys := js_sort numeric (keys n ++ [key]) in
        if length newKeys <=? MAX_KEYS then
          modify node (set_keys newKeys);;
          mret noSplit
        else
          let mid := (length newKeys + 1) / 2 in
          let leftKeys := take mid newKeys in
          let rightKeys := drop mid newKeys in
          modify node (set_keys leftKeys);;
          newLeaf ← alloc (createLeafNode rightKeys);
          n ← load node;
          modify newLeaf (set_next (next n));;
          modify node (set_next (Some newLeaf));;
          mret {| newNode := Some newLeaf; promotedKey := rightKeys !! 0 |}
      else
        let childIndex :=
          default (length (keys n)) (findIndex (fun k => (key <? k)%Z) (keys n)) in
        match children n !! childIndex with
        | None => throw
        | Some child =>
            result ← insertRecursive fuel child key;
            match newNode result, promotedKey result with
            | Some new_node, Some promoted =>
                n ← load node;
                let newKeys := splice_insert childIndex promoted (keys n) in
                let newChildren := splice_insert (childIndex + 1) new_node (children n) in
                if length newKeys <=? MAX_KEYS then
                  modify node (set_keys newKeys);;
                  modify node (set_children newChildren);;
                  mret noSplit
                else
                  let mid := length newKeys / 2 in
                  let leftKeys := take mid newKeys in
                  let rightKeys := drop (mid + 1) newKeys in
                  modify node (set_keys leftKeys);;
                  modify node (set_children (take (mid + 1) newChildren));;
                  newInternal ←
                    alloc (createInternalNode rightKeys (drop (mid + 1) newChildren));
                  mret {| newNode := Some newInternal; promotedKey := newKeys !! mid |}
            | _, _ => mret noSplit
            end
        end
  end.

(** [insert(key)].  [root] is the root of the render in which the closure was
    made; the result is the argument of [setRoot].  Without a new root the
    state is set to a shallow copy [{ ...root }] of the root object. *)
Definition insert (fuel : nat) (root : option ref) (key : Z) : M (option ref) :=
  match root with
  | None =>
      r ← alloc (createLeafNode [key]);
      mret (Some r)
  | Some root =>
      result ← insertRecursive fuel root key;
      match newNode result, promotedKey result with
      | Some new_node, Some promoted =>
          newRoot ← alloc (createInternalNode [promoted] [root; new_node]);
          mret (Some newRoot)
      | _, _ =>
          o ← load root;
          copy ← alloc o;
          mret (Some copy)
      end
  end.

(** A sequence of inserts from the empty tree, each made by the closure of
    the render that follows the previous insert, as the form handler makes
    them: the root it reads is the one the previous insert set.  (The timers
    of the sample-data button of this revision all hold the closure of the
    render of the click instead; that is not this function.) *)
Definition insertAll (fuel : nat) (ks : list Z) : Outcome (option ref * Heap) :=
  foldl (fun acc k => '(root, h) ← acc; insert fuel root k h) (Ok (None, [])) ks.

(** The tree a reference stands for, read from the heap. *)
Fixpoint treeOf (fuel : nat) (h : Heap) (r : ref) : option BPlusTree.BPlusNode :=
  match fuel with
  | 0 => None
  | S fuel =>
      o ← h !! r;
      cs ← mapM (treeOf fuel h) (children o);
      Some (BPlusTree.mkNode (keys o) cs (isLeaf o))
  end.

Definition treeOfRoot (fuel : nat) (st : option ref * Heap)
  : option (option BPlusTree.BPlusNode) :=
  match st.1 with
  | None => Some None
  | Some r => Some <$> treeOf fuel st.2 r
  end.

(** [searchRecursive(node)] of this revision, on a node object: the objects
    whose ids it pushes on [path] and the boolean it returns.  It reads the
    heap and writes nothing. *)
Fixpoint searchRecursive (fuel : nat) (h : Heap) (node : ref) (key : Z)
  : Outcome (list ref * bool) :=
  match fuel with
  | 0 => OutOfFuel
  | S fuel =>
      match h !! node with
      | None => TypeError
      | Some n =>
          if isLeaf n then Ok ([node], existsb (Z.eqb key) (keys n))
          else
            let childIndex :=
              default (length (keys n)) (findIndex (fun k => (key <? k)%Z) (keys n)) in
            match children n !! childIndex with
            | None => Ok ([node], false)
            | Some child =>
                '(path, found) ← searchRecursive fuel h child key;
                Ok (node :: path, found)
            end
      end
  end.

(** [search(key)] by the closure of a render whose root is [root]. *)
Definition search (fuel : nat) (root : option ref) (h : Heap) (key : Z)
  : Outcome (list ref * bool) :=
  match root with
  | None => Ok ([], false)
  | Some r => searchRecursive fuel h r key
  end.

(** *** Trees laid out in the heap *)

(** A tree whose nodes carry the reference of the object they live in: its
    [erase]d form is the tree value, [locs] the objects it occupies, and
    [stored h t] says that the heap holds it. *)
Inductive LTree : Type := LNode (r : ref) (ks : list Z) (cs : list LTree) (lf : bool).

Definition lroot (t : LTree) : ref := match t with LNode r _ _ _ => r end.

Fixpoint erase (t : LTree) : BPlusTree.BPlusNode :=
  match t with
  | LNode _ ks cs lf => BPlusTree.mkNode ks (List.map erase cs) lf
  end.

Fixpoint locs (t : LTree) : list ref :=
  match t with
  | LNode r _ cs _ => r :: concat (List.map locs cs)
  end.

Definition locsL (cs : list LTree) : list ref := concat (List.map locs cs).

Inductive stored (h : Heap) : LTree -> Prop :=
| stored_node r ks cs lf nx :
    h !! r = Some {| keys := ks; children := List.map lroot cs; isLeaf := lf; next := nx |} ->
    Forall (stored h) cs ->
    stored h (LNode r ks cs lf).

(** The objects [L] of a result tree are pairwise distinct, and each is an
    object of the tree before ([old]) or was allocated since. *)
Definition freshFrom (h : Heap) (old : list ref) (L : list ref) : Prop :=
  NoDup L /\ forall r, r ∈ L -> r ∈ old \/ length h <= r.

(** One call of [insertRecursive] on a tree laid out in the heap does to the
    heap what the functional revision computes on the tree value, and
    touches no object outside the tree. *)
Definition simulates (t : LTree) (h : Heap) (fuel : nat) (key : Z) : Prop :=
  exists node' res res' h' t',
    BPlusTree.insertRecursive (erase t) key = Ok (node', res) /\
    insertRecursive fuel (lroot t) key h = Ok (res', h') /\
    stored h' t' /\ lroot t' = lroot t /\ erase t' = node' /\
    length h <= length h' /\
    (forall r, r < length h -> r ∉ locs t -> h' !! r = h !! r) /\
    ((res = BPlusTree.noSplit /\ res' = noSplit /\ freshFrom h (locs t) (locs t')) \/
     (exists tn pk,
        res = {| BPlusTree.newNode := Some (erase tn); BPlusTree.promotedKey := Some pk |} /\
        res' = {| newNode := Some (lroot tn); promotedKey := Some pk |} /\
        stored h' tn /\
        freshFrom h (locs t) (locs t' ++ locs tn))).

(** The root reference and heap of the in-place revision represent the tree
    value [t] of the functional revision; the height is at most [n]. *)
Definition represents (n : nat) (root : option ref) (h : Heap)
    (t : option BPlusTree.BPlusNode) : Prop :=
  match root, t with
  | None, None => True
  | Some r, Some tree =>
      exists lt hgt,
        stored h lt /\ lroot lt = r /\ erase lt = tree /\ NoDup (locs lt) /\
        shaped hgt tree = true /\ hgt <= n
  | _, _ => False
  end.

(** *** The chain of the leaves *)

(** The leaf objects below a node, left to right, in the order in which
    [renderTree] walks the [children] arrays. *)
Fixpoint leavesOf (fuel : nat) (h : Heap) (r : ref) : option (list ref) :=
  match fuel with
  | 0 => None
  | S fuel =>
      o ← h !! r;
      if isLeaf o then Some [r]
      else
        ls ← mapM (leavesOf fuel h) (children o);
        Some (concat ls)
  end.

Definition leavesOfRoot (fuel : nat) (st : option ref * Heap) : option (list ref) :=
  match st.1 with
  | None => Some []
  | Some r => leavesOf fuel st.2 r
  end.

(** [node.next] of the object at [r]: [None] if there is no such object,
    [Some None] for [null]. *)
Definition nextOf (h : Heap) (r : ref) : option (option ref) := next <$> h !! r.

(** The objects [rs] form a chain: the [next] of each is the one after it
    in [rs], that of the last one is [e]. *)
Fixpoint linked (h : Heap) (rs : list ref) (e : option ref) : Prop :=
  match rs with
  | [] => True
  | r :: rs' =>
      nextOf h r = Some (match rs' with [] => e | r' :: _ => Some r' end) /\
      linked h rs' e
  end.

(** The keys read off the objects [rs], one after the other. *)
Definition keysAlong (h : Heap) (rs : list ref) : list Z :=
  concat (List.map (fun r => from_option keys [] (h !! r)) rs).

(** The leaves of a tree laid out in the heap, left to right. *)
Fixpoint leafRefs (t : LTree) : list ref :=
  match t with
  | LNode r _ cs lf => if lf then [r] else concat (List.map leafRefs cs)
  end.

Definition leafRefsL (cs : list LTree) : list ref := concat (List.map leafRefs cs).

(** What one call of [insertRecursive] on the heap [h] does to the leaves
    [old] of the tree and to the [next] fields: nothing, or one leaf [l] gets
    the new object [length h] as its right neighbour, which takes over the
    [next] of [l]. *)
Definition leafEffect (h h' : Heap) (old new : list ref) : Prop :=
  (new = old /\ forall r, r < length h -> nextOf h' r = nextOf h r) \/
  (exists A l B,
     old = A ++ l :: B /\ new = A ++ l :: length h :: B /\ l < length h /\
     nextOf h' l = Some (Some (length h)) /\
     nextOf h' (length h) = nextOf h l /\
     forall r, r < length h -> r <> l -> nextOf h' r = nextOf h r).

(** [simulates], together with the effect on the leaves. *)
Definition simulatesL (t : LTree) (h : Heap) (fuel : nat) (key : Z) : Prop :=
  exists node' res res' h' t',
    BPlusTree.insertRecursive (erase t) key = Ok (node', res) /\
    insertRecursive fuel (lroot t) key h = Ok (res', h') /\
    stored h' t' /\ lroot t' = lroot t /\ erase t' = node' /\
    length h <= length h' /\
    (forall r, r < length h -> r ∉ locs t -> h' !! r = h !! r) /\
    ((res = BPlusTree.noSplit /\ res' = noSplit /\ freshFrom h (locs t) (locs t') /\
      leafEffect h h' (leafRefs t) (leafRefs t')) \/
     (exists tn pk,
        res = {| BPlusTree.newNode := Some (erase tn); BPlusTree.promotedKey := Some pk |} /\
        res' = {| newNode := Some (lroot tn); promotedKey := Some pk |} /\
        stored h' tn /\
        freshFrom h (locs t) (locs t' ++ locs tn) /\
        leafEffect h h' (leafRefs t) (leafRefs t' ++ leafRefs tn))).

(** [represents], with the leaves chained from left to right and the
    [next] of the last one [null]. *)
Definition representsL (n : nat) (root : option ref) (h : Heap)
    (t : option BPlusTree.BPlusNode) : Prop :=
  match root, t with
  | None, None => True
  | Some r, Some tree =>
      exists lt hgt,
        stored h lt /\ lroot lt = r /\ erase lt = tree /\ NoDup (locs lt) /\
        shaped hgt tree = true /\ hgt <= n /\ linked h (leafRefs lt) None
  | _, _ => False
  end.

Section ltree_induction.
Variable P : LTree -> Prop.
Hypothesis step : forall r ks cs lf, Forall P cs -> P (LNode r ks cs lf).

Fixpoint LTree_ind_nested (t : LTree) : P t :=
  match t with
  | LNode r ks cs lf =>
      step r ks cs lf
        ((fix go (l : list LTree) : Forall P l :=
            match l with
            | [] => @List.Forall_nil _ P
            | c :: l0 => @List.Forall_cons _ P c l0 (LTree_ind_nested c) (go l0)
            end) cs)
  end.
End ltree_induction.

Lemma locsL_app A B : locsL (A ++ B) = locsL A ++ locsL B.
Proof. unfold locsL. by rewrite map_app, concat_app. Qed.

Lemma locsL_cons c B : locsL (c :: B) = locs c ++ locsL B.
Proof. done. Qed.

Lemma stored_inv h r ks cs lf :
  stored h (LNode r ks cs lf) ->
  (exists nx, h !! r = Some {| keys := ks; children := List.map lroot cs; isLeaf := lf; next := nx |})
  /\ Forall (stored h) cs.
Proof. inversion 1; subst; eauto. Qed.

Lemma elem_of_locsL r cs : r ∈ locsL cs <-> exists c, c ∈ cs /\ r ∈ locs c.
Proof.
  induction cs as [|c cs IH].
  - split; [by intros ?%elem_of_nil|by intros (c & ?%elem_of_nil & _)].
  - rewrite locsL_cons, elem_of_app, IH. split.
    + intros [H|(c' & ? & ?)]; [exists c|exists c']; split; try done.
      * by left.
      * by right.
    + intros (c' & [->|H]%elem_of_cons & ?); eauto.
Qed.

Lemma stored_bound h t : stored h t -> forall r, r ∈ locs t -> r < length h.
Proof.
  induction t as [r ks cs lf IH] using LTree_ind_nested.
  intros Hst r' Hr'. apply stored_inv in Hst as [[nx Hr] Hcs].
  simpl in Hr'. apply elem_of_cons in Hr' as [->|Hr'].
  - by eapply lookup_lt_Some.
  - apply elem_of_locsL in Hr' as (c & Hc & Hr').
    rewrite Forall_forall in IH, Hcs. eauto.
Qed.

Lemma stored_frame h h' t :
  stored h t -> (forall r, r ∈ locs t -> h' !! r = h !! r) -> stored h' t.
Proof.
  induction t as [r ks cs lf IH] using LTree_ind_nested.
  intros Hst Heq. apply stored_inv in Hst as [[nx Hr] Hcs].
  econstructor.
  - rewrite Heq; [done|]. simpl. apply elem_of_cons. by left.
  - rewrite Forall_forall in IH, Hcs. apply Forall_forall. intros c Hc.
    apply IH; [done|by apply Hcs|]. intros r' Hr'. apply Heq. simpl.
    apply elem_of_cons. right. apply elem_of_locsL. eauto.
Qed.



Lemma run_bind {A B} (m : M A) (f : A -> M B) h a h' :
  m h = Ok (a, h') -> (m ≫= f) h = f a h'.
Proof. unfold mbind, M_bind. by intros ->. Qed.

Lemma run_load h r o : h !! r = Some o -> load r h = Ok (o, h).
Proof. unfold load. by intros ->. Qed.

Lemma run_modify h r f o : h !! r = Some o -> modify r f h = Ok (tt, <[r := f o]> h).
Proof. unfold modify. by intros ->. Qed.

Lemma insertRecursive_S fuel node key :
  insertRecursive (S fuel) node key =
  (n ← load node;
   if isLeaf n then
     let newKeys := js_sort numeric (keys n ++ [key]) in
     if length newKeys <=? MAX_KEYS then
       modify node (set_keys newKeys);;
       mret noSplit
     else
       let mid := (length newKeys + 1) / 2 in
       let leftKeys := take mid newKeys in
       let rightKeys := drop mid newKeys in
       modify node (set_keys leftKeys);;
       newLeaf ← alloc (createLeafNode rightKeys);
       n ← load node;
       modify newLeaf (set_next (next n));;
       modify node (set_next (Some newLeaf));;
       mret {| newNode := Some newLeaf; promotedKey := rightKeys !! 0 |}
   else
     let childIndex :=
       default (length (keys n)) (findIndex (fun k => (key <? k)%Z) (keys n)) in
     match children n !! childIndex with
     | None => throw
     | Some child =>
         result ← insertRecursive fuel child key;
         match newNode result, promotedKey result with
         | Some new_node, Some promoted =>
             n ← load node;
             let newKeys := splice_insert childIndex promoted (keys n) in
             let newChildren := splice_insert (childIndex + 1) new_node (children n) in
             if length newKeys <=? MAX_KEYS then
               modify node (set_keys newKeys);;
               modify node (set_children newChildren);;
               mret noSplit
             else
               let mid := length newKeys / 2 in
               let leftKeys := take mid newKeys in
               let rightKeys := drop (mid + 1) newKeys in
               modify node (set_keys leftKeys);;
               modify node (set_children (take (mid + 1) newChildren));;
               newInternal ←
                 alloc (createInternalNode rightKeys (drop (mid + 1) newChildren));
               mret {| newNode := Some newInternal; promotedKey := newKeys !! mid |}
         | _, _ => mret noSplit
         end
     end).
Proof. reflexivity. Qed.

Lemma sim_leaf r ks cs h fuel key :
  stored h (LNode r ks cs true) -> shaped 1 (erase (LNode r ks cs true)) = true ->
  simulates (LNode r ks cs true) h (S fuel) key.
Proof.
  intros Hst Hsh. apply stored_inv in Hst as [[nx Hr] _].
  cbn [erase] in Hsh. apply shaped_leaf in Hsh as (Hks & _ & Hnil).
  destruct cs; [|done]. clear Hnil.
  pose proof (lookup_lt_Some _ _ _ Hr) as Hrlt.
  unfold simulates. cbn [erase lroot List.map].
  rewrite insertRecursive_leaf, insertRecursive_S. cbv zeta.
  erewrite run_bind by (by apply run_load). cbn [isLeaf keys].
  pose proof (length_js_sort numeric (ks ++ [key])) as Hlen.
  rewrite length_app in Hlen. simpl in Hlen.
  set (newKeys := js_sort numeric (ks ++ [key])) in *.
  change BPlusTree.MAX_KEYS with 3 in *. change MAX_KEYS with 3.
  destruct (length newKeys <=? 3) eqn:E.
  - erewrite run_bind by (by apply run_modify).
    eexists _, _, _, _, (LNode r newKeys [] true).
    split; [done|]. split; [done|].
    split_and!; [ | done | done | by rewrite length_insert | | ].
    + econstructor; [|constructor]. by rewrite list_lookup_insert_eq.
    + intros r' _ Hr'. apply list_lookup_insert_ne. simpl in Hr'.
      intros ->. apply Hr'. by left.
    + left. split_and!; [done|done|]. split; simpl.
      * apply NoDup_singleton.
      * intros r' Hr'. by left.
  - apply Nat.leb_gt in E. assert (length newKeys = 4) as H4 by lia.
    rewrite H4. change ((4 + 1) / 2) with 2.
    destruct (drop 2 newKeys !! 0) as [pk|] eqn:Epk.
    2:{ apply lookup_ge_None in Epk. rewrite length_drop in Epk. lia. }
    erewrite run_bind by (by apply run_modify).
    erewrite run_bind by reflexivity.
    rewrite length_insert.
    set (o1 := set_keys (take 2 newKeys)
                 {| keys := ks; children := []; isLeaf := true; next := nx |}).
    set (h1 := <[r:=o1]> h ++ [createLeafNode (drop 2 newKeys)]).
    assert (h1 !! r = Some o1) as Hr1.
    { unfold h1. rewrite lookup_app_l by (by rewrite length_insert).
      by rewrite list_lookup_insert_eq. }
    assert (h1 !! length h = Some (createLeafNode (drop 2 newKeys))) as Hn1.
    { unfold h1. rewrite lookup_app_r by (by rewrite length_insert).
      by rewrite length_insert, Nat.sub_diag. }
    erewrite run_bind by (by apply run_load).
    erewrite run_bind by (by apply run_modify).
    erewrite run_bind.
    2:{ apply run_modify. rewrite list_lookup_insert_ne by lia. done. }
    eexists _, _, _, _, (LNode r (take 2 newKeys) [] true).
    split; [done|]. split; [done|].
    split_and!; [ | done | done | | | ].
    + econstructor; [|constructor].
      rewrite list_lookup_insert_eq; [done|].
      rewrite length_insert. by eapply lookup_lt_Some.
    + rewrite !length_insert. unfold h1. rewrite length_app, length_insert. lia.
    + intros r' Hlt Hr'. simpl in Hr'.
      assert (r' <> r) by (intros ->; apply Hr'; by left).
      rewrite !list_lookup_insert_ne by lia.
      unfold h1. rewrite lookup_app_l by (by rewrite length_insert).
      by rewrite list_lookup_insert_ne.
    + right. exists (LNode (length h) (drop 2 newKeys) [] true), pk.
      split_and!; [done|done| |].
      * econstructor; [|constructor].
        rewrite list_lookup_insert_ne by lia.
        rewrite list_lookup_insert_eq by (by eapply lookup_lt_Some). done.
      * split; simpl.
        -- apply NoDup_cons. split; [|apply NoDup_singleton].
           intros ?%list_elem_of_singleton. lia.
        -- intros r' [->|[->|[]%elem_of_nil]%elem_of_cons]%elem_of_cons.
           ++ left. by left.
           ++ by right.
Qed.


Lemma map_insert {A B} (f : A -> B) (l : list A) i x :
  List.map f (<[i:=x]> l) = <[i:=f x]> (List.map f l).
Proof. exact (list_fmap_insert f l i x). Qed.

Lemma map_take {A B} (f : A -> B) (l : list A) n :
  List.map f (take n l) = take n (List.map f l).
Proof. exact (fmap_take f n l). Qed.

Lemma map_drop {A B} (f : A -> B) (l : list A) n :
  List.map f (drop n l) = drop n (List.map f l).
Proof. exact (fmap_drop f n l). Qed.

Lemma map_splice_insert {A B} (f : A -> B) (l : list A) i x :
  List.map f (splice_insert i x l) = splice_insert i (f x) (List.map f l).
Proof.
  unfold splice_insert. rewrite map_app. simpl. by rewrite map_take, map_drop.
Qed.

Lemma locsL_lookup cs i c : cs !! i = Some c -> locsL cs ≡ₚ locs c ++ locsL (delete i cs).
Proof.
  revert i. induction cs as [|c0 cs IH]; intros [|i] Hc; simplify_eq/=; [done|].
  rewrite !locsL_cons, (IH i Hc).
  rewrite !(assoc_L (++)). f_equiv. apply Permutation_app_comm.
Qed.

Lemma locsL_insert cs i c' :
  i < length cs -> locsL (<[i:=c']> cs) ≡ₚ locs c' ++ locsL (delete i cs).
Proof.
  revert i. induction cs as [|c0 cs IH]; intros [|i] Hi; simpl in *; try lia; [done|].
  rewrite !locsL_cons, (IH i) by lia.
  rewrite !(assoc_L (++)). f_equiv. apply Permutation_app_comm.
Qed.

Lemma locsL_splice_insert i x l : locsL (splice_insert i x l) ≡ₚ locs x ++ locsL l.
Proof.
  unfold splice_insert. rewrite locsL_app, locsL_cons.
  rewrite <-(take_drop i l) at 3. rewrite locsL_app.
  rewrite !(assoc_L (++)). f_equiv. apply Permutation_app_comm.
Qed.

Lemma locsL_take_drop n l : locsL (take n l) ++ locsL (drop n l) = locsL l.
Proof. by rewrite <-locsL_app, take_drop. Qed.

Lemma fresh_replace (h : Heap) (r : ref) (X X' rest : list ref) :
  NoDup (r :: X ++ rest) ->
  (forall x, x ∈ r :: X ++ rest -> x < length h) ->
  NoDup X' ->
  (forall x, x ∈ X' -> x ∈ X \/ length h <= x) ->
  NoDup (r :: X' ++ rest).
Proof.
  rewrite !NoDup_cons, !NoDup_app.
  intros (Hr & HX & Hdisj & Hrest) Hlt HX' Hfresh.
  split_and!; try done.
  - rewrite elem_of_app. intros [Hx|Hx].
    + destruct (Hfresh _ Hx) as [?|?].
      * apply Hr. apply elem_of_app. by left.
      * assert (r < length h) by (apply Hlt; by left). lia.
    + apply Hr. apply elem_of_app. by right.
  - intros x Hx Hx'. destruct (Hfresh _ Hx) as [?|?].
    + by eapply Hdisj.
    + assert (x < length h); [|lia].
      apply Hlt. right. apply elem_of_app. by right.
Qed.

Lemma siblings_disjoint cs i j c x r :
  NoDup (locsL cs) -> cs !! i = Some c -> cs !! j = Some x -> i <> j ->
  r ∈ locs x -> r ∉ locs c.
Proof.
  intros Hnd Hc Hx Hij Hr Hr'.
  rewrite (locsL_lookup cs i c Hc) in Hnd.
  apply NoDup_app in Hnd as (_ & Hdisj & _).
  apply (Hdisj r Hr'). apply elem_of_locsL. exists x. split; [|done].
  destruct (decide (j < i)).
  - apply list_elem_of_lookup. exists j. by rewrite list_lookup_delete_lt.
  - apply list_elem_of_lookup. exists (pred j).
    rewrite list_lookup_delete_ge by lia. by replace (S (pred j)) with j by lia.
Qed.

Lemma stored_siblings h h1 cs i c c' :
  cs !! i = Some c -> Forall (stored h) cs -> NoDup (locsL cs) ->
  (forall r, r < length h -> r ∉ locs c -> h1 !! r = h !! r) ->
  stored h1 c' -> Forall (stored h1) (<[i:=c']> cs).
Proof.
  intros Hc Hcs Hnd Hframe Hc'. apply Forall_lookup. intros j x Hx.
  destruct (decide (i = j)) as [->|Hij].
  - rewrite list_lookup_insert_eq in Hx by (by eapply lookup_lt_Some). by simplify_eq.
  - rewrite list_lookup_insert_ne in Hx by done.
    pose proof (proj1 (Forall_lookup _ _) Hcs j x Hx) as Hstx.
    eapply stored_frame; [done|]. intros r Hr. apply Hframe.
    + by eapply stored_bound.
    + by eapply siblings_disjoint.
Qed.

Lemma stored_children_frame h1 hf (r : ref) l :
  Forall (stored h1) l ->
  (forall x, x ∈ locsL l -> x < length h1 /\ x <> r) ->
  (forall x, x < length h1 -> x <> r -> hf !! x = h1 !! x) ->
  Forall (stored hf) l.
Proof.
  intros Hst Hb Hfr. rewrite Forall_forall in Hst. apply Forall_forall.
  intros y Hy. eapply stored_frame; [by apply Hst|].
  intros x Hx. destruct (Hb x) as [? ?]; [|by apply Hfr].
  apply elem_of_locsL. eauto.
Qed.

Lemma elem_of_locsL_take n l x : x ∈ locsL (take n l) -> x ∈ locsL l.
Proof. rewrite <-(locsL_take_drop n l), elem_of_app. by left. Qed.

Lemma elem_of_locsL_drop n l x : x ∈ locsL (drop n l) -> x ∈ locsL l.
Proof. rewrite <-(locsL_take_drop n l), elem_of_app. by right. Qed.

Lemma sim_internal r ks cs h hgt fuel key :
  Forall (fun c => forall h hgt fuel key,
            stored h c -> NoDup (locs c) -> shaped hgt (erase c) = true ->
            hgt <= fuel -> simulates c h fuel key) cs ->
  stored h (LNode r ks cs false) -> NoDup (locs (LNode r ks cs false)) ->
  shaped hgt (erase (LNode r ks cs false)) = true -> hgt <= fuel ->
  simulates (LNode r ks cs false) h fuel key.
Proof.
  intros IH Hst Hnd Hsh Hfuel.
  pose proof (stored_bound _ _ Hst) as Hbound.
  apply stored_inv in Hst as [[nx Hr] Hcs].
  cbn [erase] in Hsh. apply shaped_internal in Hsh as (Hks & Hlen & Hh & Hall).
  rewrite length_map in Hlen.
  destruct fuel as [|fuel]; [lia|].
  pose proof (findIndex_default_le (fun k => (key <? k)%Z) ks) as Hidx.
  unfold simulates. cbn [erase lroot].
  rewrite insertRecursive_internal, insertRecursive_S. cbv zeta.
  erewrite run_bind by (by apply run_load). cbn [isLeaf keys children].
  set (i := default (length ks) (findIndex (fun k => (key <? k)%Z) ks)) in *.
  destruct (cs !! i) as [c|] eqn:Ec.
  2:{ apply lookup_ge_None in Ec. lia. }
  rewrite !lookup_map, Ec. cbn [fmap option_fmap option_map].
  assert (c ∈ cs) as Hc_in by (by eapply list_elem_of_lookup_2).
  set (rest := locsL (delete i cs)).
  assert (forall x, x ∈ locs (LNode r ks cs false) <-> x ∈ r :: locs c ++ rest) as Hlocs.
  { intros x. cbn [locs]. fold (locsL cs). by rewrite (locsL_lookup cs i c Ec). }
  assert (NoDup (r :: locs c ++ rest)) as Hnd'.
  { unfold rest. rewrite <-locsL_lookup by done. exact Hnd. }
  assert (forall x, x ∈ r :: locs c ++ rest -> x < length h) as Hbound'.
  { intros x Hx. apply Hbound. by apply Hlocs. }
  assert (NoDup (locsL cs)) as HndL by (by apply NoDup_cons in Hnd as [_ ?]).
  assert (r ∉ locs c) as Hrc.
  { apply NoDup_cons in Hnd' as [Hn _]. intros ?. apply Hn, elem_of_app. by left. }
  assert (r < length h) as Hrlt by (by eapply lookup_lt_Some).
  destruct (proj1 (Forall_forall _ _) IH c Hc_in h (pred hgt) fuel key)
    as (nodec & resc & resc' & h1 & c' & Epure & Eheap & Hstc' & Hrootc' & Herasec'
        & Hlen1 & Hframe & Hcases).
  { by apply (proj1 (Forall_forall _ _) Hcs). }
  { apply NoDup_cons in Hnd' as [_ Hnd']. by apply NoDup_app in Hnd' as (? & _ & _). }
  { rewrite Forall_forall in Hall. apply Hall.
    apply list_elem_of_In, in_map, list_elem_of_In. done. }
  { lia. }
  rewrite Epure. erewrite run_bind by exact Eheap.
  assert (h1 !! r = Some {| keys := ks; children := List.map lroot cs;
                            isLeaf := false; next := nx |}) as Hr1.
  { rewrite Hframe; done. }
  pose proof (stored_siblings h h1 cs i c c' Ec Hcs HndL Hframe Hstc') as Hsib.
  assert (List.map lroot (<[i:=c']> cs) = List.map lroot cs) as Hroots.
  { rewrite map_insert, Hrootc'. apply list_insert_id. by rewrite lookup_map, Ec. }
  assert (forall L', (forall x, x ∈ L' -> x ∈ locs c \/ length h <= x) ->
          forall x, x ∈ r :: L' ++ rest ->
            x ∈ locs (LNode r ks cs false) \/ length h <= x) as Hmem.
  { intros L' HL' x Hx. rewrite Hlocs.
    apply elem_of_cons in Hx as [->|[Hx|Hx]%elem_of_app].
    - left. by left.
    - destruct (HL' x Hx); [left|by right]. right. apply elem_of_app. by left.
    - left. right. apply elem_of_app. by right. }
  destruct Hcases as [(-> & -> & Hfresh) | (tn & pk & -> & -> & Hsttn & Hfresh)];
    cbn [mbind outcome_bind BPlusTree.newNode BPlusTree.promotedKey BPlusTree.noSplit
         newNode promotedKey noSplit].
  - (* the child absorbed the key *)
    destruct Hfresh as [Hnd1 Hfr1].
    eexists _, _, _, _, (LNode r ks (<[i:=c']> cs) false).
    split; [done|]. split; [done|].
    assert (locsL (<[i:=c']> cs) ≡ₚ locs c' ++ rest) as Hperm.
    { apply locsL_insert. by eapply lookup_lt_Some. }
    split_and!; [ | done | | done | | ].
    + econstructor; [|done]. by rewrite Hroots.
    + cbn [erase]. by rewrite map_insert, Herasec'.
    + intros x Hx Hnx. apply Hframe; [done|]. intros Hxc. apply Hnx.
      apply Hlocs. right. apply elem_of_app. by left.
    + left. split_and!; [done|done|]. split.
      * cbn [locs]. fold (locsL (<[i:=c']> cs)). rewrite Hperm.
        by eapply fresh_replace.
      * intros x Hx. apply (Hmem (locs c') Hfr1).
        cbn [locs] in Hx. fold (locsL (<[i:=c']> cs)) in Hx. by rewrite Hperm in Hx.
  - (* the child was split *)
    destruct Hfresh as [Hnd1 Hfr1].
    set (ncl := splice_insert (i + 1) tn (<[i:=c']> cs)).
    assert (locsL ncl ≡ₚ (locs c' ++ locs tn) ++ rest) as Hperm.
    { unfold ncl. rewrite locsL_splice_insert, locsL_insert by (by eapply lookup_lt_Some).
      fold rest. rewrite !(assoc_L (++)). f_equiv. apply Permutation_app_comm. }
    assert (NoDup (r :: locsL ncl)) as HndN.
    { rewrite Hperm. by eapply fresh_replace. }
    assert (forall x, x ∈ r :: locsL ncl ->
              x ∈ locs (LNode r ks cs false) \/ length h <= x) as HmemN.
    { intros x Hx. rewrite Hperm in Hx. by apply (Hmem _ Hfr1). }
    assert (Forall (stored h1) ncl) as HstN.
    { by apply Forall_splice_insert. }
    assert (forall x, x ∈ locsL ncl -> x < length h1 /\ x <> r) as HboundN.
    { intros x Hx. split.
      - apply elem_of_locsL in Hx as (y & Hy & Hx).
        rewrite Forall_forall in HstN. by eapply stored_bound; [apply HstN|].
      - intros ->. apply NoDup_cons in HndN as [Hn _]. done. }
    assert (List.map lroot ncl = splice_insert (i + 1) (lroot tn) (List.map lroot cs))
      as HrootsN.
    { unfold ncl. by rewrite map_splice_insert, Hroots. }
    assert (List.map erase ncl =
            splice_insert (i + 1) (erase tn) (<[i:=nodec]> (List.map erase cs)))
      as HeraseN.
    { unfold ncl. by rewrite map_splice_insert, map_insert, Herasec'. }
    erewrite run_bind by (by apply run_load). cbn [keys children].
    pose proof (length_splice_insert i pk ks) as HlenK.
    change BPlusTree.MAX_KEYS with 3 in *. change MAX_KEYS with 3.
    destruct (length (splice_insert i pk ks) <=? 3) eqn:E.
    + erewrite run_bind by (by apply run_modify).
      erewrite run_bind.
      2:{ apply run_modify. apply list_lookup_insert_eq. by eapply lookup_lt_Some. }
      rewrite list_insert_insert_eq.
      eexists _, _, _, _, (LNode r (splice_insert i pk ks) ncl false).
      split; [done|]. split; [done|].
      split_and!; [ | done | | | | ].
      * econstructor.
        -- rewrite list_lookup_insert_eq by (by eapply lookup_lt_Some).
           unfold set_children, set_keys. cbn. by rewrite HrootsN.
        -- eapply stored_children_frame; [exact HstN|exact HboundN|].
           intros x _ Hx. by apply list_lookup_insert_ne.
      * cbn [erase]. by rewrite HeraseN.
      * by rewrite length_insert.
      * intros x Hx Hnx. rewrite list_lookup_insert_ne.
        -- apply Hframe; [done|]. intros Hxc. apply Hnx.
           apply Hlocs. right. apply elem_of_app. by left.
        -- intros ->. apply Hnx. by left.
      * left. by split_and!.
    + apply Nat.leb_gt in E.
      assert (length (splice_insert i pk ks) = 4) as H4 by lia. rewrite H4.
      change (4 / 2) with 2. change (2 + 1) with 3.
      destruct (splice_insert i pk ks !! 2) as [pk'|] eqn:Epk.
      2:{ apply lookup_ge_None in Epk. lia. }
      erewrite run_bind by (by apply run_modify).
      erewrite run_bind.
      2:{ apply run_modify. apply list_lookup_insert_eq. by eapply lookup_lt_Some. }
      rewrite list_insert_insert_eq.
      erewrite run_bind by reflexivity.
      rewrite length_insert.
      set (o' := set_children _ _).
      set (on := createInternalNode _ _).
      assert (forall x, x < length h1 -> x <> r ->
                (<[r:=o']> h1 ++ [on]) !! x = h1 !! x) as Hfin.
      { intros x Hx Hxr. rewrite lookup_app_l by (by rewrite length_insert).
        by apply list_lookup_insert_ne. }
      eexists _, _, _, _, (LNode r (take 2 (splice_insert i pk ks)) (take 3 ncl) false).
      split; [done|]. split; [done|].
      split_and!; [ | done | | | | ].
      * econstructor.
        -- rewrite lookup_app_l by (rewrite length_insert; lia).
           rewrite list_lookup_insert_eq by lia.
           unfold o', set_children, set_keys. cbn. by rewrite map_take, HrootsN.
        -- eapply stored_children_frame; [by apply Forall_take| |exact Hfin].
           intros x Hx. by apply HboundN, (elem_of_locsL_take 3).
      * cbn [erase]. by rewrite map_take, HeraseN.
      * rewrite length_app, length_insert. lia.
      * intros x Hx Hnx. rewrite Hfin.
        -- apply Hframe; [done|]. intros Hxc. apply Hnx.
           apply Hlocs. right. apply elem_of_app. by left.
        -- lia.
        -- intros ->. apply Hnx. by left.
      * right. exists (LNode (length h1) (drop 3 (splice_insert i pk ks)) (drop 3 ncl) false), pk'.
        split_and!.
        -- cbn [erase]. by rewrite map_drop, HeraseN.
        -- done.
        -- econstructor.
           ++ rewrite lookup_app_r by (rewrite length_insert; lia).
              rewrite length_insert, Nat.sub_diag.
              unfold on, createInternalNode. cbn. by rewrite map_drop, HrootsN.
           ++ eapply stored_children_frame; [by apply Forall_drop| |exact Hfin].
              intros x Hx. by apply HboundN, (elem_of_locsL_drop 3).
        -- assert (locs (LNode r (take 2 (splice_insert i pk ks)) (take 3 ncl) false)
                   ++ locs (LNode (length h1) (drop 3 (splice_insert i pk ks))
                              (drop 3 ncl) false)
                   ≡ₚ length h1 :: r :: locsL ncl) as Hp.
           { cbn [locs]. fold (locsL (take 3 ncl)) (locsL (drop 3 ncl)).
             rewrite <-(locsL_take_drop 3 ncl). simpl.
             rewrite <-Permutation_middle. apply Permutation_swap. }
           split.
           ++ rewrite Hp. apply NoDup_cons. split; [|done].
              intros [Heq|Hx]%elem_of_cons; [lia|].
              apply HboundN in Hx. lia.
           ++ intros x Hx. rewrite Hp in Hx.
              apply elem_of_cons in Hx as [->|Hx]; [right; lia|by apply HmemN].
Qed.

Lemma insertRecursive_sim t : forall h hgt fuel key,
  stored h t -> NoDup (locs t) -> shaped hgt (erase t) = true -> hgt <= fuel ->
  simulates t h fuel key.
Proof.
  induction t as [r ks cs lf IH] using LTree_ind_nested.
  intros h hgt fuel key Hst Hnd Hsh Hfuel. destruct lf.
  - pose proof Hsh as Hsh'. cbn [erase] in Hsh'.
    apply shaped_leaf in Hsh' as (_ & -> & _).
    destruct fuel as [|fuel]; [lia|]. by apply sim_leaf.
  - by eapply sim_internal.
Qed.

Lemma insert_represents n fuel root h t key :
  represents n root h t -> n <= fuel ->
  exists root' h' t',
    insert fuel root key h = Ok (root', h') /\
    BPlusTree.insert t key = Ok t' /\
    represents (S n) root' h' t'.
Proof.
  intros Hrep Hfuel. destruct root as [r|], t as [tree|]; try done.
  - destruct Hrep as (lt & hgt & Hst & <- & <- & Hnd & Hsh & Hhgt).
    destruct (insertRecursive_sim lt h hgt fuel key Hst Hnd Hsh)
      as (node' & res & res' & h' & lt' & Epure & Eheap & Hst' & Hroot' & Herase'
          & Hlen' & Hframe & Hcases); [lia|].
    destruct (insertRecursive_shaped (erase lt) hgt key Hsh)
      as (node'' & res'' & Epure' & Hsh' & Hsplit).
    rewrite Epure in Epure'. injection Epure' as <- <-.
    unfold insert, BPlusTree.insert. rewrite cloneNode_id, Epure.
    erewrite run_bind by exact Eheap.
    pose proof (stored_bound _ _ Hst') as Hbound'.
    destruct Hcases as [(-> & -> & Hfresh) | (tn & pk & -> & -> & Hsttn & Hfresh)];
      cbn [mbind outcome_bind BPlusTree.newNode BPlusTree.promotedKey
           BPlusTree.noSplit newNode promotedKey noSplit].
    + destruct lt' as [r' ks' cs' lf']. cbn [lroot] in Hroot'. subst r'.
      pose proof Hst' as Hst''.
      apply stored_inv in Hst'' as [[nx Hr] Hcs].
      erewrite run_bind by (by apply run_load).
      erewrite run_bind by reflexivity.
      eexists _, _, _. split; [done|]. split; [done|].
      destruct Hfresh as [Hnd' _].
      exists (LNode (length h') ks' cs' lf'), hgt.
      split_and!; [ |done| by rewrite <-Herase' |  | done | lia].
      * econstructor.
        -- rewrite lookup_app_r by done. by rewrite Nat.sub_diag.
        -- eapply Forall_impl; [exact Hcs|]. intros c Hc.
           eapply stored_frame; [done|]. intros x Hx.
           apply lookup_app_l. by eapply stored_bound.
      * cbn [locs] in *. apply NoDup_cons in Hnd' as [_ Hnd'].
        apply NoDup_cons. split; [|done]. intros Hin.
        assert (length h' < length h'); [|lia].
        apply Hbound'. by right.
    + erewrite run_bind by reflexivity.
      eexists _, _, _. split; [done|]. split; [done|].
      destruct Hfresh as [Hnd' _].
      destruct Hsplit as [Hno|(n' & pk' & Hs & Hshn)]; [done|].
      injection Hs as <- <-.
      pose proof (stored_bound _ _ Hsttn) as Hboundn.
      exists (LNode (length h') [pk] [lt'; tn] false), (S hgt).
      split_and!; [ | done | | | | lia].
      * econstructor.
        -- rewrite lookup_app_r by done. rewrite Nat.sub_diag. cbn.
           by rewrite Hroot'.
        -- repeat constructor.
           ++ eapply stored_frame; [done|]. intros x Hx.
              apply lookup_app_l. by apply Hbound'.
           ++ eapply stored_frame; [done|]. intros x Hx.
              apply lookup_app_l. by apply Hboundn.
      * cbn [erase List.map]. by rewrite Herase'.
      * cbn [locs List.map concat]. rewrite app_nil_r.
        apply NoDup_cons. split; [|done].
        intros [Hin|Hin]%elem_of_app.
        -- assert (length h' < length h'); [by apply Hbound'|lia].
        -- assert (length h' < length h'); [by apply Hboundn|lia].
      * pose proof (shaped_pos _ _ Hshn).
        apply shaped_internal. change BPlusTree.MAX_KEYS with 3. simpl.
        split_and!; [lia|lia|lia|]. by repeat constructor.
  - unfold insert, BPlusTree.insert.
    erewrite run_bind by reflexivity.
    eexists _, _, _. split; [done|]. split; [done|].
    exists (LNode (length h) [key] [] true), 1.
    split_and!; try done.
    + econstructor; [|constructor].
      rewrite lookup_app_r by done. by rewrite Nat.sub_diag.
    + apply NoDup_singleton.
    + lia.
Qed.

Lemma insertAll_mut_snoc fuel ks k :
  insertAll fuel (ks ++ [k]) = ('(root, h) ← insertAll fuel ks; insert fuel root k h).
Proof. unfold insertAll. by rewrite foldl_app. Qed.

Lemma insertAll_represents ks : forall fuel,
  length ks <= fuel ->
  exists root h t,
    insertAll fuel ks = Ok (root, h) /\
    BPlusTree.insertAll ks = Ok t /\
    represents (length ks) root h t.
Proof.
  induction ks as [|k ks IH] using rev_ind; intros fuel Hfuel.
  - by exists None, [], None.
  - rewrite length_app in *. simpl in *.
    destruct (IH fuel) as (root & h & t & Eh & Ep & Hrep); [lia|].
    destruct (insert_represents (length ks) fuel root h t k Hrep)
      as (root' & h' & t' & Eh' & Ep' & Hrep'); [lia|].
    exists root', h', t'. rewrite insertAll_mut_snoc, BPlusTree.insertAll_snoc, Eh, Ep.
    split_and!; [done|done|]. by replace (length ks + 1) with (S (length ks)) by lia.
Qed.




(** C1.  Inserting 10, 20, 5, 15 in that order into the empty tree gives, in
    both revisions, a root that is an internal node with the single key 15
    and exactly two children, the leaves [5, 10] and [15, 20]. *)
Theorem insert_10_20_5_15 :
  let expected :=
    BPlusTree.createInternalNode [15%Z]
      [BPlusTree.createLeafNode [5; 10]%Z; BPlusTree.createLeafNode [15; 20]%Z] in
  BPlusTree.insertAll [10; 20; 5; 15]%Z = Ok (Some expected) /\
  exists st,
    insertAll 4 [10; 20; 5; 15]%Z = Ok st /\
    treeOfRoot 4 st = Some (Some expected).
Proof.
  split; [reflexivity|]. eexists. split; reflexivity.
Qed.

(** *** Search in the heap *)

Lemma searchRecursive_stored t : forall h hgt fuel key,
  stored h t -> shaped hgt (erase t) = true -> hgt <= fuel ->
  exists path,
    searchRecursive fuel h (lroot t) key =
      Ok (path, (BPlusTree.searchRecursive (erase t) key).2) /\
    length path = hgt.
Proof.
  induction t as [r ks cs lf IH] using LTree_ind_nested.
  intros h hgt fuel key Hst Hsh Hfuel.
  apply stored_inv in Hst as [[nx Hr] Hcs].
  pose proof (shaped_pos _ _ Hsh) as Hpos.
  destruct fuel as [|fuel]; [lia|]. cbn [searchRecursive lroot]. rewrite Hr.
  cbn [isLeaf keys children erase]. destruct lf.
  - apply shaped_leaf in Hsh as (_ & -> & _). by eexists.
  - apply shaped_internal in Hsh as (Hks & Hlen & Hh & Hall).
    rewrite BPlusTree.searchRecursive_internal. cbv zeta.
    pose proof (findIndex_default_le (fun k => (key <? k)%Z) ks) as Hidx.
    set (i := default (length ks) (findIndex (fun k => (key <? k)%Z) ks)) in *.
    rewrite length_map in Hlen. rewrite !lookup_map.
    destruct (cs !! i) as [c|] eqn:Ec.
    2:{ apply lookup_ge_None in Ec. lia. }
    simpl.
    destruct (proj1 (Forall_lookup _ _) IH i c Ec h (pred hgt) fuel key)
      as (path & -> & Hpath).
    + by eapply (proj1 (Forall_lookup _ _) Hcs).
    + rewrite Forall_forall in Hall. apply Hall.
      apply list_elem_of_In, in_map, list_elem_of_In. by eapply list_elem_of_lookup_2.
    + lia.
    + simpl. eexists. split; [done|]. simpl. lia.
Qed.

(** X7.  In the revision that updates the nodes in place, too, [search]
    finds a key in the tree built by a sequence of inserts exactly when it
    is one of the inserted keys (given fuel for the depth of the tree). *)
Theorem search_in_place_finds_exactly_the_inserted_keys
    (ks : list Z) (fuel : nat) (key : Z) :
  length ks <= fuel ->
  exists root h path found,
    insertAll fuel ks = Ok (root, h) /\
    search fuel root h key = Ok (path, found) /\
    (found = true <-> key ∈ ks).
Proof.
  intros Hfuel.
  destruct (insertAll_represents ks fuel Hfuel) as (root & h & t & Eh & Ep & Hrep).
  destruct (BPlusTree.insertAll_keysOrdered ks) as (t' & Ht & _ & [Hwk Hsorted] & Hperm).
  rewrite Ep in Ht. injection Ht as <-.
  exists root, h. destruct root as [r|], t as [tree|]; try done.
  - destruct Hrep as (lt & hgt & Hst & <- & <- & Hnd & Hsh & Hhgt).
    destruct (searchRecursive_stored lt h hgt fuel key Hst Hsh) as (path & Es & _); [lia|].
    eexists _, _. split; [done|]. split; [exact Es|].
    rewrite <-Hperm. by apply BPlusTree.searchRecursive_found.
  - eexists _, _. split; [done|]. split; [done|]. rewrite <-Hperm. simpl.
    split; [done|by intros ?%elem_of_nil].
Qed.

Lemma search_in_place_sample :
  length [10; 20; 5; 15; 25]%Z <= 5 /\
  exists root h path found,
    insertAll 5 [10; 20; 5; 15; 25]%Z = Ok (root, h) /\
    search 5 root h 15 = Ok (path, found) /\
    (found = true <-> 15%Z ∈ [10; 20; 5; 15; 25]%Z).
Proof.
  split; [simpl; lia|].
  apply (search_in_place_finds_exactly_the_inserted_keys [10; 20; 5; 15; 25]%Z 5 15).
  simpl; lia.
Defined.

(** *** The leaves stay chained *)

Lemma nextOf_insert_ne (h : Heap) (r r' : ref) o : r' <> r -> nextOf (<[r:=o]> h) r' = nextOf h r'.
Proof. intros ?. unfold nextOf. by rewrite list_lookup_insert_ne. Qed.

Lemma nextOf_insert_eq (h : Heap) (r : ref) o : r < length h -> nextOf (<[r:=o]> h) r = Some (next o).
Proof. intros ?. unfold nextOf. by rewrite list_lookup_insert_eq. Qed.

Lemma nextOf_app_l (h l : Heap) (r : ref) : r < length h -> nextOf (h ++ l) r = nextOf h r.
Proof. intros ?. unfold nextOf. by rewrite lookup_app_l. Qed.

Lemma nextOf_insert_same (h : Heap) (r : ref) o o' (r' : ref) :
  h !! r = Some o -> next o' = next o -> nextOf (<[r:=o']> h) r' = nextOf h r'.
Proof.
  intros Hr Hn. destruct (decide (r' = r)) as [->|Hne].
  - rewrite nextOf_insert_eq by (by eapply lookup_lt_Some).
    unfold nextOf. by rewrite Hr, Hn.
  - by apply nextOf_insert_ne.
Qed.

Lemma nextOf_lt (h : Heap) (r : ref) : r < length h -> exists v, nextOf h r = Some v.
Proof.
  intros Hr. apply lookup_lt_is_Some in Hr as [o Ho].
  exists (next o). unfold nextOf, ref in *. by rewrite Ho.
Qed.

Lemma leafEffect_kept h h1 h' old new :
  leafEffect h h1 old new ->
  (forall x v, nextOf h1 x = Some v -> nextOf h' x = Some v) ->
  leafEffect h h' old new.
Proof.
  intros Heff Hkept.
  assert (forall x y, x < length h -> nextOf h1 y = nextOf h x -> nextOf h' y = nextOf h x)
    as Hk.
  { intros x y Hx Heq. destruct (nextOf_lt h x Hx) as [v Hv].
    rewrite Hv in *. by apply Hkept. }
  destruct Heff as [[-> Hsame]|(A & l & B & -> & -> & Hl & Hnl & Hnn & Hsame)].
  - left. split; [done|]. intros r Hr. apply Hk; [done|by apply Hsame].
  - right. exists A, l, B. split_and!; try done.
    + by apply Hkept.
    + by apply Hk.
    + intros r Hr Hne. apply Hk; [done|by apply Hsame].
Qed.

Lemma leafEffect_ctx h h' old new X Y :
  leafEffect h h' old new -> leafEffect h h' (X ++ old ++ Y) (X ++ new ++ Y).
Proof.
  intros [[-> Hsame]|(A & l & B & -> & -> & Hl & Hnl & Hnn & Hsame)].
  - by left.
  - right. exists (X ++ A), l, (B ++ Y). split_and!; try done.
    + by rewrite <-!(assoc_L (++)).
    + by rewrite <-!(assoc_L (++)).
Qed.

Lemma leafRefsL_app A B : leafRefsL (A ++ B) = leafRefsL A ++ leafRefsL B.
Proof. unfold leafRefsL. by rewrite map_app, concat_app. Qed.

Lemma leafRefsL_cons c B : leafRefsL (c :: B) = leafRefs c ++ leafRefsL B.
Proof. done. Qed.

Lemma leafRefsL_lookup cs i c :
  cs !! i = Some c ->
  leafRefsL cs = leafRefsL (take i cs) ++ leafRefs c ++ leafRefsL (drop (S i) cs).
Proof.
  intros Hc. rewrite <-(take_drop_middle cs i c Hc) at 1.
  by rewrite leafRefsL_app, leafRefsL_cons.
Qed.

Lemma leafRefsL_insert cs i c' :
  i < length cs ->
  leafRefsL (<[i:=c']> cs) = leafRefsL (take i cs) ++ leafRefs c' ++ leafRefsL (drop (S i) cs).
Proof.
  intros Hi. rewrite insert_take_drop by done.
  by rewrite leafRefsL_app, leafRefsL_cons.
Qed.

Lemma leafRefsL_split cs i c' tn :
  i < length cs ->
  leafRefsL (splice_insert (i + 1) tn (<[i:=c']> cs)) =
  leafRefsL (take i cs) ++ (leafRefs c' ++ leafRefs tn) ++ leafRefsL (drop (S i) cs).
Proof.
  intros Hi. rewrite BPlusTree.splice_insert_after by done.
  rewrite leafRefsL_app, !leafRefsL_cons. by rewrite <-!(assoc_L (++)).
Qed.

Lemma leafRefsL_take_drop n l : leafRefsL (take n l) ++ leafRefsL (drop n l) = leafRefsL l.
Proof. by rewrite <-leafRefsL_app, take_drop. Qed.

Lemma nextOf_Some_lt (h : Heap) (r : ref) v : nextOf h r = Some v -> r < length h.
Proof.
  unfold nextOf. destruct (h !! r) eqn:E; [|done]. intros _. by eapply lookup_lt_Some.
Qed.

Lemma sim_leafL r ks cs h fuel key :
  stored h (LNode r ks cs true) -> shaped 1 (erase (LNode r ks cs true)) = true ->
  simulatesL (LNode r ks cs true) h (S fuel) key.
Proof.
  intros Hst Hsh. apply stored_inv in Hst as [[nx Hr] _].
  cbn [erase] in Hsh. apply shaped_leaf in Hsh as (Hks & _ & Hnil).
  destruct cs; [|done]. clear Hnil.
  pose proof (lookup_lt_Some _ _ _ Hr) as Hrlt.
  unfold simulatesL. cbn [erase lroot List.map].
  rewrite insertRecursive_leaf, insertRecursive_S. cbv zeta.
  erewrite run_bind by (by apply run_load). cbn [isLeaf keys].
  pose proof (length_js_sort numeric (ks ++ [key])) as Hlen.
  rewrite length_app in Hlen. simpl in Hlen.
  set (newKeys := js_sort numeric (ks ++ [key])) in *.
  change BPlusTree.MAX_KEYS with 3 in *. change MAX_KEYS with 3.
  destruct (length newKeys <=? 3) eqn:E.
  - erewrite run_bind by (by apply run_modify).
    eexists _, _, _, _, (LNode r newKeys [] true).
    split; [done|]. split; [done|].
    split_and!; [ | done | done | by rewrite length_insert | | ].
    + econstructor; [|constructor]. by rewrite list_lookup_insert_eq.
    + intros r' _ Hr'. apply list_lookup_insert_ne. simpl in Hr'.
      intros ->. apply Hr'. by left.
    + left. split_and!; [done|done| |].
      * split; simpl.
        -- apply NoDup_singleton.
        -- intros r' Hr'. by left.
      * left. split; [done|]. intros r' _. by eapply nextOf_insert_same.
  - apply Nat.leb_gt in E. assert (length newKeys = 4) as H4 by lia.
    rewrite H4. change ((4 + 1) / 2) with 2.
    destruct (drop 2 newKeys !! 0) as [pk|] eqn:Epk.
    2:{ apply lookup_ge_None in Epk. rewrite length_drop in Epk. lia. }
    erewrite run_bind by (by apply run_modify).
    erewrite run_bind by reflexivity.
    rewrite length_insert.
    set (o1 := set_keys (take 2 newKeys)
                 {| keys := ks; children := []; isLeaf := true; next := nx |}).
    set (h1 := <[r:=o1]> h ++ [createLeafNode (drop 2 newKeys)]).
    assert (h1 !! r = Some o1) as Hr1.
    { unfold h1. rewrite lookup_app_l by (by rewrite length_insert).
      by rewrite list_lookup_insert_eq. }
    assert (h1 !! length h = Some (createLeafNode (drop 2 newKeys))) as Hn1.
    { unfold h1. rewrite lookup_app_r by (by rewrite length_insert).
      by rewrite length_insert, Nat.sub_diag. }
    assert (length h1 = S (length h)) as Hlen1.
    { unfold h1. rewrite length_app, length_insert. simpl. lia. }
    erewrite run_bind by (by apply run_load).
    erewrite run_bind by (by apply run_modify).
    erewrite run_bind.
    2:{ apply run_modify. rewrite list_lookup_insert_ne by lia. done. }
    eexists _, _, _, _, (LNode r (take 2 newKeys) [] true).
    split; [done|]. split; [done|].
    split_and!; [ | done | done | | | ].
    + econstructor; [|constructor].
      rewrite list_lookup_insert_eq; [done|].
      rewrite length_insert. by eapply lookup_lt_Some.
    + rewrite !length_insert, length_app, length_insert. simpl. lia.
    + intros r' Hlt Hr'. simpl in Hr'.
      assert (r' <> r) by (intros ->; apply Hr'; by left).
      rewrite !list_lookup_insert_ne by lia.
      unfold h1. rewrite lookup_app_l by (by rewrite length_insert).
      by rewrite list_lookup_insert_ne.
    + right. exists (LNode (length h) (drop 2 newKeys) [] true), pk.
      split_and!; [done|done| | |].
      * econstructor; [|constructor].
        rewrite list_lookup_insert_ne by lia.
        rewrite list_lookup_insert_eq by (by eapply lookup_lt_Some). done.
      * split; simpl.
        -- apply NoDup_cons. split; [|apply NoDup_singleton].
           intros ?%list_elem_of_singleton. lia.
        -- intros r' [->|[->|[]%elem_of_nil]%elem_of_cons]%elem_of_cons.
           ++ left. by left.
           ++ by right.
      * right. exists [], r, []. split_and!; [done|done|done| | |].
        -- rewrite nextOf_insert_eq; [done|].
           rewrite length_insert, length_app, length_insert. simpl. lia.
        -- rewrite nextOf_insert_ne by lia.
           rewrite nextOf_insert_eq by (rewrite length_app, length_insert; simpl; lia).
           unfold nextOf. by rewrite Hr.
        -- intros r' Hlt Hne. rewrite !nextOf_insert_ne by lia.
           rewrite nextOf_app_l by (by rewrite length_insert).
           by rewrite nextOf_insert_ne.
Qed.

Lemma sim_internalL r ks cs h hgt fuel key :
  Forall (fun c => forall h hgt fuel key,
            stored h c -> NoDup (locs c) -> shaped hgt (erase c) = true ->
            hgt <= fuel -> simulatesL c h fuel key) cs ->
  stored h (LNode r ks cs false) -> NoDup (locs (LNode r ks cs false)) ->
  shaped hgt (erase (LNode r ks cs false)) = true -> hgt <= fuel ->
  simulatesL (LNode r ks cs false) h fuel key.
Proof.
  intros IH Hst Hnd Hsh Hfuel.
  pose proof (stored_bound _ _ Hst) as Hbound.
  apply stored_inv in Hst as [[nx Hr] Hcs].
  cbn [erase] in Hsh. apply shaped_internal in Hsh as (Hks & Hlen & Hh & Hall).
  rewrite length_map in Hlen.
  destruct fuel as [|fuel]; [lia|].
  pose proof (findIndex_default_le (fun k => (key <? k)%Z) ks) as Hidx.
  unfold simulatesL. cbn [erase lroot].
  rewrite insertRecursive_internal, insertRecursive_S. cbv zeta.
  erewrite run_bind by (by apply run_load). cbn [isLeaf keys children].
  set (i := default (length ks) (findIndex (fun k => (key <? k)%Z) ks)) in *.
  destruct (cs !! i) as [c|] eqn:Ec.
  2:{ apply lookup_ge_None in Ec. lia. }
  rewrite !lookup_map, Ec. cbn [fmap option_fmap option_map].
  assert (c ∈ cs) as Hc_in by (by eapply list_elem_of_lookup_2).
  assert (i < length cs) as Hi by (by eapply lookup_lt_Some).
  set (rest := locsL (delete i cs)).
  assert (forall x, x ∈ locs (LNode r ks cs false) <-> x ∈ r :: locs c ++ rest) as Hlocs.
  { intros x. cbn [locs]. fold (locsL cs). by rewrite (locsL_lookup cs i c Ec). }
  assert (NoDup (r :: locs c ++ rest)) as Hnd'.
  { unfold rest. rewrite <-locsL_lookup by done. exact Hnd. }
  assert (forall x, x ∈ r :: locs c ++ rest -> x < length h) as Hbound'.
  { intros x Hx. apply Hbound. by apply Hlocs. }
  assert (NoDup (locsL cs)) as HndL by (by apply NoDup_cons in Hnd as [_ ?]).
  assert (r ∉ locs c) as Hrc.
  { apply NoDup_cons in Hnd' as [Hn _]. intros ?. apply Hn, elem_of_app. by left. }
  assert (r < length h) as Hrlt by (by eapply lookup_lt_Some).
  destruct (proj1 (Forall_forall _ _) IH c Hc_in h (pred hgt) fuel key)
    as (nodec & resc & resc' & h1 & c' & Epure & Eheap & Hstc' & Hrootc' & Herasec'
        & Hlen1 & Hframe & Hcases).
  { by apply (proj1 (Forall_forall _ _) Hcs). }
  { apply NoDup_cons in Hnd' as [_ Hnd']. by apply NoDup_app in Hnd' as (? & _ & _). }
  { rewrite Forall_forall in Hall. apply Hall.
    apply list_elem_of_In, in_map, list_elem_of_In. done. }
  { lia. }
  rewrite Epure. erewrite run_bind by exact Eheap.
  assert (h1 !! r = Some {| keys := ks; children := List.map lroot cs;
                            isLeaf := false; next := nx |}) as Hr1.
  { rewrite Hframe; done. }
  pose proof (stored_siblings h h1 cs i c c' Ec Hcs HndL Hframe Hstc') as Hsib.
  assert (List.map lroot (<[i:=c']> cs) = List.map lroot cs) as Hroots.
  { rewrite map_insert, Hrootc'. apply list_insert_id. by rewrite lookup_map, Ec. }
  assert (forall L', (forall x, x ∈ L' -> x ∈ locs c \/ length h <= x) ->
          forall x, x ∈ r :: L' ++ rest ->
            x ∈ locs (LNode r ks cs false) \/ length h <= x) as Hmem.
  { intros L' HL' x Hx. rewrite Hlocs.
    apply elem_of_cons in Hx as [->|[Hx|Hx]%elem_of_app].
    - left. by left.
    - destruct (HL' x Hx); [left|by right]. right. apply elem_of_app. by left.
    - left. right. apply elem_of_app. by right. }
  assert (leafRefs (LNode r ks cs false) =
          leafRefsL (take i cs) ++ leafRefs c ++ leafRefsL (drop (S i) cs)) as Hleaves.
  { cbn [leafRefs]. fold (leafRefsL cs). by apply leafRefsL_lookup. }
  destruct Hcases as [(-> & -> & Hfresh & Heff) | (tn & pk & -> & -> & Hsttn & Hfresh & Heff)];
    cbn [mbind outcome_bind BPlusTree.newNode BPlusTree.promotedKey BPlusTree.noSplit
         newNode promotedKey noSplit].
  - (* the child absorbed the key *)
    destruct Hfresh as [Hnd1 Hfr1].
    eexists _, _, _, _, (LNode r ks (<[i:=c']> cs) false).
    split; [done|]. split; [done|].
    assert (locsL (<[i:=c']> cs) ≡ₚ locs c' ++ rest) as Hperm.
    { apply locsL_insert. by eapply lookup_lt_Some. }
    split_and!; [ | done | | done | | ].
    + econstructor; [|done]. by rewrite Hroots.
    + cbn [erase]. by rewrite map_insert, Herasec'.
    + intros x Hx Hnx. apply Hframe; [done|]. intros Hxc. apply Hnx.
      apply Hlocs. right. apply elem_of_app. by left.
    + left. split_and!; [done|done| |].
      * split.
        -- cbn [locs]. fold (locsL (<[i:=c']> cs)). rewrite Hperm.
           by eapply fresh_replace.
        -- intros x Hx. apply (Hmem (locs c') Hfr1).
           cbn [locs] in Hx. fold (locsL (<[i:=c']> cs)) in Hx. by rewrite Hperm in Hx.
      * rewrite Hleaves. cbn [leafRefs]. fold (leafRefsL (<[i:=c']> cs)).
        rewrite leafRefsL_insert by done. by apply leafEffect_ctx.
  - (* the child was split *)
    destruct Hfresh as [Hnd1 Hfr1].
    set (ncl := splice_insert (i + 1) tn (<[i:=c']> cs)).
    assert (locsL ncl ≡ₚ (locs c' ++ locs tn) ++ rest) as Hperm.
    { unfold ncl. rewrite locsL_splice_insert, locsL_insert by (by eapply lookup_lt_Some).
      fold rest. rewrite !(assoc_L (++)). f_equiv. apply Permutation_app_comm. }
    assert (NoDup (r :: locsL ncl)) as HndN.
    { rewrite Hperm. by eapply fresh_replace. }
    assert (forall x, x ∈ r :: locsL ncl ->
              x ∈ locs (LNode r ks cs false) \/ length h <= x) as HmemN.
    { intros x Hx. rewrite Hperm in Hx. by apply (Hmem _ Hfr1). }
    assert (Forall (stored h1) ncl) as HstN.
    { by apply Forall_splice_insert. }
    assert (forall x, x ∈ locsL ncl -> x < length h1 /\ x <> r) as HboundN.
    { intros x Hx. split.
      - apply elem_of_locsL in Hx as (y & Hy & Hx).
        rewrite Forall_forall in HstN. by eapply stored_bound; [apply HstN|].
      - intros ->. apply NoDup_cons in HndN as [Hn _]. done. }
    assert (List.map lroot ncl = splice_insert (i + 1) (lroot tn) (List.map lroot cs))
      as HrootsN.
    { unfold ncl. by rewrite map_splice_insert, Hroots. }
    assert (List.map erase ncl =
            splice_insert (i + 1) (erase tn) (<[i:=nodec]> (List.map erase cs)))
      as HeraseN.
    { unfold ncl. by rewrite map_splice_insert, map_insert, Herasec'. }
    assert (forall h', (forall x v, nextOf h1 x = Some v -> nextOf h' x = Some v) ->
              leafEffect h h' (leafRefs (LNode r ks cs false)) (leafRefsL ncl)) as HeffN.
    { intros h' Hkept. rewrite Hleaves. unfold ncl. rewrite leafRefsL_split by done.
      apply leafEffect_ctx. by eapply leafEffect_kept. }
    erewrite run_bind by (by apply run_load). cbn [keys children].
    pose proof (length_splice_insert i pk ks) as HlenK.
    change BPlusTree.MAX_KEYS with 3 in *. change MAX_KEYS with 3.
    destruct (length (splice_insert i pk ks) <=? 3) eqn:E.
    + erewrite run_bind by (by apply run_modify).
      erewrite run_bind.
      2:{ apply run_modify. apply list_lookup_insert_eq. by eapply lookup_lt_Some. }
      rewrite list_insert_insert_eq.
      eexists _, _, _, _, (LNode r (splice_insert i pk ks) ncl false).
      split; [done|]. split; [done|].
      split_and!; [ | done | | | | ].
      * econstructor.
        -- rewrite list_lookup_insert_eq by (by eapply lookup_lt_Some).
           unfold set_children, set_keys. cbn. by rewrite HrootsN.
        -- eapply stored_children_frame; [exact HstN|exact HboundN|].
           intros x _ Hx. by apply list_lookup_insert_ne.
      * cbn [erase]. by rewrite HeraseN.
      * by rewrite length_insert.
      * intros x Hx Hnx. rewrite list_lookup_insert_ne.
        -- apply Hframe; [done|]. intros Hxc. apply Hnx.
           apply Hlocs. right. apply elem_of_app. by left.
        -- intros ->. apply Hnx. by left.
      * left. split_and!; [done|done|done|].
        apply HeffN. intros x v Hx. rewrite <-Hx.
        by eapply nextOf_insert_same.
    + apply Nat.leb_gt in E.
      assert (length (splice_insert i pk ks) = 4) as H4 by lia. rewrite H4.
      change (4 / 2) with 2. change (2 + 1) with 3.
      destruct (splice_insert i pk ks !! 2) as [pk'|] eqn:Epk.
      2:{ apply lookup_ge_None in Epk. lia. }
      erewrite run_bind by (by apply run_modify).
      erewrite run_bind.
      2:{ apply run_modify. apply list_lookup_insert_eq. by eapply lookup_lt_Some. }
      rewrite list_insert_insert_eq.
      erewrite run_bind by reflexivity.
      rewrite length_insert.
      set (o' := set_children _ _).
      set (on := createInternalNode _ _).
      assert (forall x, x < length h1 -> x <> r ->
                (<[r:=o']> h1 ++ [on]) !! x = h1 !! x) as Hfin.
      { intros x Hx Hxr. rewrite lookup_app_l by (by rewrite length_insert).
        by apply list_lookup_insert_ne. }
      eexists _, _, _, _, (LNode r (take 2 (splice_insert i pk ks)) (take 3 ncl) false).
      split; [done|]. split; [done|].
      split_and!; [ | done | | | | ].
      * econstructor.
        -- rewrite lookup_app_l by (rewrite length_insert; lia).
           rewrite list_lookup_insert_eq by lia.
           unfold o', set_children, set_keys. cbn. by rewrite map_take, HrootsN.
        -- eapply stored_children_frame; [by apply Forall_take| |exact Hfin].
           intros x Hx. by apply HboundN, (elem_of_locsL_take 3).
      * cbn [erase]. by rewrite map_take, HeraseN.
      * rewrite length_app, length_insert. lia.
      * intros x Hx Hnx. rewrite Hfin.
        -- apply Hframe; [done|]. intros Hxc. apply Hnx.
           apply Hlocs. right. apply elem_of_app. by left.
        -- lia.
        -- intros ->. apply Hnx. by left.
      * right. exists (LNode (length h1) (drop 3 (splice_insert i pk ks)) (drop 3 ncl) false), pk'.
        split_and!.
        -- cbn [erase]. by rewrite map_drop, HeraseN.
        -- done.
        -- econstructor.
           ++ rewrite lookup_app_r by (rewrite length_insert; lia).
              rewrite length_insert, Nat.sub_diag.
              unfold on, createInternalNode. cbn. by rewrite map_drop, HrootsN.
           ++ eapply stored_children_frame; [by apply Forall_drop| |exact Hfin].
              intros x Hx. by apply HboundN, (elem_of_locsL_drop 3).
        -- assert (locs (LNode r (take 2 (splice_insert i pk ks)) (take 3 ncl) false)
                   ++ locs (LNode (length h1) (drop 3 (splice_insert i pk ks))
                              (drop 3 ncl) false)
                   ≡ₚ length h1 :: r :: locsL ncl) as Hp.
           { cbn [locs]. fold (locsL (take 3 ncl)) (locsL (drop 3 ncl)).
             rewrite <-(locsL_take_drop 3 ncl). simpl.
             rewrite <-Permutation_middle. apply Permutation_swap. }
           split.
           ++ rewrite Hp. apply NoDup_cons. split; [|done].
              intros [Heq|Hx]%elem_of_cons; [lia|].
              apply HboundN in Hx. lia.
           ++ intros x Hx. rewrite Hp in Hx.
              apply elem_of_cons in Hx as [->|Hx]; [right; lia|by apply HmemN].
        -- cbn [leafRefs]. fold (leafRefsL (take 3 ncl)) (leafRefsL (drop 3 ncl)).
           rewrite leafRefsL_take_drop. apply HeffN. intros x v Hx.
           pose proof (nextOf_Some_lt _ _ _ Hx) as Hlt.
           rewrite nextOf_app_l by (by rewrite length_insert).
           rewrite <-Hx. by eapply nextOf_insert_same.
Qed.

Lemma insertRecursive_simL t : forall h hgt fuel key,
  stored h t -> NoDup (locs t) -> shaped hgt (erase t) = true -> hgt <= fuel ->
  simulatesL t h fuel key.
Proof.
  induction t as [r ks cs lf IH] using LTree_ind_nested.
  intros h hgt fuel key Hst Hnd Hsh Hfuel. destruct lf.
  - pose proof Hsh as Hsh'. cbn [erase] in Hsh'.
    apply shaped_leaf in Hsh' as (_ & -> & _).
    destruct fuel as [|fuel]; [lia|]. by apply sim_leafL.
  - by eapply sim_internalL.
Qed.

Lemma linked_ext h h' rs e :
  (forall r, r ∈ rs -> nextOf h' r = nextOf h r) -> linked h rs e -> linked h' rs e.
Proof.
  induction rs as [|r rs IH]; [done|]. intros Heq [Hr Hrs]. split.
  - rewrite Heq; [done|by left].
  - apply IH; [|done]. intros r' Hr'. apply Heq. by right.
Qed.

Lemma linked_app h A B e :
  linked h (A ++ B) e <->
  linked h A (match B with [] => e | b :: _ => Some b end) /\ linked h B e.
Proof.
  induction A as [|a A IH]; simpl; [tauto|].
  rewrite IH. destruct A; simpl; tauto.
Qed.

Lemma linked_effect h h' old new e :
  linked h old e -> NoDup old -> (forall r, r ∈ old -> r < length h) ->
  leafEffect h h' old new -> linked h' new e.
Proof.
  intros Hl Hnd Hb [[-> Hsame]|(A & l & B & -> & -> & Hlt & Hnl & Hnn & Hsame)].
  - eapply linked_ext; [|done]. intros r Hr. by apply Hsame, Hb.
  - apply linked_app in Hl as [HA [Hl HB]].
    apply NoDup_app in Hnd as (_ & HdA & [HlB _]%NoDup_cons).
    apply linked_app. cbn [linked]. split_and!.
    + eapply linked_ext; [|exact HA]. intros r Hr. apply Hsame.
      * apply Hb, elem_of_app. by left.
      * intros ->. apply (HdA l Hr). by left.
    + done.
    + by rewrite Hnn.
    + eapply linked_ext; [|exact HB]. intros r Hr. apply Hsame.
      * apply Hb, elem_of_app. right. by right.
      * by intros ->.
Qed.

Lemma leafRefs_sublist t : leafRefs t `sublist_of` locs t.
Proof.
  induction t as [r ks cs lf IH] using LTree_ind_nested. cbn [leafRefs locs].
  destruct lf.
  - apply sublist_skip, sublist_nil_l.
  - apply sublist_cons. induction IH as [|c cs Hc _ IHcs]; simpl; [done|].
    by apply sublist_app.
Qed.

Lemma leafRefs_bound h t r : stored h t -> r ∈ leafRefs t -> r < length h.
Proof.
  intros Hst Hr. eapply stored_bound; [done|].
  eapply elem_of_sublist; [done|apply leafRefs_sublist].
Qed.

Lemma leafRefs_NoDup t : NoDup (locs t) -> NoDup (leafRefs t).
Proof. intros Hnd. eapply sublist_NoDup; [done|apply leafRefs_sublist]. Qed.

Lemma insert_representsL n fuel root h t key :
  representsL n root h t -> n <= fuel ->
  exists root' h' t',
    insert fuel root key h = Ok (root', h') /\
    BPlusTree.insert t key = Ok t' /\
    representsL (S n) root' h' t'.
Proof.
  intros Hrep Hfuel. destruct root as [r|], t as [tree|]; try done.
  - destruct Hrep as (lt & hgt & Hst & <- & <- & Hnd & Hsh & Hhgt & Hlinked).
    destruct (insertRecursive_simL lt h hgt fuel key Hst Hnd Hsh)
      as (node' & res & res' & h' & lt' & Epure & Eheap & Hst' & Hroot' & Herase'
          & Hlen' & Hframe & Hcases); [lia|].
    destruct (insertRecursive_shaped (erase lt) hgt key Hsh)
      as (node'' & res'' & Epure' & Hsh' & Hsplit).
    rewrite Epure in Epure'. injection Epure' as <- <-.
    unfold insert, BPlusTree.insert. rewrite cloneNode_id, Epure.
    erewrite run_bind by exact Eheap.
    pose proof (stored_bound _ _ Hst') as Hbound'.
    assert (forall new, leafEffect h h' (leafRefs lt) new -> linked h' new None) as Hchain.
    { intros new Heff.
      eapply linked_effect; [exact Hlinked|by apply leafRefs_NoDup| |exact Heff].
      intros x Hx. by eapply leafRefs_bound. }
    destruct Hcases as [(-> & -> & Hfresh & Heff) | (tn & pk & -> & -> & Hsttn & Hfresh & Heff)];
      apply Hchain in Heff;
      cbn [mbind outcome_bind BPlusTree.newNode BPlusTree.promotedKey
           BPlusTree.noSplit newNode promotedKey noSplit].
    + destruct lt' as [r' ks' cs' lf']. cbn [lroot] in Hroot'. subst r'.
      pose proof Hst' as Hst''.
      apply stored_inv in Hst'' as [[nx Hr] Hcs].
      erewrite run_bind by (by apply run_load).
      erewrite run_bind by reflexivity.
      eexists _, _, _. split; [done|]. split; [done|].
      destruct Hfresh as [Hnd' _].
      exists (LNode (length h') ks' cs' lf'), hgt.
      split_and!; [ |done| by rewrite <-Herase' |  | done | lia | ].
      * econstructor.
        -- rewrite lookup_app_r by done. by rewrite Nat.sub_diag.
        -- eapply Forall_impl; [exact Hcs|]. intros c Hc.
           eapply stored_frame; [done|]. intros x Hx.
           apply lookup_app_l. by eapply stored_bound.
      * cbn [locs] in *. apply NoDup_cons in Hnd' as [_ Hnd'].
        apply NoDup_cons. split; [|done]. intros Hin.
        assert (length h' < length h'); [|lia].
        apply Hbound'. by right.
      * cbn [leafRefs] in *. destruct lf'.
        -- destruct Heff as [Heff _]. unfold nextOf in Heff. rewrite Hr in Heff.
           injection Heff as ->. split; [|done].
           unfold nextOf. rewrite lookup_app_r by done. by rewrite Nat.sub_diag.
        -- eapply linked_ext; [|exact Heff]. intros x Hx. apply nextOf_app_l.
           apply (leafRefs_bound h' (LNode (lroot lt) ks' cs' false)); done.
    + erewrite run_bind by reflexivity.
      eexists _, _, _. split; [done|]. split; [done|].
      destruct Hfresh as [Hnd' _].
      destruct Hsplit as [Hno|(n' & pk' & Hs & Hshn)]; [done|].
      injection Hs as <- <-.
      pose proof (stored_bound _ _ Hsttn) as Hboundn.
      exists (LNode (length h') [pk] [lt'; tn] false), (S hgt).
      split_and!; [ | done | | | | lia | ].
      * econstructor.
        -- rewrite lookup_app_r by done. rewrite Nat.sub_diag. cbn.
           by rewrite Hroot'.
        -- repeat constructor.
           ++ eapply stored_frame; [done|]. intros x Hx.
              apply lookup_app_l. by apply Hbound'.
           ++ eapply stored_frame; [done|]. intros x Hx.
              apply lookup_app_l. by apply Hboundn.
      * cbn [erase List.map]. by rewrite Herase'.
      * cbn [locs List.map concat]. rewrite app_nil_r.
        apply NoDup_cons. split; [|done].
        intros [Hin|Hin]%elem_of_app.
        -- assert (length h' < length h'); [by apply Hbound'|lia].
        -- assert (length h' < length h'); [by apply Hboundn|lia].
      * pose proof (shaped_pos _ _ Hshn).
        apply shaped_internal. change BPlusTree.MAX_KEYS with 3. simpl.
        split_and!; [lia|lia|lia|]. by repeat constructor.
      * cbn [leafRefs List.map concat]. rewrite app_nil_r.
        eapply linked_ext; [|exact Heff]. intros x Hx. apply nextOf_app_l.
        apply elem_of_app in Hx as [Hx|Hx];
          [by apply (leafRefs_bound h' lt')|by apply (leafRefs_bound h' tn)].
  - unfold insert, BPlusTree.insert.
    erewrite run_bind by reflexivity.
    eexists _, _, _. split; [done|]. split; [done|].
    exists (LNode (length h) [key] [] true), 1.
    split_and!; try done.
    + econstructor; [|constructor].
      rewrite lookup_app_r by done. by rewrite Nat.sub_diag.
    + apply NoDup_singleton.
    + lia.
    + split; [|done]. unfold nextOf. rewrite lookup_app_r by done.
      by rewrite Nat.sub_diag.
Qed.

Lemma insertAll_representsL ks : forall fuel,
  length ks <= fuel ->
  exists root h t,
    insertAll fuel ks = Ok (root, h) /\
    BPlusTree.insertAll ks = Ok t /\
    representsL (length ks) root h t.
Proof.
  induction ks as [|k ks IH] using rev_ind; intros fuel Hfuel.
  - by exists None, [], None.
  - rewrite length_app in *. simpl in *.
    destruct (IH fuel) as (root & h & t & Eh & Ep & Hrep); [lia|].
    destruct (insert_representsL (length ks) fuel root h t k Hrep)
      as (root' & h' & t' & Eh' & Ep' & Hrep'); [lia|].
    exists root', h', t'. rewrite insertAll_mut_snoc, BPlusTree.insertAll_snoc, Eh, Ep.
    split_and!; [done|done|]. by replace (length ks + 1) with (S (length ks)) by lia.
Qed.

Lemma leavesOf_stored t : forall h hgt fuel,
  stored h t -> shaped hgt (erase t) = true -> hgt <= fuel ->
  leavesOf fuel h (lroot t) = Some (leafRefs t).
Proof.
  induction t as [r ks cs lf IH] using LTree_ind_nested.
  intros h hgt fuel Hst Hsh Hfuel.
  apply stored_inv in Hst as [[nx Hr] Hcs].
  pose proof (shaped_pos _ _ Hsh) as Hpos.
  destruct fuel as [|fuel]; [lia|]. cbn [leavesOf lroot leafRefs]. rewrite Hr.
  cbn [mbind option_bind isLeaf children]. destruct lf; [done|].
  assert (mapM (leavesOf fuel h) (List.map lroot cs) = Some (List.map leafRefs cs)) as ->;
    [|done].
  apply mapM_Some. cbn [erase] in Hsh.
  apply shaped_internal in Hsh as (_ & _ & Hh & Hall).
  clear Hr. induction Hcs as [|c cs Hc Hcs IHcs]; simpl; [constructor|].
  inversion IH; subst. inversion Hall; subst.
  constructor; [|by apply IHcs].
  eapply H1; [done|done|lia].
Qed.

Lemma keysAlong_app h A B : keysAlong h (A ++ B) = keysAlong h A ++ keysAlong h B.
Proof. unfold keysAlong. by rewrite map_app, concat_app. Qed.

Lemma keysAlong_stored t : forall h,
  stored h t -> keysAlong h (leafRefs t) = leafKeys (erase t).
Proof.
  induction t as [r ks cs lf IH] using LTree_ind_nested.
  intros h Hst. apply stored_inv in Hst as [[nx Hr] Hcs].
  cbn [leafRefs erase leafKeys]. destruct lf.
  - unfold keysAlong. simpl. rewrite Hr. simpl. by rewrite app_nil_r.
  - clear Hr. induction Hcs as [|c cs Hc Hcs IHcs]; [done|].
    inversion IH; subst. simpl. rewrite keysAlong_app. f_equal; auto.
Qed.

(** X27.  In the revision that updates the nodes in place, the [next]
    fields chain the leaves of the tree built by a sequence of inserts from
    left to right, the last leaf's [next] being [null]; read along that chain
    the leaves hold the inserted keys in ascending order. *)
Theorem leaves_are_chained_in_key_order (ks : list Z) (fuel : nat) :
  length ks <= fuel ->
  exists root h ls,
    insertAll fuel ks = Ok (root, h) /\
    leavesOfRoot fuel (root, h) = Some ls /\
    linked h ls None /\
    keysAlong h ls ≡ₚ ks /\
    StronglySorted Z.le (keysAlong h ls).
Proof.
  intros Hfuel.
  destruct (insertAll_representsL ks fuel Hfuel) as (root & h & t & Eh & Ep & Hrep).
  destruct (BPlusTree.insertAll_keysOrdered ks) as (t' & Ht & _ & [Hwk Hsorted] & Hperm).
  rewrite Ep in Ht. injection Ht as <-.
  exists root, h. destruct root as [r|], t as [tree|]; try done.
  - destruct Hrep as (lt & hgt & Hst & <- & <- & Hnd & Hsh & Hhgt & Hlinked).
    exists (leafRefs lt). split; [done|].
    unfold leavesOfRoot. cbn [fst snd].
    rewrite (leavesOf_stored lt h hgt fuel Hst Hsh) by lia.
    rewrite (keysAlong_stored lt h Hst). by split_and!.
  - exists []. by split_and!.
Qed.

Lemma leaves_are_chained_sample :
  exists root h ls,
    insertAll 6 [10; 20; 5; 15; 25; 30]%Z = Ok (root, h) /\
    leavesOfRoot 6 (root, h) = Some ls /\
    linked h ls None /\
    keysAlong h ls ≡ₚ [10; 20; 5; 15; 25; 30]%Z /\
    StronglySorted Z.le (keysAlong h ls).
Proof.
  apply (leaves_are_chained_in_key_order [10; 20; 5; 15; 25; 30]%Z 6).
  simpl; lia.
Defined.

End BPlusTreeMut.

(** ** The LSM tree widget *)

Module LSMTree.

Record MemTableEntry : Type :=
  { key : string; value : string; timestamp : Z }.

(** [interface SSTable].  The [id] is the string [sstable-] followed by the
    clock reading; it is kept as that reading. *)
Record SSTable : Type :=
  { id : Z;
    level : nat;
    entries : list MemTableEntry;
    size : nat;
    minKey : string;
    maxKey : string }.

Definition MAX_MEMTABLE_SIZE : nat := 4.
Definition LEVEL_MULTIPLIER : nat := 4.

Definition getMaxTablesAtLevel (lvl : nat) : nat :=
  if lvl =? 0 then 2 else LEVEL_MULTIPLIER ^ lvl.

(** The callbacks the widget hands to [setTimeout], with the values they
    close over. *)
Inductive Timer : Type :=
| FlushTimer (flushed : list MemTableEntry)
| CompactTimer (lvl : nat) (tables : list SSTable)
| CompactDoneTimer (lvl : nat) (newTables : list SSTable).

Record State : Type :=
  { memtable : list MemTableEntry;
    sstables : list SSTable;
    isCompacting : bool;
    highlightedSSTable : option Z;
    writeCount : nat;
    timers : list Timer }.

Definition initialState : State :=
  {| memtable := []; sstables := []; isCompacting := false;
     highlightedSSTable := None; writeCount := 0; timers := [] |}.

(** A [Map<string, MemTableEntry>]: [set] on a key already present replaces
    the value where it stands, on a new key appends; [values()] follows that
    order. *)
Fixpoint map_set (k : string) (e : MemTableEntry)
    (m : list (string * MemTableEntry)) : list (string * MemTableEntry) :=
  match m with
  | [] => [(k, e)]
  | (k', e') :: m' =>
      if String.eqb k' k then (k', e) :: m' else (k', e') :: map_set k e m'
  end.

Definition map_values (m : list (string * MemTableEntry)) : list MemTableEntry :=
  snd <$> m.

Definition byTimestamp (a b : MemTableEntry) : Z := (timestamp a - timestamp b)%Z.

Section Collation.

(** [String.prototype.localeCompare] under the collation of the browser. *)
Variable localeCompare : string -> string -> Z.

Definition byKey (a b : MemTableEntry) : Z := localeCompare (key a) (key b).

Definition firstKey (l : list MemTableEntry) : string :=
  match l with
  | [] => EmptyString
  | e :: _ => key e
  end.

Definition lastKey (l : list MemTableEntry) : string :=
  match last l with
  | None => EmptyString
  | Some e => key e
  end.

Definition mergeEntries (tablesAtLevel : list SSTable) : list MemTableEntry :=
  let allEntries := concat (entries <$> tablesAtLevel) in
  let allEntries := js_sort byTimestamp allEntries in
  let entryMap := foldl (fun m e => map_set (key e) e m) [] allEntries in
  js_sort byKey (map_values entryMap).

(** [compact(level, tables)], called at clock reading [now]. *)
Definition compact (lvl : nat) (tables : list SSTable) (now : Z) (st : State) : State :=
  let tablesAtLevel := filter (fun t => level t = lvl) tables in
  let otherTables := filter (fun t => level t <> lvl) tables in
  let minTables := if lvl =? 0 then 2 else getMaxTablesAtLevel lvl in
  if length tablesAtLevel <? minTables then
    {| memtable := memtable st; sstables := sstables st; isCompacting := false;
       highlightedSSTable := highlightedSSTable st; writeCount := writeCount st;
       timers := timers st |}
  else
    let mergedEntries := mergeEntries tablesAtLevel in
    let newSSTable :=
      {| id := now; level := lvl + 1; entries := mergedEntries;
         size := length mergedEntries;
         minKey := firstKey mergedEntries; maxKey := lastKey mergedEntries |} in
    let newTables := otherTables ++ [newSSTable] in
    {| memtable := memtable st; sstables := newTables; isCompacting := true;
       highlightedSSTable := Some (id newSSTable); writeCount := writeCount st;
       timers := timers st ++ [CompactDoneTimer lvl newTables] |}.

(** The callback [compact] schedules after one second. *)
Definition compactDone (lvl : nat) (newTables : list SSTable) (st : State) : State :=
  let nextLevelTables := filter (fun t => level t = lvl + 1) newTables in
  let nextLevelMax := getMaxTablesAtLevel (lvl + 1) in
  {| memtable := memtable st; sstables := sstables st; isCompacting := false;
     highlightedSSTable := None; writeCount := writeCount st;
     timers :=
       if nextLevelMax <=? length nextLevelTables
       then timers st ++ [CompactTimer (lvl + 1) newTables]
       else timers st |}.

(** [flushMemtable(entries)], called at clock reading [now]. *)
Definition flushMemtable (flushed : list MemTableEntry) (now : Z) (st : State) : State :=
  if length flushed =? 0 then st
  else
    let newSSTable :=
      {| id := now; level := 0; entries := flushed; size := length flushed;
         minKey := firstKey flushed; maxKey := lastKey flushed |} in
    let updatedTables := sstables st ++ [newSSTable] in
    let l0Tables := filter (fun t => level t = 0) updatedTables in
    {| memtable := []; sstables := updatedTables; isCompacting := isCompacting st;
       highlightedSSTable := highlightedSSTable st; writeCount := writeCount st;
       timers :=
         if 2 <=? length l0Tables
         then timers st ++ [CompactTimer 0 updatedTables]
         else timers st |}.

(** [write(key, value)], called at clock reading [now]. *)
Definition write (k v : string) (now : Z) (st : State) : State :=
  let entry := {| key := k; value := v; timestamp := now |} in
  let filtered := filter (fun e => key e <> k) (memtable st) in
  let newMemtable := js_sort byKey (filtered ++ [entry]) in
  {| memtable := newMemtable; sstables := sstables st;
     isCompacting := isCompacting st; highlightedSSTable := highlightedSSTable st;
     writeCount := writeCount st + 1;
     timers :=
       if MAX_MEMTABLE_SIZE <=? length newMemtable
       then timers st ++ [FlushTimer newMemtable]
       else timers st |}.

Definition fire (t : Timer) (now : Z) (st : State) : State :=
  match t with
  | FlushTimer flushed => flushMemtable flushed now st
  | CompactTimer lvl tables => compact lvl tables now st
  | CompactDoneTimer lvl newTables => compactDone lvl newTables st
  end.

(** What happens to the widget: the user writes, or a pending timer (the
    [i]-th) fires. *)
Inductive Event : Type :=
| WriteEvent (k v : string) (now : Z)
| TimerEvent (i : nat) (now : Z).

Definition withTimers (ts : list Timer) (st : State) : State :=
  {| memtable := memtable st; sstables := sstables st; isCompacting := isCompacting st;
     highlightedSSTable := highlightedSSTable st; writeCount := writeCount st;
     timers := ts |}.

Definition step (st : State) (ev : Event) : State :=
  match ev with
  | WriteEvent k v now => write k v now st
  | TimerEvent i now =>
      match timers st !! i with
      | None => st
      | Some t => fire t now (withTimers (delete i (timers st)) st)
      end
  end.

Definition run (evs : list Event) : State := foldl step initialState evs.




End Collation.

(** A collation to run examples with: the order of the character codes. *)
Definition codeOrder (a b : string) : Z :=
  match String.compare a b with
  | Lt => (-1)%Z
  | Eq => 0%Z
  | Gt => 1%Z
  end.


(** The map [compact] builds, started from any map. *)
Definition buildEntryMap (m : list (string * MemTableEntry)) (l : list MemTableEntry)
  : list (string * MemTableEntry) :=
  foldl (fun m e => map_set (key e) e m) m l.

(** The entry a map holds for a key. *)
Fixpoint map_get (k : string) (m : list (string * MemTableEntry)) : option MemTableEntry :=
  match m with
  | [] => None
  | (k', e) :: m' => if decide (k' = k) then Some e else map_get k m'
  end.

(** Every entry sits under its own key. *)
Definition keyed (m : list (string * MemTableEntry)) : Prop :=
  Forall (fun p => key p.2 = p.1) m.

(** Sample data. *)
Definition sampleEntry (k v : string) (t : Z) : MemTableEntry :=
  {| key := k; value := v; timestamp := t |}.

(** Two level-0 tables as two flushes of the sample data leave them. *)
Definition sampleTables : list SSTable :=
  [ {| id := 1700; level := 0;
       entries := [sampleEntry "order:1" "Pizza" 1200; sampleEntry "user:1" "Alice" 0;
                   sampleEntry "user:2" "Bob" 400; sampleEntry "user:3" "Charlie" 800];
       size := 4; minKey := "order:1"; maxKey := "user:3" |};
    {| id := 3700; level := 0;
       entries := [sampleEntry "order:2" "Burger" 1600; sampleEntry "order:3" "Sushi" 2400;
                   sampleEntry "user:1" "Alicia" 2000; sampleEntry "user:4" "Diana" 2800];
       size := 4; minKey := "order:2"; maxKey := "user:4" |} ].

Definition threeWrites : State :=
  write codeOrder "user:3" "Charlie" 800
    (write codeOrder "user:2" "Bob" 400
       (write codeOrder "user:1" "Alice" 0 initialState)).

(** *** Reading, and the tables of a run *)

(** The comparator [(a, b) => a.level - b.level]. *)
Definition byLevel (a b : SSTable) : Z := (Z.of_nat (level a) - Z.of_nat (level b))%Z.

(** [l.find(e => e.key === key)]. *)
Definition findEntry (k : string) (l : list MemTableEntry) : option MemTableEntry :=
  List.find (fun e => bool_decide (key e = k)) l.

(** The loop of [read] over the tables in level order. *)
Fixpoint readTables (k : string) (sortedTables : list SSTable) : option string :=
  match sortedTables with
  | [] => None
  | table :: rest =>
      match findEntry k (entries table) with
      | Some entry => Some (value entry)
      | None => readTables k rest
      end
  end.

(** [read(key)] by the closure of a render whose state is [st]: the value
    returned, [None] for [null].  Besides, [read] only moves the highlight
    and writes the activity log. *)
Definition read (k : string) (st : State) : option string :=
  match findEntry k (memtable st) with
  | Some memEntry => Some (value memEntry)
  | None => readTables k (js_sort byLevel (sstables st))
  end.

(** [getTablesByLevel()]: a [Map] from level to the tables of that level,
    its keys in the order in which the levels first occur. *)
Definition pushTable (levels : list (nat * list SSTable)) (t : SSTable)
  : list (nat * list SSTable) :=
  let levels :=
    if existsb (fun p => p.1 =? level t) levels then levels
    else levels ++ [(level t, [])] in
  (fun p => if p.1 =? level t then (p.1, p.2 ++ [t]) else p) <$> levels.

Definition getTablesByLevel (st : State) : list (nat * list SSTable) :=
  foldl pushTable [] (sstables st).

(** [tablesByLevel.get(level)]. *)
Definition levels_get (lvl : nat) (levels : list (nat * list SSTable))
  : option (list SSTable) :=
  snd <$> List.find (fun p => p.1 =? lvl) levels.

(** [Math.max(0, ...Array.from(tablesByLevel.keys()))]. *)
Definition maxLevel (st : State) : nat :=
  foldr Nat.max 0 (fst <$> getTablesByLevel st).

Section TableShape.
Variable localeCompare : string -> string -> Z.




End TableShape.

(** An entry stems from a write of the run. *)
Definition written (evs : list Event) (e : MemTableEntry) : Prop :=
  WriteEvent (key e) (value e) (timestamp e) ∈ evs.

Definition timerEntries (t : Timer) : list MemTableEntry :=
  match t with
  | FlushTimer flushed => flushed
  | CompactTimer _ tables => concat (entries <$> tables)
  | CompactDoneTimer _ newTables => concat (entries <$> newTables)
  end.

(** Every entry the state holds, in the memtable, in a table or in the
    closure of a pending timer, satisfies [Q]. *)
Definition holdsOnly (Q : MemTableEntry -> Prop) (st : State) : Prop :=
  Forall Q (memtable st) /\
  Forall (fun t => Forall Q (entries t)) (sstables st) /\
  Forall (fun t => Forall Q (timerEntries t)) (timers st).

Definition isWrite (ev : Event) : bool :=
  match ev with
  | WriteEvent _ _ _ => true
  | TimerEvent _ _ => false
  end.

(** A memtable that has reached its capacity has its flush pending. *)
Definition flushPending (st : State) : Prop :=
  MAX_MEMTABLE_SIZE <= length (memtable st) -> FlushTimer (memtable st) ∈ timers st.

(** The first four writes of the sample data, and the same followed by the
    flush they schedule. *)
Definition fourWrites : list Event :=
  [ WriteEvent "user:1" "Alice" 0; WriteEvent "user:2" "Bob" 400;
    WriteEvent "user:3" "Charlie" 800; WriteEvent "order:1" "Pizza" 1200 ].

Definition fourWritesFlushed : list Event := fourWrites ++ [TimerEvent 0 1700].

(** Some table of the list holds an entry with the key. *)
Definition holdsKey (k : string) (tables : list SSTable) : Prop :=
  exists t e, t ∈ tables /\ e ∈ entries t /\ key e = k.

(** *** The entry map of a compaction *)

Lemma map_get_set k k' e m :
  map_get k (map_set k' e m) = if decide (k' = k) then Some e else map_get k m.
Proof.
  induction m as [|[k0 e0] m IH]; simpl.
  - done.
  - destruct (String.eqb_spec k0 k') as [->|Hne]; simpl.
    + by repeat case_decide.
    + rewrite IH. repeat case_decide; congruence.
Qed.

Lemma map_set_keys k e m :
  (map_set k e m).*1 = if decide (k ∈ m.*1) then m.*1 else m.*1 ++ [k].
Proof.
  induction m as [|[k0 e0] m IH].
  - destruct (decide (k ∈ ([] : list (string * MemTableEntry)).*1)) as [H|H]; [|done].
    by apply elem_of_nil in H.
  - cbn [map_set]. destruct (String.eqb_spec k0 k) as [->|Hne].
    + rewrite decide_True; [done|]. by left.
    + rewrite fmap_cons, IH. cbn [fst fmap list_fmap].
      destruct (decide (k ∈ m.*1)) as [H|H].
      * rewrite decide_True; [done|]. by right.
      * rewrite decide_False; [done|].
        intros [->|?]%elem_of_cons; done.
Qed.

Lemma map_set_NoDup k e m : NoDup m.*1 -> NoDup (map_set k e m).*1.
Proof.
  intros Hnd. rewrite map_set_keys. case_decide as H; [done|].
  apply NoDup_app. split_and!; [done| |apply NoDup_singleton].
  intros x Hx ->%list_elem_of_singleton. done.
Qed.

Lemma map_set_keyed e m : keyed m -> keyed (map_set (key e) e m).
Proof.
  unfold keyed. induction 1 as [|[k0 e0] m Hp Hm IH]; simpl.
  - by repeat constructor.
  - destruct (String.eqb_spec k0 (key e)) as [->|Hne]; by constructor.
Qed.

Lemma buildEntryMap_NoDup l : forall m, NoDup m.*1 -> NoDup (buildEntryMap m l).*1.
Proof.
  induction l as [|e l IH]; intros m Hm; simpl; [done|].
  by apply IH, map_set_NoDup.
Qed.

Lemma buildEntryMap_keyed l : forall m, keyed m -> keyed (buildEntryMap m l).
Proof.
  induction l as [|e l IH]; intros m Hm; simpl; [done|].
  by apply IH, map_set_keyed.
Qed.

Lemma map_get_buildEntryMap k l : forall m,
  map_get k (buildEntryMap m l) =
  match last (filter (fun e => key e = k) l) with
  | Some e => Some e
  | None => map_get k m
  end.
Proof.
  induction l as [|e l IH]; intros m; simpl; [done|].
  rewrite IH, map_get_set, filter_cons.
  case_decide as H.
  - rewrite last_cons. by destruct (last (filter _ l)).
  - done.
Qed.

Lemma map_get_Some_elem k e m : map_get k m = Some e -> (k, e) ∈ m.
Proof.
  induction m as [|[k0 e0] m IH]; simpl; [done|].
  case_decide as H.
  - intros [= ->]. subst. by left.
  - intros ?. right. by apply IH.
Qed.

Lemma elem_map_get k e m : NoDup m.*1 -> (k, e) ∈ m -> map_get k m = Some e.
Proof.
  induction m as [|[k0 e0] m IH]; simpl; intros Hnd Hin.
  - by apply elem_of_nil in Hin.
  - apply NoDup_cons in Hnd as [Hk0 Hnd].
    apply elem_of_cons in Hin as [[= -> ->]|Hin].
    + by rewrite decide_True.
    + rewrite decide_False; [by apply IH|].
      intros ->. apply Hk0. apply list_elem_of_fmap. by exists (k, e).
Qed.

(** What the map built from a list holds: for each key of the list, the last
    entry of the list with that key. *)
Lemma buildEntryMap_spec l e :
  e ∈ map_values (buildEntryMap [] l) <->
  last (filter (fun e' => key e' = key e) l) = Some e.
Proof.
  pose proof (buildEntryMap_NoDup l [] (NoDup_nil_2)) as Hnd.
  pose proof (buildEntryMap_keyed l [] (Forall_nil_2 _)) as Hk.
  unfold map_values. rewrite list_elem_of_fmap. split.
  - intros ([k e'] & -> & Hin). simpl.
    unfold keyed in Hk. rewrite Forall_forall in Hk.
    pose proof (Hk _ Hin) as Hke. simpl in Hke. subst k.
    apply (elem_map_get _ _ _ Hnd) in Hin.
    rewrite map_get_buildEntryMap in Hin. simpl in Hin.
    by destruct (last _).
  - intros Hlast. exists (key e, e). split; [done|].
    apply map_get_Some_elem. rewrite map_get_buildEntryMap. by rewrite Hlast.
Qed.


(** *** Merging and ordering *)

Section CollationFacts.
Variable localeCompare : string -> string -> Z.

Lemma byTimestamp_total a b : cmp_le byTimestamp a b \/ cmp_le byTimestamp b a.
Proof. unfold cmp_le, byTimestamp. lia. Qed.

Lemma byTimestamp_trans a b c :
  cmp_le byTimestamp a b -> cmp_le byTimestamp b c -> cmp_le byTimestamp a c.
Proof. unfold cmp_le, byTimestamp. lia. Qed.

Lemma mergeEntries_eq T :
  mergeEntries localeCompare T =
  js_sort (byKey localeCompare)
    (map_values (buildEntryMap [] (js_sort byTimestamp (concat (entries <$> T))))).
Proof. reflexivity. Qed.

Lemma mergeEntries_latest T e :
  e ∈ mergeEntries localeCompare T ->
  e ∈ concat (entries <$> T) /\
  forall e', e' ∈ concat (entries <$> T) -> key e' = key e ->
    (timestamp e' <= timestamp e)%Z.
Proof.
  rewrite mergeEntries_eq, js_sort_perm, buildEntryMap_spec.
  set (S := js_sort byTimestamp (concat (entries <$> T))).
  intros Hlast.
  assert (e ∈ filter (fun e' => key e' = key e) S) as Hin.
  { by apply last_Some_elem_of. }
  apply list_elem_of_filter in Hin as [_ Hin].
  split.
  - unfold S in Hin. by rewrite js_sort_perm in Hin.
  - intros e' He' Hk.
    assert (StronglySorted (cmp_le byTimestamp) (filter (fun e' => key e' = key e) S)) as Hs.
    { apply StronglySorted_filter, js_sort_StronglySorted.
      - apply byTimestamp_total.
      - apply byTimestamp_trans. }
    destruct (StronglySorted_last _ _ _ Hs Hlast e') as [->|Hle].
    + apply list_elem_of_filter. split; [done|]. unfold S. by rewrite js_sort_perm.
    + lia.
    + unfold cmp_le, byTimestamp in Hle. lia.
Qed.

Lemma mergeEntries_covers T e' :
  e' ∈ concat (entries <$> T) ->
  exists e, e ∈ mergeEntries localeCompare T /\ key e = key e'.
Proof.
  intros He'. set (S := js_sort byTimestamp (concat (entries <$> T))).
  assert (e' ∈ filter (fun e => key e = key e') S) as Hin.
  { apply list_elem_of_filter. split; [done|]. unfold S. by rewrite js_sort_perm. }
  destruct (last (filter (fun e => key e = key e') S)) as [e|] eqn:Hlast.
  2:{ apply last_None in Hlast. rewrite Hlast in Hin. by apply elem_of_nil in Hin. }
  assert (key e = key e') as Hk.
  { apply last_Some_elem_of, list_elem_of_filter in Hlast. tauto. }
  exists e. split; [|done].
  rewrite mergeEntries_eq, js_sort_perm, buildEntryMap_spec. by rewrite Hk.
Qed.



End CollationFacts.

(** *** The properties of the widget *)

Section Properties.
Variable localeCompare : string -> string -> Z.


(** C6.  A write that brings the memtable to [MAX_MEMTABLE_SIZE] entries
    schedules a flush of exactly these entries.  When that flush runs, in
    whatever state [st2] the widget is by then, it appends a level-0 table
    with these entries, [minKey] the key of the first and [maxKey] the key of
    the last, empties the memtable, and schedules [compact(0, ...)] on the
    tables as they then are if level 0 holds at least two of them. *)
Theorem write_fills_memtable_then_flush
    (st : State) (k v : string) (now : Z) (st2 : State) (now2 : Z) :
  let st1 := write localeCompare k v now st in
  let flushed := memtable st1 in
  let st3 := flushMemtable flushed now2 st2 in
  length flushed = MAX_MEMTABLE_SIZE ->
  timers st1 = timers st ++ [FlushTimer flushed] /\
  (exists first last_ newSSTable,
     head flushed = Some first /\ last flushed = Some last_ /\
     sstables st3 = sstables st2 ++ [newSSTable] /\
     level newSSTable = 0 /\
     entries newSSTable = flushed /\
     size newSSTable = MAX_MEMTABLE_SIZE /\
     minKey newSSTable = key first /\
     maxKey newSSTable = key last_) /\
  memtable st3 = [] /\
  (if 2 <=? length (filter (fun t => level t = 0) (sstables st3))
   then timers st3 = timers st2 ++ [CompactTimer 0 (sstables st3)]
   else timers st3 = timers st2).
Proof.
  intros st1 flushed st3 Hlen.
  split.
  - unfold st1, write. cbn [timers]. fold st1. cbn [memtable] in flushed.
    change (memtable st1) with flushed. unfold write in flushed. cbn in flushed.
    fold flushed. rewrite Hlen. done.
  - unfold st3, flushMemtable. rewrite Hlen. cbn [Nat.eqb MAX_MEMTABLE_SIZE].
    cbn [sstables memtable timers].
    split_and!; [|done|by destruct (2 <=? _)].
    destruct flushed as [|first rest] eqn:Ef; [done|].
    destruct (last (first :: rest)) as [last_|] eqn:El.
    2:{ by apply last_None in El. }
    exists first, last_. eexists. split_and!; try done.
    cbn [maxKey]. unfold lastKey. by rewrite El.
Qed.


Lemma run_snoc evs ev :
  run localeCompare (evs ++ [ev]) = step localeCompare (run localeCompare evs) ev.
Proof. unfold run. by rewrite foldl_app. Qed.





End Properties.

(** *** The collation of the examples *)




Lemma write_fills_memtable_then_flush_sample :
  timers (write codeOrder "order:1" "Pizza" 1200 threeWrites) =
    [FlushTimer (memtable (write codeOrder "order:1" "Pizza" 1200 threeWrites))] /\
  memtable
    (flushMemtable (memtable (write codeOrder "order:1" "Pizza" 1200 threeWrites)) 1700
       (write codeOrder "order:1" "Pizza" 1200 threeWrites)) = [].
Proof.
  destruct (write_fills_memtable_then_flush codeOrder threeWrites "order:1" "Pizza" 1200
              (write codeOrder "order:1" "Pizza" 1200 threeWrites) 1700)
    as (Htimers & _ & Hempty & _).
  - reflexivity.
  - split; [exact Htimers|exact Hempty].
Defined.


(** *** Reads, the tables of a run and the timers: proofs *)

Lemma find_unique {A} (p : A -> bool) (l : list A) x :
  x ∈ l -> p x = true -> (forall y, y ∈ l -> p y = true -> y = x) ->
  List.find p l = Some x.
Proof.
  induction l as [|a l IH]; intros Hx Hp Huniq; [by apply elem_of_nil in Hx|].
  simpl. destruct (p a) eqn:Ea.
  - f_equal. apply Huniq; [by left|done].
  - apply IH; [|done|].
    + apply elem_of_cons in Hx as [->|Hx]; [congruence|done].
    + intros y Hy. apply Huniq. by right.
Qed.

Lemma find_None_iff {A} (p : A -> bool) (l : list A) :
  List.find p l = None <-> forall x, x ∈ l -> p x = false.
Proof.
  induction l as [|a l IH]; simpl.
  - split; [by intros _ x ?%elem_of_nil|done].
  - destruct (p a) eqn:Ea.
    + split; [done|]. intros H. specialize (H a). rewrite Ea in H.
      assert (true = false) by (apply H; by left). done.
    + rewrite IH. split.
      * intros H x [->|Hx]%elem_of_cons; auto.
      * intros H x Hx. apply H. by right.
Qed.

Lemma find_Some_elem {A} (p : A -> bool) (l : list A) x :
  List.find p l = Some x -> x ∈ l /\ p x = true.
Proof.
  induction l as [|a l IH]; simpl; [done|].
  destruct (p a) eqn:Ea.
  - intros [= <-]. split; [by left|done].
  - intros H. destruct (IH H). split; [by right|done].
Qed.

Lemma findEntry_None k l :
  findEntry k l = None <-> forall e, e ∈ l -> key e <> k.
Proof.
  unfold findEntry. rewrite find_None_iff. split; intros H e He.
  - specialize (H e He). by apply bool_decide_eq_false in H.
  - apply bool_decide_eq_false. by apply H.
Qed.

Lemma findEntry_Some k l e :
  findEntry k l = Some e -> e ∈ l /\ key e = k.
Proof.
  intros [He Hk]%find_Some_elem. split; [done|]. by apply bool_decide_eq_true in Hk.
Qed.

Lemma readTables_None k tables :
  readTables k tables = None <->
  forall t e, t ∈ tables -> e ∈ entries t -> key e <> k.
Proof.
  induction tables as [|t tables IH]; simpl.
  - split; [by intros _ t e ?%elem_of_nil|done].
  - destruct (findEntry k (entries t)) as [e|] eqn:E.
    + split; [done|]. intros H. apply findEntry_Some in E as [He Hk].
      exfalso. eapply H; [by left|done|done].
    + rewrite IH. rewrite findEntry_None in E. split.
      * intros H t' e' [->|Ht']%elem_of_cons; eauto.
      * intros H t' e' Ht'. apply H. by right.
Qed.

Lemma readTables_Some k tables v :
  readTables k tables = Some v ->
  exists pre t post e,
    tables = pre ++ t :: post /\ e ∈ entries t /\ key e = k /\ value e = v /\
    forall t' e', t' ∈ pre -> e' ∈ entries t' -> key e' <> k.
Proof.
  induction tables as [|t tables IH]; simpl; [done|].
  destruct (findEntry k (entries t)) as [e|] eqn:E.
  - intros [= <-]. apply findEntry_Some in E as [He Hk].
    exists [], t, tables, e. split_and!; try done. by intros t' e' ?%elem_of_nil.
  - intros H. destruct (IH H) as (pre & t0 & post & e & -> & He & Hk & Hv & Hpre).
    exists (t :: pre), t0, post, e. split_and!; try done.
    intros t' e' [->|Ht']%elem_of_cons; [|by eauto].
    rewrite findEntry_None in E. by apply E.
Qed.

Lemma js_sort_byLevel_sorted l :
  StronglySorted (fun a b => level a <= level b) (js_sort byLevel l).
Proof.
  assert (forall a b, cmp_le byLevel a b <-> level a <= level b) as Hle.
  { intros a b. unfold cmp_le, byLevel. lia. }
  rewrite <-(list_fmap_id (js_sort byLevel l)).
  apply (StronglySorted_fmap Datatypes.id (cmp_le byLevel)); [intros a b; apply Hle|].
  apply js_sort_StronglySorted.
  - intros a b. rewrite !Hle. lia.
  - intros a b c. rewrite !Hle. lia.
Qed.

Section ReadFacts.
Variable localeCompare : string -> string -> Z.

(** X8.  Read your own write: right after [write(k, v)], [read(k)] returns
    [v], whatever the memtable and the SSTables held before. *)
Theorem read_returns_the_value_just_written (st : State) (k v : string) (now : Z) :
  read k (write localeCompare k v now st) = Some v.
Proof.
  unfold read, write. cbn [memtable].
  set (entry := {| key := k; value := v; timestamp := now |}).
  assert (findEntry k (js_sort (byKey localeCompare)
            (filter (fun e => key e <> k) (memtable st) ++ [entry])) = Some entry) as ->;
    [|done].
  apply find_unique.
  - rewrite js_sort_perm. apply elem_of_app. right. by left.
  - by apply bool_decide_eq_true.
  - intros y Hy Hk. apply bool_decide_eq_true in Hk.
    rewrite js_sort_perm in Hy. apply elem_of_app in Hy as [Hy|Hy].
    + apply list_elem_of_filter in Hy as [Hne _]. done.
    + by apply list_elem_of_singleton in Hy.
Qed.

End ReadFacts.

(** X9.  [read(k)] returns [null] exactly when no entry of the memtable and
    no entry of any SSTable has the key [k]. *)
Theorem read_misses_exactly_the_absent_keys (st : State) (k : string) :
  read k st = None <->
  (forall e, e ∈ memtable st -> key e <> k) /\
  (forall t e, t ∈ sstables st -> e ∈ entries t -> key e <> k).
Proof.
  unfold read. destruct (findEntry k (memtable st)) as [e|] eqn:E.
  - split; [done|]. intros [H _]. apply findEntry_Some in E as [He Hk].
    exfalso. by eapply H.
  - rewrite readTables_None. rewrite findEntry_None in E. split.
    + intros H. split; [done|]. intros t e Ht. apply H. by rewrite js_sort_perm.
    + intros [_ H] t e Ht. apply H. by rewrite js_sort_perm in Ht.
Qed.

Lemma read_Some_inv (st : State) (k v : string) :
  read k st = Some v ->
  (exists e, e ∈ memtable st /\ key e = k /\ value e = v) \/
  ((forall e, e ∈ memtable st -> key e <> k) /\
   exists t e,
     t ∈ sstables st /\ e ∈ entries t /\ key e = k /\ value e = v /\
     forall t' e', t' ∈ sstables st -> level t' < level t ->
       e' ∈ entries t' -> key e' <> k).
Proof.
  unfold read. destruct (findEntry k (memtable st)) as [e|] eqn:E.
  - intros [= <-]. left. apply findEntry_Some in E as [He Hk]. eauto.
  - intros H. right. rewrite findEntry_None in E. split; [done|].
    apply readTables_Some in H as (pre & t & post & e & Hsplit & He & Hk & Hv & Hpre).
    pose proof (js_sort_byLevel_sorted (sstables st)) as Hsorted.
    pose proof (js_sort_perm byLevel (sstables st)) as Hperm.
    rewrite Hsplit in Hsorted, Hperm.
    exists t, e. split_and!; try done.
    + rewrite <-Hperm. apply elem_of_app. right. by left.
    + intros t' e' Ht' Hlvl He'. rewrite <-Hperm in Ht'.
      apply elem_of_app in Ht' as [Ht'|Ht']; [by eapply Hpre|].
      apply StronglySorted_app_1_r, StronglySorted_cons in Hsorted as [Hall _].
      rewrite Forall_forall in Hall.
      apply elem_of_cons in Ht' as [->|Ht']; [lia|].
      specialize (Hall t' Ht'). lia.
Qed.

(** X10.  What [read(k)] returns comes from the memtable if the key is
    there, and otherwise from an SSTable of the lowest level that holds the
    key. *)
Theorem read_prefers_memtable_then_lowest_level (st : State) (k v : string) :
  read k st = Some v ->
  (exists e, e ∈ memtable st /\ key e = k /\ value e = v) \/
  ((forall e, e ∈ memtable st -> key e <> k) /\
   exists t e,
     t ∈ sstables st /\ e ∈ entries t /\ key e = k /\ value e = v /\
     forall t' e', t' ∈ sstables st -> level t' < level t ->
       e' ∈ entries t' -> key e' <> k).
Proof. apply read_Some_inv. Qed.

Section TableFacts.
Variable localeCompare : string -> string -> Z.

Lemma Forall_filter_keep {A} (P Q : A -> Prop) `{!forall x, Decision (Q x)} (l : list A) :
  Forall P l -> Forall P (filter Q l).
Proof.
  rewrite !Forall_forall. intros Hall x [_ Hx]%list_elem_of_filter. by apply Hall.
Qed.



Lemma minTables_eq lvl :
  (if lvl =? 0 then 2 else getMaxTablesAtLevel lvl) = getMaxTablesAtLevel lvl.
Proof. unfold getMaxTablesAtLevel. by destruct (lvl =? 0). Qed.











Lemma compact_holdsOnly Q lvl tables now st :
  Forall (fun t => Forall Q (entries t)) tables ->
  holdsOnly Q st -> holdsOnly Q (compact localeCompare lvl tables now st).
Proof.
  intros Hok (Hm & Hts & Htm). unfold compact.
  destruct (_ <? _); [done|].
  assert (Forall (fun t => Forall Q (entries t))
            (filter (fun t => level t <> lvl) tables ++
             [{| id := now; level := lvl + 1;
                 entries := mergeEntries localeCompare (filter (fun t => level t = lvl) tables);
                 size := length (mergeEntries localeCompare
                                   (filter (fun t => level t = lvl) tables));
                 minKey := firstKey (mergeEntries localeCompare
                                       (filter (fun t => level t = lvl) tables));
                 maxKey := lastKey (mergeEntries localeCompare
                                      (filter (fun t => level t = lvl) tables)) |}])) as Hnew.
  { apply Forall_app. split; [by apply Forall_filter_keep|]. constructor; [|constructor].
    cbn [entries]. apply Forall_forall. intros e [He _]%mergeEntries_latest.
    revert e He. apply Forall_forall, Forall_concat, Forall_fmap.
    by apply Forall_filter_keep. }
  split_and!; cbn [memtable sstables timers]; [done|done|].
  apply Forall_app. split; [done|]. constructor; [|constructor].
  cbn [timerEntries]. by apply Forall_concat, Forall_fmap.
Qed.

Lemma compactDone_holdsOnly Q lvl newTables st :
  Forall (fun t => Forall Q (entries t)) newTables ->
  holdsOnly Q st -> holdsOnly Q (compactDone lvl newTables st).
Proof.
  intros Hok (Hm & Hts & Htm). unfold compactDone.
  split_and!; cbn [memtable sstables timers]; [done|done|].
  destruct (_ <=? _); [|done]. apply Forall_app. split; [done|].
  constructor; [|constructor]. cbn [timerEntries]. by apply Forall_concat, Forall_fmap.
Qed.

Lemma flushMemtable_holdsOnly Q flushed now st :
  Forall Q flushed -> holdsOnly Q st -> holdsOnly Q (flushMemtable flushed now st).
Proof.
  intros Hok (Hm & Hts & Htm). unfold flushMemtable.
  destruct (length flushed =? 0); [done|].
  assert (Forall (fun t => Forall Q (entries t))
            (sstables st ++
             [{| id := now; level := 0; entries := flushed; size := length flushed;
                 minKey := firstKey flushed; maxKey := lastKey flushed |}])) as Hnew.
  { apply Forall_app. split; [done|]. by repeat constructor. }
  split_and!; cbn [memtable sstables timers]; [constructor|done|].
  destruct (_ <=? _); [|done]. apply Forall_app. split; [done|].
  constructor; [|constructor]. cbn [timerEntries]. by apply Forall_concat, Forall_fmap.
Qed.

Lemma write_holdsOnly Q k v now st :
  Q {| key := k; value := v; timestamp := now |} ->
  holdsOnly Q st -> holdsOnly Q (write localeCompare k v now st).
Proof.
  intros Hq (Hm & Hts & Htm). unfold write.
  assert (Forall Q (js_sort (byKey localeCompare)
            (filter (fun e => key e <> k) (memtable st) ++
             [{| key := k; value := v; timestamp := now |}]))) as Hnew.
  { rewrite js_sort_perm. apply Forall_app. split; [by apply Forall_filter_keep|].
    by repeat constructor. }
  split_and!; cbn [memtable sstables timers]; [done|done|].
  destruct (_ <=? _); [|done]. apply Forall_app. split; [done|]. by repeat constructor.
Qed.

Lemma step_holdsOnly Q st ev :
  (forall k v now, ev = WriteEvent k v now ->
     Q {| key := k; value := v; timestamp := now |}) ->
  holdsOnly Q st -> holdsOnly Q (step localeCompare st ev).
Proof.
  intros Hq Hh. destruct ev as [k v now|i now]; simpl.
  - apply write_holdsOnly; [by apply Hq|done].
  - destruct (timers st !! i) as [t|] eqn:Et; [|done].
    destruct Hh as (Hm & Hts & Htm).
    pose proof (proj1 (Forall_lookup _ _) Htm i t Et) as Ht. simpl in Ht.
    assert (holdsOnly Q (withTimers (delete i (timers st)) st)) as Hh'.
    { split_and!; [done|done|]. cbn [timers withTimers]. by apply Forall_delete. }
    destruct t as [flushed|lvl tables|lvl newTables]; cbn [fire timerEntries] in *.
    + by apply flushMemtable_holdsOnly.
    + apply compact_holdsOnly; [|done]. by apply Forall_fmap, Forall_concat.
    + apply compactDone_holdsOnly; [|done]. by apply Forall_fmap, Forall_concat.
Qed.

Lemma run_holdsOnly_written evs :
  holdsOnly (written evs) (run localeCompare evs).
Proof.
  induction evs as [|ev evs IH] using rev_ind.
  - by split_and!; constructor.
  - rewrite run_snoc. apply step_holdsOnly.
    + intros k v now ->. unfold written. simpl. apply elem_of_app. right. by left.
    + destruct IH as (Hm & Hts & Htm).
      assert (forall e, written evs e -> written (evs ++ [ev]) e) as Hmono.
      { intros e He. unfold written in *. apply elem_of_app. by left. }
      split_and!.
      * eapply Forall_impl; [exact Hm|done].
      * eapply Forall_impl; [exact Hts|]. intros t Ht. simpl in *.
        eapply Forall_impl; [exact Ht|done].
      * eapply Forall_impl; [exact Htm|]. intros t Ht. simpl in *.
        eapply Forall_impl; [exact Ht|done].
Qed.

(** X12.  A read never makes a value up: what [read(k)] returns after any
    writes and timers is the value of a [write(k, v)] of that run. *)
Theorem read_returns_only_written_values (evs : list Event) (k v : string) :
  read k (run localeCompare evs) = Some v ->
  exists now, WriteEvent k v now ∈ evs.
Proof.
  intros Hread. destruct (run_holdsOnly_written evs) as (Hm & Hts & _).
  rewrite Forall_forall in Hm. rewrite Forall_forall in Hts.
  apply read_Some_inv in Hread
    as [(e & He & <- & <-) | (_ & t & e & Ht & He & <- & <- & _)].
  - exists (timestamp e). by apply Hm.
  - exists (timestamp e). specialize (Hts t Ht). simpl in Hts.
    rewrite Forall_forall in Hts. by apply Hts.
Qed.

Lemma elem_of_delete_other {A} (l : list A) i x y :
  l !! i = Some y -> x ∈ l -> x <> y -> x ∈ delete i l.
Proof.
  intros Hi Hx Hne. apply list_elem_of_lookup in Hx as [j Hj].
  destruct (decide (j = i)) as [->|Hji]; [congruence|].
  apply list_elem_of_lookup.
  destruct (decide (j < i)).
  - exists j. by rewrite list_lookup_delete_lt.
  - exists (j - 1). rewrite list_lookup_delete_ge by lia.
    by replace (S (j - 1)) with j by lia.
Qed.

Lemma step_flushPending st ev :
  flushPending st -> flushPending (step localeCompare st ev).
Proof.
  unfold flushPending. intros Hp.
  destruct ev as [k v now|i now]; cbn [step].
  - unfold write. cbn [memtable timers]. intros Hlen.
    destruct (MAX_MEMTABLE_SIZE <=? _) eqn:E; [|apply Nat.leb_gt in E; lia].
    apply elem_of_app. right. by left.
  - destruct (timers st !! i) as [t|] eqn:Et; [|done].
    destruct t as [flushed|lvl tables|lvl newTables]; cbn [fire].
    + unfold flushMemtable. destruct (length flushed =? 0) eqn:E.
      * cbn [memtable timers withTimers]. intros Hlen.
        apply (elem_of_delete_other _ _ _ _ Et); [by apply Hp|].
        apply Nat.eqb_eq in E. intros [= Heq]. rewrite <-Heq in E.
        unfold MAX_MEMTABLE_SIZE in Hlen. lia.
      * cbn [memtable]. unfold MAX_MEMTABLE_SIZE. simpl. lia.
    + unfold compact. destruct (_ <? _); cbn [memtable timers withTimers]; intros Hlen.
      * apply (elem_of_delete_other _ _ _ _ Et); [by apply Hp|done].
      * apply elem_of_app. left.
        apply (elem_of_delete_other _ _ _ _ Et); [by apply Hp|done].
    + unfold compactDone. cbn [memtable timers withTimers]. intros Hlen.
      assert (FlushTimer (memtable st) ∈ delete i (timers st)) as Hin.
      { apply (elem_of_delete_other _ _ _ _ Et); [by apply Hp|done]. }
      destruct (_ <=? _); [|done]. apply elem_of_app. by left.
Qed.

(** X13.  Whenever the memtable holds [MAX_MEMTABLE_SIZE] entries or more,
    after any writes and timers, a flush of exactly its entries is among the
    pending timers. *)
Theorem full_memtable_has_its_flush_pending (evs : list Event) :
  let st := run localeCompare evs in
  MAX_MEMTABLE_SIZE <= length (memtable st) -> FlushTimer (memtable st) ∈ timers st.
Proof.
  cbv zeta. induction evs as [|ev evs IH] using rev_ind.
  - unfold MAX_MEMTABLE_SIZE. simpl. lia.
  - rewrite run_snoc. by apply step_flushPending.
Qed.


Lemma fire_writeCount t now st :
  writeCount (fire localeCompare t now st) = writeCount st.
Proof.
  destruct t as [flushed|lvl tables|lvl newTables]; simpl.
  - unfold flushMemtable. by destruct (_ =? _).
  - unfold compact. by destruct (_ <? _).
  - done.
Qed.

(** X15.  The write counter counts the writes: after any writes and timers
    it is the number of writes among them. *)
Theorem writeCount_counts_the_writes (evs : list Event) :
  writeCount (run localeCompare evs) = length (List.filter isWrite evs).
Proof.
  induction evs as [|ev evs IH] using rev_ind; [done|].
  rewrite run_snoc, List.filter_app, length_app.
  destruct ev as [k v now|i now]; simpl.
  - rewrite IH. done.
  - destruct (timers _ !! i); [|lia]. rewrite fire_writeCount. simpl. lia.
Qed.

Lemma elem_of_concat_entries e (T : list SSTable) :
  e ∈ concat (entries <$> T) <-> exists t, t ∈ T /\ e ∈ entries t.
Proof.
  induction T as [|t T IH]; simpl.
  - split; [by intros ?%elem_of_nil|by intros (t & ?%elem_of_nil & _)].
  - rewrite elem_of_app, IH. split.
    + intros [He|(t' & Ht' & He)]; [exists t|exists t']; split; try done;
        [by left|by right].
    + intros (t' & [->|Ht']%elem_of_cons & He); eauto.
Qed.

(** X26.  A compaction that finds its level full neither loses nor invents
    a key: the tables it leaves hold an entry for a key exactly when the
    tables it was given did. *)
Theorem compaction_keeps_the_keys (lvl : nat) (tables : list SSTable) (now : Z)
    (st : State) (k : string) :
  getMaxTablesAtLevel lvl <= length (filter (fun t => level t = lvl) tables) ->
  holdsKey k (sstables (compact localeCompare lvl tables now st)) <-> holdsKey k tables.
Proof.
  intros Hfull. unfold compact. rewrite minTables_eq.
  destruct (_ <? _) eqn:E; [apply Nat.ltb_lt in E; lia|]. cbn [sstables].
  set (merged := filter (fun t => level t = lvl) tables).
  unfold holdsKey. split.
  - intros (t & e & Ht & He & Hk). apply elem_of_app in Ht as [Ht|Ht].
    + apply list_elem_of_filter in Ht as [_ Ht]. by exists t, e.
    + apply list_elem_of_singleton in Ht as ->. cbn [entries] in He.
      apply mergeEntries_latest in He as [He _].
      apply elem_of_concat_entries in He as (t & Ht & He).
      apply list_elem_of_filter in Ht as [_ Ht]. by exists t, e.
  - intros (t & e & Ht & He & Hk). destruct (decide (level t = lvl)) as [Hl|Hl].
    + destruct (mergeEntries_covers localeCompare merged e) as (e' & He' & Hk').
      { apply elem_of_concat_entries. exists t. split; [|done].
        by apply list_elem_of_filter. }
      eexists _, e'. split; [apply elem_of_app; right; by left|].
      split; [exact He'|congruence].
    + exists t, e. split; [|done]. apply elem_of_app. left.
      by apply list_elem_of_filter.
Qed.

End TableFacts.

Lemma find_fmap_keep {A} (p : A -> bool) (f : A -> A) (l : list A) :
  (forall x, p (f x) = p x) -> List.find p (f <$> l) = f <$> List.find p l.
Proof.
  intros Hp. induction l as [|x l IH]; [done|].
  rewrite fmap_cons. simpl. rewrite Hp. by destruct (p x).
Qed.

Lemma find_snoc {A} (p : A -> bool) (l : list A) x :
  List.find p (l ++ [x]) =
  match List.find p l with
  | Some y => Some y
  | None => if p x then Some x else None
  end.
Proof.
  induction l as [|a l IH]; simpl; [done|]. by destruct (p a).
Qed.

Lemma existsb_find {A} (p : A -> bool) (l : list A) :
  existsb p l = match List.find p l with Some _ => true | None => false end.
Proof. induction l as [|a l IH]; simpl; [done|]. by destruct (p a). Qed.

Lemma levels_get_pushTable lvl levels t :
  levels_get lvl (pushTable levels t) =
  if decide (lvl = level t) then Some (default [] (levels_get lvl levels) ++ [t])
  else levels_get lvl levels.
Proof.
  unfold levels_get, pushTable.
  rewrite find_fmap_keep by (intros [l ts]; simpl; by destruct (l =? level t)).
  rewrite existsb_find.
  destruct (decide (lvl = level t)) as [->|Hne].
  - destruct (List.find (fun p => p.1 =? level t) levels) as [[l ts]|] eqn:E.
    + rewrite E.
      pose proof (find_Some_elem _ _ _ E) as [_ Hl].
      simpl in *.
      by rewrite Hl.
    + rewrite find_snoc, E. simpl. rewrite Nat.eqb_refl. simpl. by rewrite Nat.eqb_refl.
  - assert (List.find (fun p : nat * list SSTable => p.1 =? lvl)
              (if match List.find (fun p => p.1 =? level t) levels with
                  | Some _ => true
                  | None => false
                  end
               then levels else levels ++ [(level t, [])]) =
            List.find (fun p => p.1 =? lvl) levels) as ->.
    { destruct (List.find (fun p => p.1 =? level t) levels); [done|].
      rewrite find_snoc. simpl.
      destruct (List.find _ levels); [done|].
      destruct (level t =? lvl) eqn:E; [|done]. apply Nat.eqb_eq in E. done. }
    destruct (List.find (fun p => p.1 =? lvl) levels) as [[l ts]|] eqn:E; [|done].
    apply find_Some_elem in E as [_ E]. simpl in *. apply Nat.eqb_eq in E. subst l.
    destruct (lvl =? level t) eqn:E'; [|done]. apply Nat.eqb_eq in E'. done.
Qed.

Lemma levels_get_foldl lvl (ts : list SSTable) :
  levels_get lvl (foldl pushTable [] ts) =
  match filter (fun t => level t = lvl) ts with
  | [] => None
  | group => Some group
  end.
Proof.
  induction ts as [|t ts IH] using rev_ind; [done|].
  rewrite foldl_app. simpl. rewrite levels_get_pushTable, IH, filter_app.
  rewrite filter_cons, filter_nil.
  destruct (decide (lvl = level t)) as [->|Hne].
  - rewrite decide_True by done.
    destruct (filter _ ts) as [|a l]; simpl; [done|].
    by destruct (l ++ [t]) eqn:E; [apply app_eq_nil in E as [_ ?]|].
  - rewrite decide_False by done. by rewrite app_nil_r.
Qed.

Lemma levels_get_Some_key lvl (levels : list (nat * list SSTable)) :
  lvl ∈ levels.*1 <-> is_Some (levels_get lvl levels).
Proof.
  unfold levels_get. induction levels as [|[l ts] levels IH]; simpl.
  - split; [by intros ?%elem_of_nil|by intros [? ?]].
  - rewrite elem_of_cons, IH. destruct (l =? lvl) eqn:E; simpl.
    + apply Nat.eqb_eq in E. split; [by eexists|]. intros _. by left.
    + apply Nat.eqb_neq in E. split; [by intros [->|?]|by right].
Qed.

Lemma foldr_max_spec (l : list nat) :
  (forall x, x ∈ l -> x <= foldr Nat.max 0 l) /\
  (foldr Nat.max 0 l = 0 \/ foldr Nat.max 0 l ∈ l).
Proof.
  induction l as [|a l [IH1 IH2]]; cbn [foldr].
  - split; [by intros x ?%elem_of_nil|by left].
  - split.
    + intros x [->|Hx]%elem_of_cons; [lia|]. specialize (IH1 x Hx). lia.
    + right. destruct (Nat.max_spec a (foldr Nat.max 0 l)) as [[Hlt ->]|[_ ->]].
      * destruct IH2 as [Hz|?]; [lia|by right].
      * by left.
Qed.

(** X16.  [getTablesByLevel] groups the tables by level: under each level
    that has tables it lists exactly the tables of that level, in their
    order in [sstables], and a level without tables has no group.  The
    [maxLevel] shown is the greatest level of a table, 0 when there is
    none. *)
Theorem tables_are_grouped_by_level (st : State) :
  (forall lvl,
     levels_get lvl (getTablesByLevel st) =
     match filter (fun t => level t = lvl) (sstables st) with
     | [] => None
     | group => Some group
     end) /\
  (forall t, t ∈ sstables st -> level t <= maxLevel st) /\
  (maxLevel st = 0 \/ exists t, t ∈ sstables st /\ level t = maxLevel st).
Proof.
  assert (forall lvl, lvl ∈ (getTablesByLevel st).*1 <->
                      exists t, t ∈ sstables st /\ level t = lvl) as Hkeys.
  { intros lvl. rewrite levels_get_Some_key. unfold getTablesByLevel.
    rewrite levels_get_foldl.
    destruct (filter _ (sstables st)) as [|a l] eqn:E.
    - split; [by intros [? ?]|]. intros (t & Ht & Hl).
      assert (t ∈ filter (fun t => level t = lvl) (sstables st)) as Hin
        by (by apply list_elem_of_filter).
      rewrite E in Hin. by apply elem_of_nil in Hin.
    - split; [|by eexists]. intros _. exists a.
      assert (a ∈ filter (fun t => level t = lvl) (sstables st)) as Hin
        by (rewrite E; by left).
      apply list_elem_of_filter in Hin as [? ?]. done. }
  destruct (foldr_max_spec (getTablesByLevel st).*1) as [Hle Hmax].
  split_and!.
  - intros lvl. apply levels_get_foldl.
  - intros t Ht. apply Hle. apply Hkeys. eauto.
  - destruct Hmax as [?|Hin]; [by left|]. right. by apply Hkeys.
Qed.

Lemma read_prefers_memtable_sample :
  (exists e, e ∈ memtable threeWrites /\ key e = "user:2" /\ value e = "Bob") \/
  ((forall e, e ∈ memtable threeWrites -> key e <> "user:2") /\
   exists t e,
     t ∈ sstables threeWrites /\ e ∈ entries t /\ key e = "user:2" /\ value e = "Bob" /\
     forall t' e', t' ∈ sstables threeWrites -> level t' < level t ->
       e' ∈ entries t' -> key e' <> "user:2").
Proof.
  apply (read_prefers_memtable_then_lowest_level threeWrites "user:2" "Bob").
  reflexivity.
Defined.


Lemma read_returns_only_written_values_sample :
  exists now, WriteEvent "user:1" "Alice" now ∈ fourWritesFlushed.
Proof.
  apply (read_returns_only_written_values codeOrder fourWritesFlushed "user:1" "Alice").
  reflexivity.
Defined.

Lemma full_memtable_has_its_flush_pending_sample :
  FlushTimer (memtable (run codeOrder fourWrites)) ∈ timers (run codeOrder fourWrites).
Proof.
  apply (full_memtable_has_its_flush_pending codeOrder fourWrites).
  vm_compute. lia.
Defined.

Lemma compaction_keeps_the_keys_sample :
  holdsKey "user:1" (sstables (compact codeOrder 0 sampleTables 4200 initialState)) <->
  holdsKey "user:1" sampleTables.
Proof.
  apply (compaction_keeps_the_keys codeOrder 0 sampleTables 4200 initialState "user:1").
  vm_compute. lia.
Defined.

End LSMTree.

(** ** The write-ahead log widget *)

Module WAL.

Inductive EntryType : Type := BEGIN | WRITE | COMMIT | CHECKPOINT | ABORT.
Inductive Status : Type := active | committed | aborted.

#[global] Instance EntryType_eq_dec : EqDecision EntryType.
Proof. solve_decision. Defined.
#[global] Instance Status_eq_dec : EqDecision Status.
Proof. solve_decision. Defined.

Module LogEntry.
Record t : Type :=
  { lsn : Z;
    type : EntryType;
    txnId : Z;
    table : option string;
    key : option string;
    oldValue : option string;
    newValue : option string;
    timestamp : Z }.
End LogEntry.

Module Transaction.
Record t : Type :=
  { id : Z; status : Status; operations : list LogEntry.t }.
End Transaction.

Module DataPage.
Record t : Type :=
  { key : string; value : string; dirty : bool; lsn : Z }.
End DataPage.

(** The state hooks of the component.  The activity log, which no operation
    reads, is left out. *)
Record State : Type :=
  { wal : list LogEntry.t;
    transactions : list Transaction.t;
    dataPages : list DataPage.t;
    nextLsn : Z;
    nextTxnId : Z;
    isRecovering : bool;
    checkpointLsn : option Z }.

Definition initialPages : list DataPage.t :=
  [ {| DataPage.key := "balance:A"; DataPage.value := "1000";
       DataPage.dirty := false; DataPage.lsn := 0 |};
    {| DataPage.key := "balance:B"; DataPage.value := "500";
       DataPage.dirty := false; DataPage.lsn := 0 |};
    {| DataPage.key := "balance:C"; DataPage.value := "750";
       DataPage.dirty := false; DataPage.lsn := 0 |} ].

Definition initialState : State :=
  {| wal := []; transactions := []; dataPages := initialPages;
     nextLsn := 1; nextTxnId := 1; isRecovering := false; checkpointLsn := None |}.

(** State setters: [setWal], [setTransactions], ... applied to the state as
    it stands when the update runs. *)
Definition setWal (f : list LogEntry.t -> list LogEntry.t) (s : State) : State :=
  {| wal := f (wal s); transactions := transactions s; dataPages := dataPages s;
     nextLsn := nextLsn s; nextTxnId := nextTxnId s;
     isRecovering := isRecovering s; checkpointLsn := checkpointLsn s |}.
Definition setTransactions (f : list Transaction.t -> list Transaction.t) (s : State) : State :=
  {| wal := wal s; transactions := f (transactions s); dataPages := dataPages s;
     nextLsn := nextLsn s; nextTxnId := nextTxnId s;
     isRecovering := isRecovering s; checkpointLsn := checkpointLsn s |}.
Definition setDataPages (f : list DataPage.t -> list DataPage.t) (s : State) : State :=
  {| wal := wal s; transactions := transactions s; dataPages := f (dataPages s);
     nextLsn := nextLsn s; nextTxnId := nextTxnId s;
     isRecovering := isRecovering s; checkpointLsn := checkpointLsn s |}.
Definition setNextLsn (f : Z -> Z) (s : State) : State :=
  {| wal := wal s; transactions := transactions s; dataPages := dataPages s;
     nextLsn := f (nextLsn s); nextTxnId := nextTxnId s;
     isRecovering := isRecovering s; checkpointLsn := checkpointLsn s |}.
Definition setNextTxnId (f : Z -> Z) (s : State) : State :=
  {| wal := wal s; transactions := transactions s; dataPages := dataPages s;
     nextLsn := nextLsn s; nextTxnId := f (nextTxnId s);
     isRecovering := isRecovering s; checkpointLsn := checkpointLsn s |}.
Definition setIsRecovering (b : bool) (s : State) : State :=
  {| wal := wal s; transactions := transactions s; dataPages := dataPages s;
     nextLsn := nextLsn s; nextTxnId := nextTxnId s;
     isRecovering := b; checkpointLsn := checkpointLsn s |}.
Definition setCheckpointLsn (c : option Z) (s : State) : State :=
  {| wal := wal s; transactions := transactions s; dataPages := dataPages s;
     nextLsn := nextLsn s; nextTxnId := nextTxnId s;
     isRecovering := isRecovering s; checkpointLsn := c |}.

(** The argument of [appendWal]: a log entry without [lsn] and [timestamp]. *)
Definition entry (ty : EntryType) (txn : Z) (tbl k old new : option string) : LogEntry.t :=
  {| LogEntry.lsn := 0; LogEntry.type := ty; LogEntry.txnId := txn;
     LogEntry.table := tbl; LogEntry.key := k;
     LogEntry.oldValue := old; LogEntry.newValue := new; LogEntry.timestamp := 0 |}.

Definition withLsn (l : Z) (now : Z) (e : LogEntry.t) : LogEntry.t :=
  {| LogEntry.lsn := l; LogEntry.type := LogEntry.type e;
     LogEntry.txnId := LogEntry.txnId e; LogEntry.table := LogEntry.table e;
     LogEntry.key := LogEntry.key e; LogEntry.oldValue := LogEntry.oldValue e;
     LogEntry.newValue := LogEntry.newValue e; LogEntry.timestamp := now |}.

Definition withStatus (s : Status) (t : Transaction.t) : Transaction.t :=
  {| Transaction.id := Transaction.id t; Transaction.status := s;
     Transaction.operations := Transaction.operations t |}.

Definition withOperations (ops : list LogEntry.t) (t : Transaction.t) : Transaction.t :=
  {| Transaction.id := Transaction.id t; Transaction.status := Transaction.status t;
     Transaction.operations := ops |}.

Definition clean (p : DataPage.t) : DataPage.t :=
  {| DataPage.key := DataPage.key p; DataPage.value := DataPage.value p;
     DataPage.dirty := false; DataPage.lsn := DataPage.lsn p |}.

(** Truthiness of an optional string: present and not empty. *)
Definition truthy (s : option string) : bool :=
  match s with
  | Some EmptyString => false
  | Some _ => true
  | None => false
  end.

(** Every callback below is a closure made during a render: [snap] is the
    state of that render, whose values the closure reads ([nextLsn],
    [nextTxnId], [dataPages], [transactions], [wal], [checkpointLsn]); the
    state updates it issues apply to [cur], the state when they run.  [now]
    is the clock reading of the call. *)

Definition appendWal (snap : State) (e : LogEntry.t) (now : Z) (cur : State)
  : LogEntry.t * State :=
  let newEntry := withLsn (nextLsn snap) now e in
  (newEntry, setNextLsn (fun prev => prev + 1)%Z (setWal (fun prev => prev ++ [newEntry]) cur)).

Definition beginTransaction (snap : State) (now : Z) (cur : State) : Z * State :=
  let txnId := nextTxnId snap in
  let cur := setNextTxnId (fun prev => prev + 1)%Z cur in
  let '(e, cur) := appendWal snap (entry BEGIN txnId None None None None) now cur in
  let cur :=
    setTransactions (fun prev =>
      prev ++ [ {| Transaction.id := txnId; Transaction.status := active;
                   Transaction.operations := [withLsn (nextLsn snap - 1) now e] |} ]) cur in
  (txnId, cur).

Definition writeData (snap : State) (txnId : Z) (key newValue : string) (now : Z)
    (cur : State) : State :=
  match List.find (fun p => bool_decide (DataPage.key p = key)) (dataPages snap) with
  | None => cur
  | Some page =>
      let oldValue := DataPage.value page in
      let '(e, cur) :=
        appendWal snap
          (entry WRITE txnId (Some "accounts") (Some key) (Some oldValue) (Some newValue))
          now cur in
      let cur :=
        setDataPages (fun prev =>
          (fun p =>
             if bool_decide (DataPage.key p = key)
             then {| DataPage.key := DataPage.key p; DataPage.value := newValue;
                     DataPage.dirty := true; DataPage.lsn := nextLsn snap - 1 |}
             else p) <$> prev) cur in
      setTransactions (fun prev =>
        (fun t =>
           if bool_decide (Transaction.id t = txnId)
           then withOperations
                  (Transaction.operations t ++ [withLsn (nextLsn snap - 1) now e]) t
           else t) <$> prev) cur
  end.

Definition commitTransaction (snap : State) (txnId : Z) (now : Z) (cur : State) : State :=
  let '(_, cur) := appendWal snap (entry COMMIT txnId None None None None) now cur in
  let cur :=
    setTransactions (fun prev =>
      (fun t => if bool_decide (Transaction.id t = txnId)
                then withStatus committed t else t) <$> prev) cur in
  setDataPages (fun prev => clean <$> prev) cur.

(** One step of an undo loop: restore the old value of the page an operation
    wrote.  [markClean] tells the two loops apart: [abortTransaction] also
    clears the dirty flag. *)
Definition undoOp (markClean : bool) (cur : State) (op : LogEntry.t) : State :=
  match LogEntry.key op, LogEntry.oldValue op with
  | Some k, Some old =>
      if truthy (Some k) then
        setDataPages (fun prev =>
          (fun p =>
             if bool_decide (DataPage.key p = k)
             then {| DataPage.key := DataPage.key p; DataPage.value := old;
                     DataPage.dirty := if markClean then false else DataPage.dirty p;
                     DataPage.lsn := DataPage.lsn p |}
             else p) <$> prev) cur
      else cur
  | _, _ => cur
  end.

Definition writeOps (t : Transaction.t) : list LogEntry.t :=
  reverse (filter (fun op => LogEntry.type op = WRITE) (Transaction.operations t)).

Definition abortTransaction (snap : State) (txnId : Z) (now : Z) (cur : State) : State :=
  match List.find (fun t => bool_decide (Transaction.id t = txnId)) (transactions snap) with
  | None => cur
  | Some txn =>
      let '(_, cur) := appendWal snap (entry ABORT txnId None None None None) now cur in
      let cur := foldl (undoOp true) cur (writeOps txn) in
      setTransactions (fun prev =>
        (fun t => if bool_decide (Transaction.id t = txnId)
                  then withStatus aborted t else t) <$> prev) cur
  end.

Definition checkpoint (snap : State) (now : Z) (cur : State) : State :=
  let '(e, cur) := appendWal snap (entry CHECKPOINT 0 None None None None) now cur in
  let cur := setCheckpointLsn (Some (LogEntry.lsn e)) cur in
  setDataPages (fun prev => clean <$> prev) cur.

(** One step of the REDO loop. *)
Definition redoEntry (cur : State) (e : LogEntry.t) : State :=
  if bool_decide (LogEntry.type e = WRITE) && truthy (LogEntry.key e)
     && truthy (LogEntry.newValue e)
  then
    match LogEntry.key e, LogEntry.newValue e with
    | Some k, Some new =>
        setDataPages (fun prev =>
          (fun p =>
             if bool_decide (DataPage.key p = k)
             then {| DataPage.key := DataPage.key p; DataPage.value := new;
                     DataPage.dirty := DataPage.dirty p; DataPage.lsn := LogEntry.lsn e |}
             else p) <$> prev) cur
    | _, _ => cur
    end
  else cur.

(** One round of the UNDO loop: roll one transaction back, mark it. *)
Definition undoTxn (cur : State) (txn : Transaction.t) : State :=
  let cur := foldl (undoOp false) cur (writeOps txn) in
  setTransactions (fun prev =>
    (fun t => if bool_decide (Transaction.id t = Transaction.id txn)
              then withStatus aborted t else t) <$> prev) cur.

(** [checkpointLsn || 1]. *)
Definition startLsnOf (c : option Z) : Z :=
  match c with
  | Some n => if bool_decide (n = 0%Z) then 1%Z else n
  | None => 1%Z
  end.

Definition simulateCrashRecovery (snap : State) (cur : State) : State :=
  let cur := setIsRecovering true cur in
  let startLsn := startLsnOf (checkpointLsn snap) in
  let entriesToRedo := filter (fun e => (startLsn <= LogEntry.lsn e)%Z) (wal snap) in
  let cur := foldl redoEntry cur entriesToRedo in
  let uncommittedTxns :=
    filter (fun t => Transaction.status t = active) (transactions snap) in
  let cur := foldl undoTxn cur uncommittedTxns in
  setIsRecovering false cur.

Definition reset (cur : State) : State :=
  {| wal := []; transactions := []; dataPages := initialPages;
     nextLsn := 1; nextTxnId := 1; isRecovering := false; checkpointLsn := None |}.

(** [runDemo]; [clock n] is the clock reading of its [n]-th call.  The first
    seven updates are those of [reset] without [setIsRecovering]. *)
Definition runDemo (snap : State) (clock : nat -> Z) (cur : State) : State :=
  let cur :=
    {| wal := []; transactions := []; dataPages := initialPages;
       nextLsn := 1; nextTxnId := 1; isRecovering := isRecovering cur;
       checkpointLsn := None |} in
  let '(t1, cur) := beginTransaction snap (clock 0) cur in
  let cur := writeData snap t1 "balance:A" "900" (clock 1) cur in
  let cur := writeData snap t1 "balance:B" "600" (clock 2) cur in
  let cur := commitTransaction snap t1 (clock 3) cur in
  let cur := checkpoint snap (clock 4) cur in
  let '(t2, cur) := beginTransaction snap (clock 5) cur in
  let cur := writeData snap t2 "balance:B" "400" (clock 6) cur in
  writeData snap t2 "balance:C" "950" (clock 7) cur.

(** The buttons: a click runs the closure of the latest render, so the
    snapshot is the state at the click. *)
Definition clickRunDemo (clock : nat -> Z) (st : State) : State := runDemo st clock st.
Definition clickSimulateCrash (st : State) : State := simulateCrashRecovery st st.

Definition pageValues (st : State) : list (string * string) :=
  (fun p => (DataPage.key p, DataPage.value p)) <$> dataPages st.


(** Following the words of the property: a WRITE entry of the log is
    committed when a transaction with its [txnId] has status [committed];
    the value promised for a page is the new value of the last committed
    WRITE to its key, or the value the page started with. *)
Definition committedWrite (before : State) (k : string) (e : LogEntry.t) : bool :=
  bool_decide (LogEntry.type e = WRITE) &&
  bool_decide (LogEntry.key e = Some k) &&
  bool_decide (Exists (fun t => Transaction.id t = LogEntry.txnId e /\
                                Transaction.status t = committed)
                 (transactions before)).

Definition promisedValue (before : State) (initial : DataPage.t) : string :=
  match last (List.filter (committedWrite before (DataPage.key initial)) (wal before)) with
  | Some e => default EmptyString (LogEntry.newValue e)
  | None => DataPage.value initial
  end.

Definition promisedValues (before : State) : list (string * string) :=
  (fun p => (DataPage.key p, promisedValue before p)) <$> initialPages.

Definition demoClock (n : nat) : Z := (1000 + 400 * Z.of_nat n)%Z.

(** Begin a transaction, write [balance:A], abort; each call made by the
    closure of the render that follows the previous call. *)
Definition abortedWrite : State :=
  let '(t1, st) := beginTransaction initialState 1000 initialState in
  let st := writeData st t1 "balance:A" "900" 1400 st in
  abortTransaction st t1 1800 st.

(** The calls of the demo scenario, each made by the closure of the render
    that follows the previous call (what typing them one by one would do). *)
Definition demoByCurrentClosures : State :=
  let '(t1, st) := beginTransaction initialState (demoClock 0) initialState in
  let st := writeData st t1 "balance:A" "900" (demoClock 1) st in
  let st := writeData st t1 "balance:B" "600" (demoClock 2) st in
  let st := commitTransaction st t1 (demoClock 3) st in
  let st := checkpoint st (demoClock 4) st in
  let '(t2, st) := beginTransaction st (demoClock 5) st in
  let st := writeData st t2 "balance:B" "400" (demoClock 6) st in
  writeData st t2 "balance:C" "950" (demoClock 7) st.

(** What the UNDO rounds of recovery do to the status of a transaction. *)
Definition markAborted (ids : list Z) (t : Transaction.t) : Transaction.t :=
  if bool_decide (Transaction.id t ∈ ids) then withStatus aborted t else t.

(** *** Operations by closures of the current render *)

(** What the user (or a script) does to the widget, one call after the other,
    each call made by the closure of the current render: the closure sees the
    state the previous call left. *)
Inductive Op : Type :=
| OpBegin (now : Z)
| OpWrite (txnId : Z) (key newValue : string) (now : Z)
| OpCommit (txnId : Z) (now : Z)
| OpAbort (txnId : Z) (now : Z)
| OpCheckpoint (now : Z)
| OpCrash.

Definition perform (st : State) (op : Op) : State :=
  match op with
  | OpBegin now => (beginTransaction st now st).2
  | OpWrite txnId key newValue now => writeData st txnId key newValue now st
  | OpCommit txnId now => commitTransaction st txnId now st
  | OpAbort txnId now => abortTransaction st txnId now st
  | OpCheckpoint now => checkpoint st now st
  | OpCrash => simulateCrashRecovery st st
  end.

Definition runOps (ops : list Op) : State := foldl perform initialState ops.

(** A transaction run by closures of the current render: begin, the writes
    [(key, newValue)] in order, and a commit if [commit] says so. *)
Definition runWrites (txnId : Z) (now : Z) (ws : list (string * string)) (st : State)
  : State :=
  foldl (fun st w => writeData st txnId w.1 w.2 now st) st ws.

Definition runTxn (now : Z) (ws : list (string * string)) (commit : bool) (st : State)
  : State :=
  let '(txnId, st) := beginTransaction st now st in
  let st := runWrites txnId now ws st in
  if commit then commitTransaction st txnId now st else st.

(** A history without aborts: committed transactions one after the other,
    checkpoints and crash recoveries between them. *)
Inductive Item : Type :=
| CommittedTxn (now : Z) (ws : list (string * string))
| CheckpointItem (now : Z)
| CrashItem.

Definition runItem (st : State) (item : Item) : State :=
  match item with
  | CommittedTxn now ws => runTxn now ws true st
  | CheckpointItem now => checkpoint st now st
  | CrashItem => simulateCrashRecovery st st
  end.

Definition runHistory (items : list Item) : State := foldl runItem initialState items.

(** The values written are not empty strings. *)
Definition valuesGiven (ws : list (string * string)) : Prop :=
  Forall (fun w => w.2 <> EmptyString) ws.

Definition itemGiven (item : Item) : Prop :=
  match item with
  | CommittedTxn _ ws => valuesGiven ws
  | _ => True
  end.

(** Setting the value under a key in a list of key-value pairs. *)
Definition setValue (k v : string) (pv : list (string * string)) : list (string * string) :=
  (fun p => if bool_decide (p.1 = k) then (p.1, v) else p) <$> pv.

(** The writes a list of log entries makes when replayed by REDO, and when
    rolled back by an undo loop. *)
Definition redoWrite (e : LogEntry.t) : option (string * string) :=
  if bool_decide (LogEntry.type e = WRITE) && truthy (LogEntry.key e)
     && truthy (LogEntry.newValue e)
  then match LogEntry.key e, LogEntry.newValue e with
       | Some k, Some new => Some (k, new)
       | _, _ => None
       end
  else None.

Definition undoWrite (op : LogEntry.t) : option (string * string) :=
  match LogEntry.key op, LogEntry.oldValue op with
  | Some k, Some old => if truthy (Some k) then Some (k, old) else None
  | _, _ => None
  end.

Definition setAll (pv : list (string * string)) (ws : list (string * string))
  : list (string * string) :=
  foldl (fun pv w => setValue w.1 w.2 pv) pv ws.

(** What every state the operations reach has: the pages keep their keys,
    the log sequence numbers of the log are 1, 2, ... in log order, and the
    transaction ids in use are below the next one. *)
Definition keysFixed (st : State) : Prop :=
  (pageValues st).*1 = (pageValues initialState).*1.

Definition lsnExact (st : State) : Prop :=
  LogEntry.lsn <$> wal st = Z.of_nat <$> seq 1 (length (wal st)) /\
  nextLsn st = Z.of_nat (S (length (wal st))).

Definition idsFresh (st : State) : Prop :=
  Forall (fun t => (Transaction.id t < nextTxnId st)%Z) (transactions st).

Definition reachable (st : State) : Prop := keysFixed st /\ lsnExact st /\ idsFresh st.

(** Replaying any tail of the log leaves the pages as they are. *)
Definition replayStable (st : State) : Prop :=
  forall n, setAll (pageValues st) (omap redoWrite (drop n (wal st))) = pageValues st.

(** The last transaction, with id [t], is open; undoing its writes gives the
    page values [pv0]; before it come the transactions [earlier]. *)
Definition inTxn (pv0 : list (string * string)) (t : Z) (earlier : list Transaction.t)
    (st : State) : Prop :=
  exists T,
    transactions st = earlier ++ [T] /\ Transaction.id T = t /\
    Transaction.status T = active /\
    setAll (pageValues st) (omap undoWrite (writeOps T)) = pv0.

(** No transaction is open or aborted, and the pages agree with the log. *)
Definition settled (st : State) : Prop :=
  reachable st /\ replayStable st /\
  Forall (fun T => Transaction.status T = committed) (transactions st).

(** The writes of the committed transactions of a history, in order. *)
Definition committedWrites (items : list Item) : list (string * string) :=
  items ≫= fun item =>
    match item with
    | CommittedTxn _ ws => ws
    | _ => []
    end.

(** The committed transfer and the checkpoint of the demo scenario. *)
Definition sampleHistory : list Item :=
  [ CommittedTxn 1000 [("balance:A", "900"); ("balance:B", "600")]%string;
    CheckpointItem 3000 ].

Lemma undoOp_transactions b cur op : transactions (undoOp b cur op) = transactions cur.
Proof.
  unfold undoOp. destruct (LogEntry.key op), (LogEntry.oldValue op); try done.
  by destruct (truthy _).
Qed.

Lemma foldl_undoOp_transactions b ops : forall cur,
  transactions (foldl (undoOp b) cur ops) = transactions cur.
Proof.
  induction ops as [|op ops IH]; intros cur; simpl; [done|].
  by rewrite IH, undoOp_transactions.
Qed.

Lemma foldl_undoTxn_transactions txns : forall cur,
  transactions (foldl undoTxn cur txns) =
  markAborted (Transaction.id <$> txns) <$> transactions cur.
Proof.
  induction txns as [|txn txns IH]; intros cur; simpl.
  - rewrite <-(list_fmap_id (transactions cur)) at 1.
    apply list_fmap_ext. intros i t _. unfold markAborted.
    rewrite bool_decide_eq_false_2; [done|]. apply not_elem_of_nil.
  - rewrite IH. unfold undoTxn. cbn [transactions setTransactions].
    rewrite foldl_undoOp_transactions, <-list_fmap_compose.
    apply list_fmap_ext. intros i t _. simpl. unfold markAborted.
    destruct (bool_decide_reflect (Transaction.id t = Transaction.id txn)) as [E|E].
    + rewrite (bool_decide_eq_true_2 (Transaction.id t ∈ _ :: _)) by (rewrite E; by left).
      cbn [withStatus Transaction.id].
      by destruct (bool_decide (Transaction.id t ∈ Transaction.id <$> txns)).
    + destruct (bool_decide_reflect (Transaction.id t ∈ Transaction.id <$> txns)) as [E'|E'].
      * rewrite bool_decide_eq_true_2; [done|]. by right.
      * rewrite bool_decide_eq_false_2; [done|].
        intros [?|?]%elem_of_cons; done.
Qed.

Lemma redoEntry_transactions cur e : transactions (redoEntry cur e) = transactions cur.
Proof.
  unfold redoEntry. destruct (_ && _); [|done].
  by destruct (LogEntry.key e), (LogEntry.newValue e).
Qed.

Lemma foldl_redoEntry_transactions es : forall cur,
  transactions (foldl redoEntry cur es) = transactions cur.
Proof.
  induction es as [|e es IH]; intros cur; simpl; [done|].
  by rewrite IH, redoEntry_transactions.
Qed.

(** The second half of the property holds: whatever the states, a transaction
    that was active when recovery started is marked aborted when it ends. *)
Lemma recovery_marks_active_aborted snap cur t t' :
  t ∈ transactions snap -> Transaction.status t = active ->
  t' ∈ transactions (simulateCrashRecovery snap cur) ->
  Transaction.id t' = Transaction.id t ->
  Transaction.status t' = aborted.
Proof.
  intros Ht Hact Ht' Hid. unfold simulateCrashRecovery in Ht'.
  cbn [transactions setIsRecovering] in Ht'.
  rewrite foldl_undoTxn_transactions, foldl_redoEntry_transactions in Ht'.
  cbn [transactions setIsRecovering] in Ht'.
  apply list_elem_of_fmap in Ht' as (t0 & -> & _).
  unfold markAborted in *.
  destruct (bool_decide_reflect
              (Transaction.id t0 ∈
               Transaction.id <$> filter (fun t => Transaction.status t = active)
                                    (transactions snap))) as [E|E]; [done|].
  exfalso. apply E. simpl in Hid. rewrite Hid.
  apply list_elem_of_fmap. exists t. split; [done|].
  by apply list_elem_of_filter.
Qed.

(** With closures of the current render the scenario recovers as announced:
    the committed transfer stays, the open one is rolled back and marked. *)
Lemma recovery_of_demo_by_current_closures :
  pageValues (clickSimulateCrash demoByCurrentClosures) =
    [("balance:A", "900"); ("balance:B", "600"); ("balance:C", "750")] /\
  promisedValues demoByCurrentClosures =
    [("balance:A", "900"); ("balance:B", "600"); ("balance:C", "750")] /\
  Transaction.status <$> transactions (clickSimulateCrash demoByCurrentClosures) =
    [committed; aborted].
Proof. vm_compute. by repeat split. Qed.

(** C3.  The run of the widget's own demo scenario followed by the crash
    simulation, and a begin / write / abort followed by the crash simulation:
    in both a data page ends with a value that is neither the last committed
    write to its key nor its initial value. *)
Theorem recovery_loses_committed_state :
  let demo := clickRunDemo demoClock initialState in
  pageValues (clickSimulateCrash demo) =
    [("balance:A", "900"); ("balance:B", "500"); ("balance:C", "750")] /\
  promisedValues demo =
    [("balance:A", "900"); ("balance:B", "400"); ("balance:C", "950")] /\
  pageValues abortedWrite =
    [("balance:A", "1000"); ("balance:B", "500"); ("balance:C", "750")] /\
  Transaction.status <$> transactions abortedWrite = [aborted] /\
  pageValues (clickSimulateCrash abortedWrite) =
    [("balance:A", "900"); ("balance:B", "500"); ("balance:C", "750")] /\
  promisedValues abortedWrite =
    [("balance:A", "1000"); ("balance:B", "500"); ("balance:C", "750")].
Proof. vm_compute. by repeat split. Qed.

(** C9.  [writeData] on a key no data page has changes nothing: the log, the
    data pages and the operation lists of the transactions stay as they are
    (the whole state does). *)
Theorem writeData_unknown_key (snap cur : State) (txnId : Z) (key newValue : string) (now : Z) :
  List.find (fun p => bool_decide (DataPage.key p = key)) (dataPages snap) = None ->
  let after := writeData snap txnId key newValue now cur in
  wal after = wal cur /\
  dataPages after = dataPages cur /\
  Transaction.operations <$> transactions after =
    Transaction.operations <$> transactions cur /\
  after = cur.
Proof. intros Hfind after. unfold after, writeData. by rewrite Hfind. Qed.

Lemma writeData_unknown_key_balance_Z :
  wal (writeData initialState 1 "balance:Z" "1" 1000 initialState) = [] /\
  dataPages (writeData initialState 1 "balance:Z" "1" 1000 initialState) = initialPages.
Proof.
  destruct (writeData_unknown_key initialState initialState 1 "balance:Z" "1" 1000)
    as (Hwal & Hpages & _); [reflexivity|].
  split; [exact Hwal|exact Hpages].
Defined.

(** *** Sequences of operations: proofs *)

Lemma setValue_absorb k v v' pv : setValue k v' (setValue k v pv) = setValue k v' pv.
Proof.
  unfold setValue. rewrite <-list_fmap_compose. apply list_fmap_ext.
  intros i [k0 v0] _. simpl.
  repeat (case_bool_decide; simpl in * ); congruence.
Qed.

Lemma setValue_comm k v k' v' pv :
  k <> k' -> setValue k v (setValue k' v' pv) = setValue k' v' (setValue k v pv).
Proof.
  intros Hne. unfold setValue. rewrite <-!list_fmap_compose. apply list_fmap_ext.
  intros i [k0 v0] _. simpl.
  repeat (case_bool_decide; simpl in * ); congruence.
Qed.

Lemma setValue_keys k v pv : (setValue k v pv).*1 = pv.*1.
Proof.
  unfold setValue. rewrite <-list_fmap_compose. apply list_fmap_ext.
  intros i [k0 v0] _. simpl. by destruct (bool_decide _).
Qed.

Lemma setValue_absent k v pv : k ∉ pv.*1 -> setValue k v pv = pv.
Proof.
  intros Hk. unfold setValue. rewrite <-(list_fmap_id pv) at 2.
  apply list_fmap_ext. intros i [k0 v0] Hi. simpl.
  rewrite bool_decide_eq_false_2; [done|]. intros ->. apply Hk.
  apply list_elem_of_fmap. exists (k, v0). split; [done|].
  by eapply list_elem_of_lookup_2.
Qed.

Lemma setValue_same k v pv : NoDup pv.*1 -> (k, v) ∈ pv -> setValue k v pv = pv.
Proof.
  intros Hnd Hin. unfold setValue. rewrite <-(list_fmap_id pv) at 2.
  apply list_fmap_ext. intros i [k0 v0] Hi. simpl.
  destruct (bool_decide_reflect (k0 = k)) as [->|]; [|done]. f_equal.
  apply list_elem_of_lookup in Hin as [j Hj].
  assert (i = j) as ->; [|congruence].
  eapply NoDup_lookup; [exact Hnd| |].
  - rewrite list_lookup_fmap, Hi. done.
  - rewrite list_lookup_fmap, Hj. done.
Qed.

Lemma setAll_keys ws : forall pv, (setAll pv ws).*1 = pv.*1.
Proof.
  induction ws as [|w ws IH]; intros pv; simpl; [done|].
  by rewrite IH, setValue_keys.
Qed.

Lemma setAll_app pv ws1 ws2 : setAll pv (ws1 ++ ws2) = setAll (setAll pv ws1) ws2.
Proof. unfold setAll. by rewrite foldl_app. Qed.

(** A write that comes last overrides the same write made first. *)
Lemma setAll_override k v ws : forall pv,
  setValue k v (setAll (setValue k v pv) ws) = setValue k v (setAll pv ws).
Proof.
  induction ws as [|[k' v'] ws IH]; intros pv; simpl.
  - by rewrite setValue_absorb.
  - destruct (decide (k' = k)) as [->|Hne].
    + by rewrite setValue_absorb.
    + rewrite setValue_comm by done. apply IH.
Qed.

(** *** What the operations do to the page values *)

Lemma pageValues_map (f : DataPage.t -> DataPage.t) (g : string * string -> string * string)
    (pages : list DataPage.t) :
  (forall p, (DataPage.key (f p), DataPage.value (f p)) = g (DataPage.key p, DataPage.value p)) ->
  (fun p => (DataPage.key p, DataPage.value p)) <$> (f <$> pages) =
  g <$> ((fun p => (DataPage.key p, DataPage.value p)) <$> pages).
Proof.
  intros Hfg. rewrite <-!list_fmap_compose. apply list_fmap_ext. intros i p _. apply Hfg.
Qed.

Lemma pageValues_redoEntry cur e :
  pageValues (redoEntry cur e) =
  match redoWrite e with
  | Some w => setValue w.1 w.2 (pageValues cur)
  | None => pageValues cur
  end.
Proof.
  unfold redoEntry, redoWrite. destruct (_ && _); [|done].
  destruct (LogEntry.key e) as [k|], (LogEntry.newValue e) as [new|]; try done.
  unfold pageValues, setValue. cbn [dataPages setDataPages].
  apply pageValues_map. intros p. simpl. by destruct (bool_decide _).
Qed.

Lemma pageValues_foldl_redoEntry es : forall cur,
  pageValues (foldl redoEntry cur es) = setAll (pageValues cur) (omap redoWrite es).
Proof.
  induction es as [|e es IH]; intros cur; simpl; [done|].
  rewrite IH, pageValues_redoEntry. by destruct (redoWrite e).
Qed.

Lemma pageValues_undoOp b cur op :
  pageValues (undoOp b cur op) =
  match undoWrite op with
  | Some w => setValue w.1 w.2 (pageValues cur)
  | None => pageValues cur
  end.
Proof.
  unfold undoOp, undoWrite.
  destruct (LogEntry.key op) as [k|], (LogEntry.oldValue op) as [old|]; try done.
  destruct (truthy (Some k)); [|done].
  unfold pageValues, setValue. cbn [dataPages setDataPages].
  apply pageValues_map. intros p. simpl. by destruct (bool_decide _).
Qed.

Lemma pageValues_foldl_undoOp b ops : forall cur,
  pageValues (foldl (undoOp b) cur ops) = setAll (pageValues cur) (omap undoWrite ops).
Proof.
  induction ops as [|op ops IH]; intros cur; simpl; [done|].
  rewrite IH, pageValues_undoOp. by destruct (undoWrite op).
Qed.

Lemma pageValues_clean (pages : list DataPage.t) :
  (fun p => (DataPage.key p, DataPage.value p)) <$> (clean <$> pages) =
  (fun p => (DataPage.key p, DataPage.value p)) <$> pages.
Proof. rewrite <-list_fmap_compose. by apply list_fmap_ext. Qed.

(** The other fields under the two loops. *)
Lemma undoOp_fields b cur op :
  wal (undoOp b cur op) = wal cur /\ nextLsn (undoOp b cur op) = nextLsn cur /\
  nextTxnId (undoOp b cur op) = nextTxnId cur /\
  checkpointLsn (undoOp b cur op) = checkpointLsn cur.
Proof.
  unfold undoOp. destruct (LogEntry.key op), (LogEntry.oldValue op); try done.
  by destruct (truthy _).
Qed.

Lemma foldl_undoOp_fields b ops : forall cur,
  wal (foldl (undoOp b) cur ops) = wal cur /\
  nextLsn (foldl (undoOp b) cur ops) = nextLsn cur /\
  nextTxnId (foldl (undoOp b) cur ops) = nextTxnId cur /\
  checkpointLsn (foldl (undoOp b) cur ops) = checkpointLsn cur.
Proof.
  induction ops as [|op ops IH]; intros cur; simpl; [done|].
  destruct (IH (undoOp b cur op)) as (-> & -> & -> & ->). apply undoOp_fields.
Qed.

Lemma redoEntry_fields cur e :
  wal (redoEntry cur e) = wal cur /\ nextLsn (redoEntry cur e) = nextLsn cur /\
  nextTxnId (redoEntry cur e) = nextTxnId cur /\
  checkpointLsn (redoEntry cur e) = checkpointLsn cur.
Proof.
  unfold redoEntry. destruct (_ && _); [|done].
  by destruct (LogEntry.key e), (LogEntry.newValue e).
Qed.

Lemma foldl_redoEntry_fields es : forall cur,
  wal (foldl redoEntry cur es) = wal cur /\
  nextLsn (foldl redoEntry cur es) = nextLsn cur /\
  nextTxnId (foldl redoEntry cur es) = nextTxnId cur /\
  checkpointLsn (foldl redoEntry cur es) = checkpointLsn cur.
Proof.
  induction es as [|e es IH]; intros cur; simpl; [done|].
  destruct (IH (redoEntry cur e)) as (-> & -> & -> & ->). apply redoEntry_fields.
Qed.

Lemma undoTxn_fields cur txn :
  wal (undoTxn cur txn) = wal cur /\ nextLsn (undoTxn cur txn) = nextLsn cur /\
  nextTxnId (undoTxn cur txn) = nextTxnId cur /\
  checkpointLsn (undoTxn cur txn) = checkpointLsn cur.
Proof. unfold undoTxn. cbn. apply foldl_undoOp_fields. Qed.

Lemma foldl_undoTxn_fields txns : forall cur,
  wal (foldl undoTxn cur txns) = wal cur /\
  nextLsn (foldl undoTxn cur txns) = nextLsn cur /\
  nextTxnId (foldl undoTxn cur txns) = nextTxnId cur /\
  checkpointLsn (foldl undoTxn cur txns) = checkpointLsn cur.
Proof.
  induction txns as [|t txns IH]; intros cur; simpl; [done|].
  destruct (IH (undoTxn cur t)) as (-> & -> & -> & ->). apply undoTxn_fields.
Qed.

Lemma pageValues_undoTxn cur txn :
  pageValues (undoTxn cur txn) = setAll (pageValues cur) (omap undoWrite (writeOps txn)).
Proof. unfold undoTxn. apply (pageValues_foldl_undoOp false). Qed.

Lemma pageValues_foldl_undoTxn txns : forall cur,
  pageValues (foldl undoTxn cur txns) =
  setAll (pageValues cur) (txns ≫= fun txn => omap undoWrite (writeOps txn)).
Proof.
  induction txns as [|t txns IH]; intros cur; simpl; [done|].
  rewrite IH, pageValues_undoTxn. by rewrite setAll_app.
Qed.

(** Crash recovery, field by field. *)
Lemma simulateCrashRecovery_fields snap cur :
  let after := simulateCrashRecovery snap cur in
  wal after = wal cur /\ nextLsn after = nextLsn cur /\
  nextTxnId after = nextTxnId cur /\ checkpointLsn after = checkpointLsn cur /\
  transactions after =
    markAborted (Transaction.id <$> filter (fun t => Transaction.status t = active)
                                      (transactions snap)) <$> transactions cur /\
  pageValues after =
    setAll (setAll (pageValues cur)
              (omap redoWrite
                 (filter (fun e => (startLsnOf (checkpointLsn snap) <= LogEntry.lsn e)%Z)
                    (wal snap))))
      (filter (fun t => Transaction.status t = active) (transactions snap)
         ≫= fun txn => omap undoWrite (writeOps txn)).
Proof.
  cbv zeta. unfold simulateCrashRecovery.
  set (es := filter _ (wal snap)). set (txns := filter _ (transactions snap)).
  cbn [wal nextLsn nextTxnId checkpointLsn transactions setIsRecovering].
  destruct (foldl_undoTxn_fields txns (foldl redoEntry (setIsRecovering true cur) es))
    as (-> & -> & -> & ->).
  destruct (foldl_redoEntry_fields es (setIsRecovering true cur)) as (-> & -> & -> & ->).
  split_and!; try done.
  - by rewrite foldl_undoTxn_transactions, foldl_redoEntry_transactions.
  - unfold pageValues at 1. cbn [dataPages setIsRecovering].
    change (pageValues (foldl undoTxn (foldl redoEntry (setIsRecovering true cur) es) txns) =
            setAll (setAll (pageValues cur) (omap redoWrite es))
              (txns ≫= fun txn => omap undoWrite (writeOps txn))).
    by rewrite pageValues_foldl_undoTxn, pageValues_foldl_redoEntry.
Qed.

(** *** Invariants of the operations made by closures of the current render *)

Lemma lsnExact_snoc st st' e :
  lsnExact st -> wal st' = wal st ++ [e] -> LogEntry.lsn e = nextLsn st ->
  nextLsn st' = (nextLsn st + 1)%Z -> lsnExact st'.
Proof.
  intros [Hl Hn] Hw He Hn'. unfold lsnExact. rewrite Hw, length_app, fmap_app. simpl.
  rewrite Nat.add_1_r, seq_S, fmap_app, <-Hl. simpl. rewrite He, Hn, Hn'. split; [done|].
  lia.
Qed.

Lemma idsFresh_map (f : Transaction.t -> Transaction.t) (ts : list Transaction.t) (n : Z) :
  (forall t, Transaction.id (f t) = Transaction.id t) ->
  Forall (fun t => (Transaction.id t < n)%Z) ts ->
  Forall (fun t => (Transaction.id t < n)%Z) (f <$> ts).
Proof.
  intros Hf Hts. apply Forall_fmap. eapply Forall_impl; [exact Hts|].
  intros t Ht. simpl. by rewrite Hf.
Qed.

Lemma markAborted_id ids t : Transaction.id (markAborted ids t) = Transaction.id t.
Proof. unfold markAborted. by destruct (bool_decide _). Qed.

Lemma beginTransaction_reachable st now :
  reachable st -> reachable (beginTransaction st now st).2.
Proof.
  intros (Hk & Hl & Hi). split_and!.
  - exact Hk.
  - eapply lsnExact_snoc; [exact Hl|reflexivity|reflexivity|reflexivity].
  - unfold idsFresh in *. cbn. apply Forall_app. split.
    + eapply Forall_impl; [exact Hi|]. simpl. intros t Ht. lia.
    + repeat constructor. simpl. lia.
Qed.

Lemma writeData_reachable st txnId key newValue now :
  reachable st -> reachable (writeData st txnId key newValue now st).
Proof.
  intros (Hk & Hl & Hi). unfold writeData.
  destruct (List.find _ (dataPages st)) as [page|]; [|done]. split_and!.
  - unfold keysFixed in *. rewrite <-Hk. unfold pageValues. cbn.
    rewrite <-!list_fmap_compose. apply list_fmap_ext. intros i p _. simpl.
    by destruct (bool_decide _).
  - eapply lsnExact_snoc; [exact Hl|reflexivity|reflexivity|reflexivity].
  - unfold idsFresh in *. cbn. apply idsFresh_map; [|done].
    intros t. by destruct (bool_decide _).
Qed.

Lemma commitTransaction_reachable st txnId now :
  reachable st -> reachable (commitTransaction st txnId now st).
Proof.
  intros (Hk & Hl & Hi). split_and!.
  - unfold keysFixed in *. rewrite <-Hk. unfold pageValues. cbn.
    rewrite <-!list_fmap_compose. by apply list_fmap_ext.
  - eapply lsnExact_snoc; [exact Hl|reflexivity|reflexivity|reflexivity].
  - unfold idsFresh in *. cbn. apply idsFresh_map; [|done].
    intros t. by destruct (bool_decide _).
Qed.

Lemma checkpoint_reachable st now :
  reachable st -> reachable (checkpoint st now st).
Proof.
  intros (Hk & Hl & Hi). split_and!.
  - unfold keysFixed in *. rewrite <-Hk. unfold pageValues. cbn.
    rewrite <-!list_fmap_compose. by apply list_fmap_ext.
  - eapply lsnExact_snoc; [exact Hl|reflexivity|reflexivity|reflexivity].
  - exact Hi.
Qed.

Lemma abortTransaction_reachable st txnId now :
  reachable st -> reachable (abortTransaction st txnId now st).
Proof.
  intros (Hk & Hl & Hi). unfold abortTransaction.
  destruct (List.find _ (transactions st)) as [txn|]; [|done].
  cbn [appendWal].
  set (cur := setNextLsn _ _).
  destruct (foldl_undoOp_fields true (writeOps txn) cur) as (Hw & Hn & Ht & Hc).
  split_and!.
  - unfold keysFixed in *. rewrite <-Hk.
    change ((pageValues (foldl (undoOp true) cur (writeOps txn))).*1 = (pageValues st).*1).
    by rewrite pageValues_foldl_undoOp, setAll_keys.
  - eapply lsnExact_snoc; [exact Hl| | |].
    + cbn [wal setTransactions]. rewrite Hw. reflexivity.
    + reflexivity.
    + cbn [nextLsn setTransactions]. rewrite Hn. reflexivity.
  - unfold idsFresh in *. cbn [transactions nextTxnId setTransactions].
    rewrite Ht, foldl_undoOp_transactions. cbn.
    apply idsFresh_map; [|done]. intros t. by destruct (bool_decide _).
Qed.

Lemma simulateCrashRecovery_reachable st :
  reachable st -> reachable (simulateCrashRecovery st st).
Proof.
  intros (Hk & Hl & Hi).
  destruct (simulateCrashRecovery_fields st st) as (Hw & Hn & Ht & Hc & Htx & Hp).
  split_and!.
  - unfold keysFixed in *. by rewrite Hp, !setAll_keys.
  - unfold lsnExact in *. by rewrite Hw, Hn.
  - unfold idsFresh in *. rewrite Htx, Ht. apply idsFresh_map; [|done].
    intros t. apply markAborted_id.
Qed.

Lemma perform_reachable st op : reachable st -> reachable (perform st op).
Proof.
  intros H. destruct op; simpl.
  - by apply beginTransaction_reachable.
  - by apply writeData_reachable.
  - by apply commitTransaction_reachable.
  - by apply abortTransaction_reachable.
  - by apply checkpoint_reachable.
  - by apply simulateCrashRecovery_reachable.
Qed.

Lemma initialState_reachable : reachable initialState.
Proof. split_and!; [done|done|constructor]. Qed.

Lemma runOps_reachable ops : reachable (runOps ops).
Proof.
  unfold runOps. induction ops as [|op ops IH] using rev_ind.
  - apply initialState_reachable.
  - rewrite foldl_app. by apply perform_reachable.
Qed.

(** X17.  Made by closures of the current render, the operations number the
    log consecutively: after any sequence of them the log sequence numbers
    of the log are 1, 2, 3, ... in log order, and the next one to be given
    is the length of the log plus one. *)
Theorem log_sequence_numbers_are_consecutive (ops : list Op) :
  let st := runOps ops in
  LogEntry.lsn <$> wal st = Z.of_nat <$> seq 1 (length (wal st)) /\
  nextLsn st = (Z.of_nat (length (wal st)) + 1)%Z.
Proof.
  cbv zeta. destruct (runOps_reachable ops) as (_ & [Hl Hn] & _).
  split; [done|]. rewrite Hn. lia.
Qed.

(** *** A transaction in progress *)

Lemma keysFixed_NoDup st : keysFixed st -> NoDup (pageValues st).*1.
Proof. intros ->. apply (bool_decide_unpack _). by vm_compute. Qed.

Lemma find_page_None key (pages : list DataPage.t) :
  List.find (fun p => bool_decide (DataPage.key p = key)) pages = None ->
  key ∉ ((fun p => (DataPage.key p, DataPage.value p)) <$> pages).*1.
Proof.
  induction pages as [|p pages IH]; simpl; [intros _; apply not_elem_of_nil|].
  case_bool_decide; [done|]. intros Hf. apply not_elem_of_cons. split; [done|by apply IH].
Qed.

Lemma find_page_Some key (pages : list DataPage.t) page :
  List.find (fun p => bool_decide (DataPage.key p = key)) pages = Some page ->
  (key, DataPage.value page) ∈ (fun p => (DataPage.key p, DataPage.value p)) <$> pages.
Proof.
  induction pages as [|p pages IH]; simpl; [done|].
  case_bool_decide as Hk.
  - intros [= ->]. rewrite <-Hk. by left.
  - intros Hf. right. by apply IH.
Qed.

Lemma keysFixed_nonempty st key v :
  keysFixed st -> (key, v) ∈ pageValues st -> key <> EmptyString.
Proof.
  intros Hk Hin. assert (key ∈ (pageValues st).*1) as Hkey.
  { apply list_elem_of_fmap. by exists (key, v). }
  rewrite Hk in Hkey. vm_compute in Hkey.
  repeat (apply elem_of_cons in Hkey as [->|Hkey]; [done|]).
  by apply elem_of_nil in Hkey.
Qed.

(** One [writeData] by the closure of the current render. *)
Lemma writeData_cases st t key v now :
  keysFixed st ->
  ((key ∉ (pageValues st).*1) /\ writeData st t key v now st = st) \/
  (exists old E E',
     (key, old) ∈ pageValues st /\
     wal (writeData st t key v now st) = wal st ++ [E] /\
     redoWrite E = (if truthy (Some v) then Some (key, v) else None) /\
     LogEntry.type E' = WRITE /\ undoWrite E' = Some (key, old) /\
     pageValues (writeData st t key v now st) = setValue key v (pageValues st) /\
     transactions (writeData st t key v now st) =
       (fun T => if bool_decide (Transaction.id T = t)
                 then withOperations (Transaction.operations T ++ [E']) T else T)
         <$> transactions st).
Proof.
  intros Hk. unfold writeData.
  destruct (List.find _ (dataPages st)) as [page|] eqn:Efind.
  - right. pose proof (find_page_Some _ _ _ Efind) as Hin.
    pose proof (keysFixed_nonempty st key _ Hk Hin) as Hne.
    destruct key as [|c key']; [done|].
    set (E := withLsn (nextLsn st) now
                (entry WRITE t (Some "accounts"%string) (Some (String c key'))
                   (Some (DataPage.value page)) (Some v))).
    exists (DataPage.value page), E, (withLsn (nextLsn st - 1) now E).
    split; [exact Hin|]. split; [reflexivity|]. split_and!.
    + unfold redoWrite. cbn. by destruct v.
    + reflexivity.
    + reflexivity.
    + unfold pageValues, setValue. cbn. apply pageValues_map. intros p. simpl.
      by destruct (bool_decide _).
    + reflexivity.
  - left. split; [|done]. by apply find_page_None.
Qed.

Lemma pageValues_writeData st t key v now :
  keysFixed st ->
  pageValues (writeData st t key v now st) = setValue key v (pageValues st).
Proof.
  intros Hk. destruct (writeData_cases st t key v now Hk)
    as [[Hno ->] | (old & E & E' & _ & _ & _ & _ & _ & Hp & _)]; [|done].
  by rewrite setValue_absent.
Qed.

Lemma omap_drop_snoc_None {A B} (f : A -> option B) (l : list A) e n :
  f e = None -> omap f (drop n (l ++ [e])) = omap f (drop n l).
Proof.
  intros He. rewrite drop_app, omap_app.
  assert (omap f (drop (n - length l) [e]) = []) as ->; [|by rewrite app_nil_r].
  destruct (n - length l) as [|m]; simpl; [by rewrite He|by rewrite drop_nil].
Qed.

Lemma replayStable_snoc_None st st' e :
  replayStable st -> wal st' = wal st ++ [e] -> redoWrite e = None ->
  pageValues st' = pageValues st -> replayStable st'.
Proof.
  intros Hr Hw He Hp n. rewrite Hw, Hp, omap_drop_snoc_None by done. apply Hr.
Qed.

Lemma replayStable_snoc_write st st' e k v :
  replayStable st -> wal st' = wal st ++ [e] -> redoWrite e = Some (k, v) ->
  pageValues st' = setValue k v (pageValues st) -> replayStable st'.
Proof.
  intros Hr Hw He Hp n. rewrite Hw, Hp, drop_app, omap_app, setAll_app.
  destruct (n - length (wal st)) as [|m] eqn:En; simpl.
  - rewrite He. simpl. by rewrite setAll_override, Hr.
  - rewrite drop_ge by lia. simpl. by rewrite drop_nil.
Qed.

Lemma writeData_replayStable st t key v now :
  keysFixed st -> v <> EmptyString -> replayStable st ->
  replayStable (writeData st t key v now st).
Proof.
  intros Hk Hv Hr. destruct (writeData_cases st t key v now Hk)
    as [[Hno ->] | (old & E & E' & Hin & Hw & Hredo & _ & _ & Hp & _)]; [done|].
  assert (truthy (Some v) = true) as Htr by (by destruct v).
  rewrite Htr in Hredo. by eapply replayStable_snoc_write.
Qed.

Lemma writeOps_snoc_write T E' :
  LogEntry.type E' = WRITE ->
  writeOps (withOperations (Transaction.operations T ++ [E']) T) = E' :: writeOps T.
Proof.
  intros Hty. unfold writeOps. cbn [Transaction.operations withOperations].
  rewrite filter_app, filter_cons, filter_nil.
  rewrite decide_True by done. by rewrite reverse_app.
Qed.

Lemma writeData_inTxn pv0 t earlier st key v now :
  keysFixed st -> Forall (fun T => Transaction.id T <> t) earlier ->
  inTxn pv0 t earlier st -> inTxn pv0 t earlier (writeData st t key v now st).
Proof.
  intros Hk Hearlier (T & Htx & Hid & Hst & Hundo).
  destruct (writeData_cases st t key v now Hk)
    as [[Hno ->] | (old & E & E' & Hin & Hw & _ & Hty & Hun & Hp & Htx')];
    [by exists T|].
  exists (withOperations (Transaction.operations T ++ [E']) T).
  split_and!; [|done|done|].
  - rewrite Htx', Htx, fmap_app. simpl. rewrite bool_decide_eq_true_2 by done.
    f_equal. rewrite <-(list_fmap_id earlier) at 2. apply list_fmap_ext.
    intros i T' Hi. simpl. rewrite bool_decide_eq_false_2; [done|].
    by eapply (proj1 (Forall_lookup _ _) Hearlier).
  - rewrite writeOps_snoc_write by done. simpl. rewrite Hun, Hp. simpl.
    rewrite setValue_absorb, setValue_same; [done| |done].
    by apply keysFixed_NoDup.
Qed.

Lemma runWrites_snoc t now ws w st :
  runWrites t now (ws ++ [w]) st =
  writeData (runWrites t now ws st) t w.1 w.2 now (runWrites t now ws st).
Proof. unfold runWrites. by rewrite foldl_app. Qed.

Lemma runWrites_facts pv0 t earlier now ws st :
  reachable st -> Forall (fun T => Transaction.id T <> t) earlier ->
  inTxn pv0 t earlier st ->
  reachable (runWrites t now ws st) /\ inTxn pv0 t earlier (runWrites t now ws st) /\
  pageValues (runWrites t now ws st) = setAll (pageValues st) ws /\
  (valuesGiven ws -> replayStable st -> replayStable (runWrites t now ws st)).
Proof.
  intros Hreach Hearlier Hin. induction ws as [|w ws IH] using rev_ind.
  - done.
  - destruct IH as (Hr & Hi & Hp & Hs). rewrite runWrites_snoc.
    pose proof Hr as (Hk & _ & _). split_and!.
    + by apply writeData_reachable.
    + by apply writeData_inTxn.
    + rewrite pageValues_writeData by done. by rewrite Hp, setAll_app.
    + intros [Hws Hw]%Forall_app Hst. apply Forall_inv in Hw. simpl in Hw.
      apply writeData_replayStable; [done|done|by apply Hs].
Qed.

Lemma beginTransaction_inTxn st now :
  reachable st ->
  let t := (beginTransaction st now st).1 in
  let st' := (beginTransaction st now st).2 in
  t = nextTxnId st /\
  Forall (fun T => Transaction.id T <> t) (transactions st) /\
  inTxn (pageValues st) t (transactions st) st' /\
  pageValues st' = pageValues st /\
  (replayStable st -> replayStable st').
Proof.
  intros (Hk & Hl & Hi). cbv zeta. split_and!.
  - reflexivity.
  - eapply Forall_impl; [exact Hi|]. simpl. intros T HT. cbn. lia.
  - eexists. split_and!; reflexivity.
  - reflexivity.
  - intros Hr. eapply replayStable_snoc_None; [exact Hr|reflexivity|reflexivity|reflexivity].
Qed.

Lemma find_txn_last t (earlier : list Transaction.t) T :
  Forall (fun T' => Transaction.id T' <> t) earlier -> Transaction.id T = t ->
  List.find (fun T' => bool_decide (Transaction.id T' = t)) (earlier ++ [T]) = Some T.
Proof.
  intros Hearlier Hid. induction Hearlier as [|T' earlier Hne _ IH]; simpl.
  - by rewrite bool_decide_eq_true_2.
  - by rewrite bool_decide_eq_false_2.
Qed.

Lemma status_map_last (s : Status) t (earlier : list Transaction.t) T :
  Forall (fun T' => Transaction.id T' <> t) earlier -> Transaction.id T = t ->
  Transaction.status <$>
    ((fun T' => if bool_decide (Transaction.id T' = t) then withStatus s T' else T')
       <$> (earlier ++ [T])) =
  (Transaction.status <$> earlier) ++ [s].
Proof.
  intros Hearlier Hid. rewrite !fmap_app. simpl. rewrite bool_decide_eq_true_2 by done.
  f_equal. rewrite <-list_fmap_compose. apply list_fmap_ext. intros i T' Hi. simpl.
  rewrite bool_decide_eq_false_2; [done|]. by eapply (proj1 (Forall_lookup _ _) Hearlier).
Qed.

Lemma abortTransaction_inTxn pv0 t earlier st now :
  Forall (fun T => Transaction.id T <> t) earlier -> inTxn pv0 t earlier st ->
  pageValues (abortTransaction st t now st) = pv0 /\
  Transaction.status <$> transactions (abortTransaction st t now st) =
    (Transaction.status <$> earlier) ++ [aborted].
Proof.
  intros Hearlier (T & Htx & Hid & Hst & Hundo). unfold abortTransaction.
  rewrite Htx, (find_txn_last t earlier T Hearlier Hid). cbn [appendWal].
  set (cur := setNextLsn _ _). split.
  - change (pageValues (foldl (undoOp true) cur (writeOps T)) = pv0).
    by rewrite pageValues_foldl_undoOp.
  - cbn [transactions setTransactions]. rewrite foldl_undoOp_transactions.
    change (transactions cur) with (transactions st). rewrite Htx.
    by apply status_map_last.
Qed.

(** X18.  Aborting undoes the writes: after any sequence of operations, a
    transaction that is begun, makes any writes and is aborted, each call by
    the closure of the current render, leaves every page with the value it
    had when the transaction began, and ends as aborted. *)
Theorem abort_restores_the_pages (ops : list Op) (now now' : Z)
    (ws : list (string * string)) :
  let before := runOps ops in
  let t := (beginTransaction before now before).1 in
  let st := runWrites t now ws (beginTransaction before now before).2 in
  let after := abortTransaction st t now' st in
  pageValues after = pageValues before /\
  Transaction.status <$> transactions after =
    (Transaction.status <$> transactions before) ++ [aborted].
Proof.
  cbv zeta. pose proof (runOps_reachable ops) as Hreach.
  destruct (beginTransaction_inTxn (runOps ops) now Hreach) as (Ht & Hearlier & Hin & _ & _).
  destruct (runWrites_facts _ _ _ now ws _
              (beginTransaction_reachable _ now Hreach) Hearlier Hin)
    as (_ & Hin' & _ & _).
  by apply abortTransaction_inTxn.
Qed.

(** *** Recovery after a history without aborts *)

Lemma seq_sorted a n : StronglySorted Z.lt (Z.of_nat <$> seq a n).
Proof.
  revert a. induction n as [|n IH]; intros a; simpl; [constructor|].
  constructor; [apply IH|]. apply Forall_fmap, Forall_forall. intros x Hx. simpl.
  apply list_elem_of_In, in_seq in Hx. lia.
Qed.

Lemma filter_all {A} (P : A -> Prop) `{!forall x, Decision (P x)} (l : list A) :
  Forall P l -> filter P l = l.
Proof.
  induction 1 as [|x l Hx _ IH]; [done|]. by rewrite filter_cons_True, IH.
Qed.

Lemma filter_none {A} (P : A -> Prop) `{!forall x, Decision (P x)} (l : list A) :
  Forall (fun x => ~ P x) l -> filter P l = [].
Proof.
  induction 1 as [|x l Hx _ IH]; [done|]. by rewrite filter_cons_False.
Qed.

Lemma filter_from_lsn (c : Z) (l : list LogEntry.t) :
  StronglySorted Z.lt (LogEntry.lsn <$> l) ->
  exists m, filter (fun e => (c <= LogEntry.lsn e)%Z) l = drop m l.
Proof.
  induction l as [|a l IH]; intros Hs; [by exists 0|].
  rewrite fmap_cons in Hs. apply StronglySorted_cons in Hs as [Hall Hs].
  destruct (decide (c <= LogEntry.lsn a)%Z) as [Ha|Ha].
  - exists 0. simpl. apply filter_all. constructor; [done|].
    rewrite Forall_fmap in Hall. eapply Forall_impl; [exact Hall|].
    simpl. intros e He. lia.
  - rewrite filter_cons_False by done. destruct (IH Hs) as [m Hm].
    exists (S m). by rewrite Hm.
Qed.

Lemma redo_changes_nothing st :
  reachable st -> replayStable st ->
  setAll (pageValues st)
    (omap redoWrite
       (filter (fun e => (startLsnOf (checkpointLsn st) <= LogEntry.lsn e)%Z) (wal st))) =
  pageValues st.
Proof.
  intros (_ & [Hl _] & _) Hr.
  destruct (filter_from_lsn (startLsnOf (checkpointLsn st)) (wal st)) as [m ->].
  - rewrite Hl. apply seq_sorted.
  - apply Hr.
Qed.

Lemma markAborted_nil (ts : list Transaction.t) : markAborted [] <$> ts = ts.
Proof.
  rewrite <-(list_fmap_id ts) at 2. apply list_fmap_ext. intros i T _.
  unfold markAborted. rewrite bool_decide_eq_false_2; [done|]. apply not_elem_of_nil.
Qed.

Lemma replayStable_same st st' :
  replayStable st -> wal st' = wal st -> pageValues st' = pageValues st -> replayStable st'.
Proof. intros Hr Hw Hp n. rewrite Hw, Hp. apply Hr. Qed.

Lemma crash_settled st :
  settled st ->
  pageValues (simulateCrashRecovery st st) = pageValues st /\
  transactions (simulateCrashRecovery st st) = transactions st /\
  settled (simulateCrashRecovery st st).
Proof.
  intros (Hreach & Hr & Hc).
  destruct (simulateCrashRecovery_fields st st) as (Hw & Hn & Ht & Hcp & Htx & Hp).
  assert (filter (fun T => Transaction.status T = active) (transactions st) = []) as Hnone.
  { apply filter_none. eapply Forall_impl; [exact Hc|]. simpl. intros T ->. done. }
  rewrite Hnone in Hp, Htx. simpl in Hp. rewrite redo_changes_nothing in Hp by done.
  rewrite markAborted_nil in Htx.
  split_and!; [done|done|]. split_and!.
  - by apply simulateCrashRecovery_reachable.
  - by eapply replayStable_same.
  - by rewrite Htx.
Qed.

Lemma checkpoint_settled st now :
  settled st ->
  pageValues (checkpoint st now st) = pageValues st /\ settled (checkpoint st now st).
Proof.
  intros (Hreach & Hr & Hc).
  assert (pageValues (checkpoint st now st) = pageValues st) as Hp.
  { unfold pageValues. cbn. apply pageValues_clean. }
  split; [done|]. split_and!.
  - by apply checkpoint_reachable.
  - eapply replayStable_snoc_None; [exact Hr|reflexivity|reflexivity|done].
  - exact Hc.
Qed.

Lemma runTxn_unfold now ws commit st :
  runTxn now ws commit st =
  let t := (beginTransaction st now st).1 in
  let st1 := runWrites t now ws (beginTransaction st now st).2 in
  if commit then commitTransaction st1 t now st1 else st1.
Proof. reflexivity. Qed.

(** The state in which a transaction that was begun in a settled state
    stands after its writes. *)
Lemma open_txn_facts st now ws :
  settled st -> valuesGiven ws ->
  let t := (beginTransaction st now st).1 in
  let st1 := runWrites t now ws (beginTransaction st now st).2 in
  Forall (fun T => Transaction.id T <> t) (transactions st) /\
  reachable st1 /\ replayStable st1 /\
  inTxn (pageValues st) t (transactions st) st1 /\
  pageValues st1 = setAll (pageValues st) ws.
Proof.
  intros (Hreach & Hr & Hc) Hws. cbv zeta.
  destruct (beginTransaction_inTxn st now Hreach) as (Ht & Hearlier & Hin & Hp & Hr').
  destruct (runWrites_facts _ _ _ now ws _
              (beginTransaction_reachable _ now Hreach) Hearlier Hin)
    as (Hreach1 & Hin1 & Hp1 & Hr1).
  split_and!; [done|done| |done|by rewrite Hp1, Hp].
  apply Hr1; [done|]. by apply Hr'.
Qed.

Lemma committed_txn_settled st now ws :
  settled st -> valuesGiven ws ->
  pageValues (runTxn now ws true st) = setAll (pageValues st) ws /\
  settled (runTxn now ws true st).
Proof.
  intros Hst Hws. rewrite runTxn_unfold. cbv zeta.
  destruct (open_txn_facts st now ws Hst Hws)
    as (Hearlier & Hreach1 & Hr1 & (T & Htx & Hid & Hact & _) & Hp1).
  destruct Hst as (_ & _ & Hc).
  set (t := (beginTransaction st now st).1) in *.
  set (st1 := runWrites t now ws _) in *.
  assert (pageValues (commitTransaction st1 t now st1) = pageValues st1) as Hp.
  { unfold pageValues. cbn. apply pageValues_clean. }
  split; [by rewrite Hp|]. split_and!.
  - by apply commitTransaction_reachable.
  - eapply replayStable_snoc_None; [exact Hr1|reflexivity|reflexivity|done].
  - assert (Forall (fun s => s = committed)
              (Transaction.status <$> transactions (commitTransaction st1 t now st1))) as H.
    { cbn [commitTransaction appendWal transactions setTransactions setDataPages
           setNextLsn setWal].
      rewrite Htx, (status_map_last committed t _ T Hearlier Hid).
      apply Forall_app. split; [by apply Forall_fmap|by repeat constructor]. }
    by apply Forall_fmap in H.
Qed.

Lemma runHistory_snoc items item :
  runHistory (items ++ [item]) = runItem (runHistory items) item.
Proof. unfold runHistory. by rewrite foldl_app. Qed.

Lemma initialState_settled : settled initialState.
Proof.
  split_and!; [apply initialState_reachable| |constructor].
  intros n. simpl. by rewrite drop_nil.
Qed.

Lemma runHistory_settled items :
  Forall itemGiven items ->
  settled (runHistory items) /\
  pageValues (runHistory items) = setAll (pageValues initialState) (committedWrites items).
Proof.
  induction items as [|item items IH] using rev_ind; intros Hgiven.
  - split; [apply initialState_settled|done].
  - apply Forall_app in Hgiven as [Hitems Hitem]. apply Forall_inv in Hitem.
    destruct (IH Hitems) as [Hst Hp]. rewrite runHistory_snoc.
    unfold committedWrites. rewrite bind_app. simpl. rewrite app_nil_r, setAll_app.
    fold (committedWrites items). rewrite <-Hp.
    destruct item as [now ws| now |]; simpl in *.
    + destruct (committed_txn_settled _ now ws Hst Hitem) as [Hp' Hst']. done.
    + destruct (checkpoint_settled _ now Hst) as [Hp' Hst']. done.
    + destruct (crash_settled _ Hst) as (Hp' & _ & Hst'). done.
Qed.

(** X19.  Crash recovery restores the committed state after a history
    without aborts.  Let transactions run one after the other and commit,
    with checkpoints and crash recoveries between them, every call made by
    the closure of the current render and every written value non-empty.
    If then a further transaction is begun and makes writes, and the crash
    simulation runs while it is open, every page ends with the value the
    committed transactions gave it (their writes applied in order to the
    initial pages), the open transaction ends aborted, and the committed
    ones stay committed. *)
Theorem recovery_restores_the_committed_state (items : list Item) (now : Z)
    (ws : list (string * string)) :
  Forall itemGiven items -> valuesGiven ws ->
  let before := runHistory items in
  let after := clickSimulateCrash (runTxn now ws false before) in
  pageValues after = setAll (pageValues initialState) (committedWrites items) /\
  pageValues after = pageValues before /\
  Transaction.status <$> transactions after =
    (Transaction.status <$> transactions before) ++ [aborted] /\
  Forall (fun T => Transaction.status T = committed) (transactions before).
Proof.
  intros Hitems Hws. cbv zeta.
  destruct (runHistory_settled items Hitems) as [Hst Hp].
  set (before := runHistory items) in *.
  rewrite runTxn_unfold. cbv zeta.
  destruct (open_txn_facts before now ws Hst Hws)
    as (Hearlier & Hreach1 & Hr1 & (T & Htx & Hid & Hact & Hundo) & Hp1).
  destruct Hst as (_ & _ & Hc).
  set (t := (beginTransaction before now before).1) in *.
  set (st1 := runWrites t now ws _) in *.
  unfold clickSimulateCrash.
  destruct (simulateCrashRecovery_fields st1 st1) as (_ & _ & _ & _ & Htx' & Hp').
  assert (filter (fun T => Transaction.status T = active) (transactions st1) = [T]) as Hopen.
  { rewrite Htx, filter_app, filter_cons_True, filter_nil by done.
    rewrite filter_none; [done|]. eapply Forall_impl; [exact Hc|].
    simpl. intros T' ->. done. }
  rewrite Hopen in Hp', Htx'. simpl in Hp'. rewrite app_nil_r in Hp'.
  cbn [fmap list_fmap] in Htx'.
  rewrite redo_changes_nothing, Hundo in Hp' by done.
  split_and!; [by rewrite Hp', Hp|done| |done].
  rewrite Htx', Htx, Hid, !fmap_app. simpl. f_equal.
  - rewrite <-list_fmap_compose. apply list_fmap_ext. intros i T' Hi. simpl.
    unfold markAborted. rewrite bool_decide_eq_false_2; [done|].
    intros Hin%list_elem_of_singleton.
    by eapply (proj1 (Forall_lookup _ _) Hearlier).
  - unfold markAborted. rewrite bool_decide_eq_true_2; [done|]. rewrite Hid. by left.
Qed.

Lemma recovery_restores_the_committed_state_sample :
  pageValues
    (clickSimulateCrash
       (runTxn 3600 [("balance:B", "400"); ("balance:C", "950")]%string false
          (runHistory sampleHistory))) =
  setAll (pageValues initialState) (committedWrites sampleHistory).
Proof.
  apply (recovery_restores_the_committed_state sampleHistory 3600
           [("balance:B", "400"); ("balance:C", "950")]%string).
  - repeat constructor; simpl; discriminate.
  - repeat constructor; simpl; discriminate.
Defined.

(** X20.  The demo button runs every call of its scenario with the closures
    of the render in which it was clicked, so whatever the state at the
    click: every entry the scenario logs carries the same log sequence
    number, the one that was next at the click, and both its transactions
    get the same id. *)
Theorem demo_entries_share_one_lsn (clock : nat -> Z) (st : State) :
  let demo := clickRunDemo clock st in
  Forall (fun e => LogEntry.lsn e = nextLsn st) (wal demo) /\
  Forall (fun T => Transaction.id T = nextTxnId st) (transactions demo) /\
  length (transactions demo) = 2.
Proof.
  cbv zeta. unfold clickRunDemo, runDemo, writeData, beginTransaction, commitTransaction,
    checkpoint, appendWal.
  destruct (List.find (fun p => bool_decide (DataPage.key p = "balance:A"%string))
              (dataPages st));
  destruct (List.find (fun p => bool_decide (DataPage.key p = "balance:B"%string))
              (dataPages st));
  destruct (List.find (fun p => bool_decide (DataPage.key p = "balance:C"%string))
              (dataPages st));
  cbn;
  repeat (rewrite (bool_decide_eq_true_2 (nextTxnId st = nextTxnId st)) by done; cbn);
  split_and!; try reflexivity; repeat constructor.
Qed.

End WAL.

(** ** The theme colour checker *)

Module ThemeCheck.

(** JavaScript strings are sequences of UTF-16 code units. *)
Abbreviation JsString := (list N).

(** The code units of an ASCII literal. *)
Definition lit (s : string) : JsString :=
  (fun c => N.of_nat (nat_of_ascii c)) <$> list_ascii_of_string s.

Definition dquote : JsString := [34%N].

Definition inRange (lo hi c : N) : bool := (lo <=? c)%N && (c <=? hi)%N.

(** [\w], [[0-9]], [[0-9a-f]] and [\s] (white space and line terminators,
    which is also what [trim] strips). *)
Definition isWordChar (c : N) : bool :=
  inRange 97 122 c || inRange 65 90 c || inRange 48 57 c || (c =? 95)%N.
Definition isDigit (c : N) : bool := inRange 48 57 c.
Definition isHexDigit (c : N) : bool := inRange 48 57 c || inRange 97 102 c.
Definition isWhiteSpace (c : N) : bool :=
  inRange 9 13 c || (c =? 32)%N || (c =? 160)%N || (c =? 5760)%N
  || inRange 8192 8202 c || (c =? 8232)%N || (c =? 8233)%N || (c =? 8239)%N
  || (c =? 8287)%N || (c =? 12288)%N || (c =? 65279)%N.

Definition asciiUpper (c : N) : N := if inRange 97 122 c then (c - 32)%N else c.
Definition asciiLower (c : N) : N := if inRange 65 90 c then (c + 32)%N else c.

(** The regular expressions of [FORBIDDEN_PATTERNS] use literals, character
    classes, [+] and [*] on a class, groups with [?] and [|], [\b] and a
    negative lookahead. *)
Inductive Regex : Type :=
| Lit (s : JsString)
| Class (p : N -> bool)
| ClassPlus (p : N -> bool)
| ClassStar (p : N -> bool)
| Seq (r1 r2 : Regex)
| Alt (r1 r2 : Regex)
| Opt (r : Regex)
| WordBoundary
| NotFollowedBy (r : Regex).

(** Matching of one character under the [i] flag (without the [u] flag a
    character outside ASCII never matches an ASCII one). *)
Definition charMatches (ignoreCase : bool) (c x : N) : bool :=
  if ignoreCase then (asciiUpper x =? asciiUpper c)%N else (x =? c)%N.

Definition classMatches (ignoreCase : bool) (p : N -> bool) (x : N) : bool :=
  if ignoreCase then p x || p (asciiLower x) || p (asciiUpper x) else p x.

Definition isWordAt (c : option N) : bool :=
  match c with
  | Some x => isWordChar x
  | None => false
  end.

(** The matcher: [prev] is the character before the current position, [s]
    the input from the current position on, [k] what must match after [r].
    The result tells whether some way of matching [r] lets [k] succeed, which
    is what backtracking finds out. *)
Fixpoint matchLit (ignoreCase : bool) (l : JsString) (prev : option N) (s : JsString)
    (k : option N -> JsString -> bool) : bool :=
  match l with
  | [] => k prev s
  | c :: l' =>
      match s with
      | x :: s' => charMatches ignoreCase c x && matchLit ignoreCase l' (Some x) s' k
      | [] => false
      end
  end.

Fixpoint matchStar (ignoreCase : bool) (p : N -> bool) (prev : option N) (s : JsString)
    (k : option N -> JsString -> bool) : bool :=
  match s with
  | x :: s' =>
      (classMatches ignoreCase p x && matchStar ignoreCase p (Some x) s' k) || k prev s
  | [] => k prev s
  end.

Fixpoint matchFrom (ignoreCase : bool) (r : Regex) (prev : option N) (s : JsString)
    (k : option N -> JsString -> bool) : bool :=
  match r with
  | Lit l => matchLit ignoreCase l prev s k
  | Class p =>
      match s with
      | x :: s' => classMatches ignoreCase p x && k (Some x) s'
      | [] => false
      end
  | ClassPlus p =>
      match s with
      | x :: s' => classMatches ignoreCase p x && matchStar ignoreCase p (Some x) s' k
      | [] => false
      end
  | ClassStar p => matchStar ignoreCase p prev s k
  | Seq r1 r2 =>
      matchFrom ignoreCase r1 prev s (fun prev' s' => matchFrom ignoreCase r2 prev' s' k)
  | Alt r1 r2 => matchFrom ignoreCase r1 prev s k || matchFrom ignoreCase r2 prev s k
  | Opt r1 => matchFrom ignoreCase r1 prev s k || k prev s
  | WordBoundary =>
      if xorb (isWordAt prev) (isWordAt (head s)) then k prev s else false
  | NotFollowedBy r1 =>
      if matchFrom ignoreCase r1 prev s (fun _ _ => true) then false else k prev s
  end.

Record Pattern : Type :=
  { pattern : Regex; ignoreCase : bool; msg : string }.

Definition matchesAt (p : Pattern) (prev : option N) (s : JsString) : bool :=
  matchFrom (ignoreCase p) (pattern p) prev s (fun _ _ => true).

(** [pattern.exec(line)] with [lastIndex] reset to 0, as far as the script
    uses it: is there a match, starting at some position of the line? *)
Fixpoint execFrom (p : Pattern) (prev : option N) (s : JsString) : bool :=
  matchesAt p prev s ||
  match s with
  | x :: s' => execFrom p (Some x) s'
  | [] => false
  end.

Definition exec (p : Pattern) (line : JsString) : bool := execFrom p None line.

Definition seqs (rs : list Regex) : Regex := foldr Seq (Lit []) rs.

(** [/\bNAME\b(?!\/)/g] *)
Definition utility (name : string) (m : string) : Pattern :=
  {| pattern := seqs [WordBoundary; Lit (lit name); WordBoundary; NotFollowedBy (Lit (lit "/"))];
     ignoreCase := false; msg := m |}.

(** [/\bNAME-[0-9]+\b(?!\/)/g] *)
Definition utilityShade (name : string) (m : string) : Pattern :=
  {| pattern := seqs [WordBoundary; Lit (lit name); Lit (lit "-"); ClassPlus isDigit;
                      WordBoundary; NotFollowedBy (Lit (lit "/"))];
     ignoreCase := false; msg := m |}.

(** The nineteen patterns, in the order of the script.  The [msg] texts are
    only printed; they are given in ASCII, with [->] for the arrow and without
    the double quotes of the SVG attributes. *)
Definition FORBIDDEN_PATTERNS : list Pattern :=
  [ utility "text-white" "text-white -> text-[var(--text-primary)]";
    utility "text-black" "text-black -> text-[var(--text-primary)]";
    utilityShade "text-gray" "text-gray-* -> text-[var(--text-secondary)] or text-[var(--text-muted)]";
    utilityShade "text-slate" "text-slate-* -> use CSS variable";
    utility "bg-white" "bg-white -> bg-[var(--bg-primary)]";
    utility "bg-black" "bg-black -> bg-[var(--bg-primary)]";
    utilityShade "bg-gray" "bg-gray-* -> bg-[var(--bg-secondary)]";
    utilityShade "bg-slate" "bg-slate-* -> use CSS variable";
    utility "border-white" "border-white -> border-[var(--divider)]";
    utility "border-black" "border-black -> border-[var(--divider)]";
    utilityShade "border-gray" "border-gray-* -> border-[var(--divider)]";
    utilityShade "border-slate" "border-slate-* -> use CSS variable";
    utilityShade "divide-gray" "divide-gray-* -> use CSS variable";
    (* /\bfill=QwhiteQ\b/g, writing Q for the double quote *)
    {| pattern := seqs [WordBoundary; Lit (lit "fill=" ++ dquote ++ lit "white" ++ dquote);
                        WordBoundary];
       ignoreCase := false; msg := "fill=white -> fill=var(--svg-fill) or fill=var(--bg-primary)" |};
    (* /\bfill=Q#fff(?:fff)?Q\b/gi *)
    {| pattern := seqs [WordBoundary; Lit (lit "fill=" ++ dquote ++ lit "#fff");
                        Opt (Lit (lit "fff")); Lit dquote; WordBoundary];
       ignoreCase := true; msg := "fill=#fff -> fill=var(--svg-fill) or fill=var(--bg-primary)" |};
    (* /\bstroke=QwhiteQ\b/g *)
    {| pattern := seqs [WordBoundary; Lit (lit "stroke=" ++ dquote ++ lit "white" ++ dquote);
                        WordBoundary];
       ignoreCase := false;
       msg := "stroke=white -> stroke=var(--svg-stroke) or stroke=var(--bg-primary)" |};
    (* /\bstroke=Q#fff(?:fff)?Q\b/gi *)
    {| pattern := seqs [WordBoundary; Lit (lit "stroke=" ++ dquote ++ lit "#fff");
                        Opt (Lit (lit "fff")); Lit dquote; WordBoundary];
       ignoreCase := true;
       msg := "stroke=#fff -> stroke=var(--svg-stroke) or stroke=var(--bg-primary)" |};
    (* /\bstroke=Qrgba\(255,\s*255,\s*255/g *)
    {| pattern := seqs [WordBoundary; Lit (lit "stroke=" ++ dquote ++ lit "rgba(255,");
                        ClassStar isWhiteSpace; Lit (lit "255,");
                        ClassStar isWhiteSpace; Lit (lit "255")];
       ignoreCase := false; msg := "stroke=rgba(255,255,255,*) -> stroke=var(--svg-stroke)" |};
    (* /\bfill=Q#(?:666|888|999|aaa|bbb|ccc|ddd|eee)(?:[0-9a-f]{3})?Q\b/gi *)
    {| pattern := seqs [WordBoundary; Lit (lit "fill=" ++ dquote ++ lit "#");
                        Alt (Lit (lit "666")) (Alt (Lit (lit "888")) (Alt (Lit (lit "999"))
                          (Alt (Lit (lit "aaa")) (Alt (Lit (lit "bbb")) (Alt (Lit (lit "ccc"))
                          (Alt (Lit (lit "ddd")) (Lit (lit "eee"))))))));
                        Opt (seqs [Class isHexDigit; Class isHexDigit; Class isHexDigit]);
                        Lit dquote; WordBoundary];
       ignoreCase := true; msg := "fill=#gray -> fill=var(--svg-fill-muted)" |} ].


Definition EXTENSIONS : list JsString :=
  [lit ".tsx"; lit ".jsx"; lit ".astro"; lit ".ts"; lit ".js"].
Definition IGNORE_FILES : list JsString :=
  [lit "ThemeToggle.tsx"; lit "MetricsDashboard.tsx"; lit "EytzingerLayout.tsx"].

Fixpoint startsWith (s prefix : JsString) : bool :=
  match prefix, s with
  | [], _ => true
  | c :: prefix', x :: s' => (x =? c)%N && startsWith s' prefix'
  | _ :: _, [] => false
  end.

Definition endsWith (s suffix : JsString) : bool :=
  startsWith (reverse s) (reverse suffix).

Definition includes (l : list JsString) (s : JsString) : bool :=
  existsb (fun x => bool_decide (x = s)) l.




(** [path.join(dir, item)] for a directory and the name of one of its
    entries. *)
Definition join (dir item : JsString) : JsString := dir ++ lit "/" ++ item.

(** What the script sees of the disk: the entries of a directory are files,
    with the text [readFileSync] returns, and directories. *)
Inductive FsItem : Type :=
| File (name : JsString) (content : JsString)
| Directory (name : JsString) (items : list FsItem).

(** The project: for each path under the project root, the entries of the
    directory there, or [None] where [existsSync] is false.  Only the scan
    roots are looked up this way. *)
Definition Project : Type := JsString -> option (list FsItem).

(** An element of [files]; [content] stands for [fullPath], whose only use is
    to read the file. *)
Record SourceFile : Type :=
  { relativePath : JsString; content : JsString }.

(** The body of the loop of [getAllFiles] for one entry of [dir]; a
    directory is walked by the recursive call, which pushes to the same
    array. *)
Fixpoint visit (dir : JsString) (item : FsItem) (files : list SourceFile)
  : list SourceFile :=
  match item with
  | Directory name items =>
      foldl (fun files item => visit (join dir name) item files) files items
  | File name text =>
      if existsb (fun ext => endsWith name ext) EXTENSIONS then
        if negb (includes IGNORE_FILES name)
        then files ++ [ {| relativePath := join dir name; content := text |} ]
        else files
      else files
  end.

Definition getAllFiles (project : Project) (dir : JsString) (files : list SourceFile)
  : list SourceFile :=
  match project dir with
  | None => files
  | Some items => foldl (fun files item => visit dir item files) files items
  end.








(** [EXTENSIONS.some(ext => item.endsWith(ext))], as a proposition. *)
Definition hasExtension (name : JsString) : Prop :=
  exists ext, ext ∈ EXTENSIONS /\ endsWith name ext = true.

(** A file of the project that the script scans: it sits, at any depth, under
    a scan root, its name ends with one of the extensions and is not on the
    ignore list. *)
Inductive inTree : JsString -> list FsItem -> JsString -> JsString -> JsString -> Prop :=
| inTree_file dir items name text :
    File name text ∈ items -> inTree dir items (join dir name) name text
| inTree_dir dir items name sub path fname text :
    Directory name sub ∈ items ->
    inTree (join dir name) sub path fname text ->
    inTree dir items path fname text.


(** A forbidden pattern occurs on a line: it matches at some position. *)
Definition occurs (p : Pattern) (text : JsString) : Prop :=
  exists before rest, text = before ++ rest /\ matchesAt p (last before) rest = true.


(** The character before a position, [prev] standing before the text. *)
Definition prevOf (prev : option N) (before : JsString) : option N :=
  match last before with
  | Some x => Some x
  | None => prev
  end.

(** The files [getAllFiles] adds for the entries [items] of [dir]. *)
Definition found (dir : JsString) (items : list FsItem) (f : SourceFile) : Prop :=
  exists name,
    inTree dir items (relativePath f) name (content f) /\
    hasExtension name /\ name ∉ IGNORE_FILES.


(** A class name as the utility patterns take it: it begins and ends with a
    word character. *)
Definition wordy (name : JsString) : Prop :=
  isWordAt (head name) = true /\ isWordAt (last name) = true.

(** *** Proofs *)

Lemma execFrom_spec p s : forall prev,
  execFrom p prev s = true <->
  exists before rest, s = before ++ rest /\ matchesAt p (prevOf prev before) rest = true.
Proof.
  induction s as [|x s IH]; intros prev; simpl.
  - rewrite orb_false_r. split.
    + intros H. by exists [], [].
    + intros (before & rest & Heq & H). symmetry in Heq.
      apply app_eq_nil in Heq as [-> ->]. done.
  - rewrite orb_true_iff, IH. split.
    + intros [H|(before & rest & -> & H)].
      * by exists [], (x :: s).
      * exists (x :: before), rest. split; [done|].
        unfold prevOf in *. rewrite last_cons. by destruct (last before).
    + intros (before & rest & Heq & H). destruct before as [|y before].
      * left. simpl in Heq. by subst rest.
      * right. injection Heq as -> ->. exists before, rest. split; [done|].
        unfold prevOf in *. rewrite last_cons in H. by destruct (last before).
Qed.

Lemma exec_occurs p text : exec p text = true <-> occurs p text.
Proof.
  unfold exec, occurs. rewrite execFrom_spec. unfold prevOf.
  split; intros (before & rest & -> & H); exists before, rest; split; try done;
    by destruct (last before).
Qed.

Lemma includes_spec l s : includes l s = true <-> s ∈ l.
Proof.
  unfold includes. rewrite existsb_exists. split.
  - intros (x & Hx & Heq). apply bool_decide_eq_true in Heq. subst.
    by apply list_elem_of_In.
  - intros Hs. exists s. split; [by apply list_elem_of_In|].
    by apply bool_decide_eq_true.
Qed.

Lemma hasExtension_spec name :
  existsb (fun ext => endsWith name ext) EXTENSIONS = true <-> hasExtension name.
Proof.
  rewrite existsb_exists. unfold hasExtension.
  split; intros (ext & H1 & H2); exists ext; split; try done; by apply list_elem_of_In.
Qed.

Section fsitem_induction.
Variable P : FsItem -> Prop.
Hypothesis file_case : forall name text, P (File name text).
Hypothesis dir_case : forall name items, Forall P items -> P (Directory name items).

Fixpoint FsItem_ind_nested (item : FsItem) : P item :=
  match item with
  | File name text => file_case name text
  | Directory name items =>
      dir_case name items
        ((fix go (l : list FsItem) : Forall P l :=
            match l with
            | [] => @List.Forall_nil _ P
            | it :: l0 => @List.Forall_cons _ P it l0 (FsItem_ind_nested it) (go l0)
            end) items)
  end.
End fsitem_induction.

Lemma inTree_inv dir items path name text :
  inTree dir items path name text <->
  (File name text ∈ items /\ path = join dir name) \/
  (exists dname sub,
     Directory dname sub ∈ items /\ inTree (join dir dname) sub path name text).
Proof.
  split.
  - inversion 1; subst; [left|right]; eauto.
  - intros [[H ->]|(dname & sub & H1 & H2)].
    + by constructor.
    + by econstructor.
Qed.

Lemma found_cons dir item items f :
  found dir (item :: items) f <-> found dir [item] f \/ found dir items f.
Proof.
  unfold found. split.
  - intros (name & Hin & Hext & Hign).
    apply inTree_inv in Hin as [[Hmem Hp]|(dname & sub & Hmem & Hsub)];
      apply elem_of_cons in Hmem as [<-|Hmem].
    + left. exists name. split_and!; try done. apply inTree_inv. left.
      split; [by left|done].
    + right. exists name. split_and!; try done. apply inTree_inv. by left.
    + left. exists name. split_and!; try done. apply inTree_inv. right.
      exists dname, sub. split; [by left|done].
    + right. exists name. split_and!; try done. apply inTree_inv. right. eauto.
  - intros [(name & Hin & Hext & Hign)|(name & Hin & Hext & Hign)];
      exists name; split_and!; try done;
      apply inTree_inv in Hin as [[Hmem Hp]|(dname & sub & Hmem & Hsub)];
      apply inTree_inv.
    + apply list_elem_of_singleton in Hmem as <-. left. split; [by left|done].
    + apply list_elem_of_singleton in Hmem as <-. right.
      exists dname, sub. split; [by left|done].
    + left. split; [by right|done].
    + right. exists dname, sub. split; [by right|done].
Qed.

Lemma found_nil dir f : ~ found dir [] f.
Proof.
  intros (name & Hin & _).
  apply inTree_inv in Hin as [[Hmem _]|(dname & sub & Hmem & _)];
    by apply elem_of_nil in Hmem.
Qed.

Lemma visit_fold_spec dir items :
  Forall (fun item => forall dir files f,
            f ∈ visit dir item files <-> f ∈ files \/ found dir [item] f) items ->
  forall files f,
    f ∈ foldl (fun files item => visit dir item files) files items <->
    f ∈ files \/ found dir items f.
Proof.
  induction 1 as [|item items Hitem _ IH]; intros files f; simpl.
  - pose proof (found_nil dir f). tauto.
  - rewrite IH, Hitem, (found_cons dir item items). tauto.
Qed.

Lemma visit_spec item : forall dir files f,
  f ∈ visit dir item files <-> f ∈ files \/ found dir [item] f.
Proof.
  induction item as [name text|name items IH] using FsItem_ind_nested;
    intros dir files f.
  - cbn [visit].
    assert (found dir [File name text] f <->
            hasExtension name /\ (name ∉ IGNORE_FILES) /\
            f = {| relativePath := join dir name; content := text |}) as Hfound.
    { unfold found. split.
      - intros (n & Hin & Hext & Hign).
        apply inTree_inv in Hin as [[Hmem Hp]|(dname & sub & Hmem & _)].
        + apply list_elem_of_singleton in Hmem. injection Hmem as -> Ht.
          split_and!; try done. destruct f; simpl in *; congruence.
        + by apply list_elem_of_singleton in Hmem.
      - intros (Hext & Hign & ->). exists name. split_and!; try done.
        simpl. constructor. by left. }
    rewrite Hfound. clear Hfound.
    destruct (existsb _ EXTENSIONS) eqn:Eext.
    + apply hasExtension_spec in Eext.
      destruct (includes IGNORE_FILES name) eqn:Eign; simpl.
      * apply includes_spec in Eign. tauto.
      * assert (name ∉ IGNORE_FILES) as Hn.
        { intros H%includes_spec. congruence. }
        rewrite elem_of_app, list_elem_of_singleton. tauto.
    + assert (~ hasExtension name) as Hn.
      { intros H%hasExtension_spec. congruence. }
      tauto.
  - cbn [visit]. rewrite (visit_fold_spec (join dir name) items IH).
    assert (found dir [Directory name items] f <-> found (join dir name) items f)
      as ->; [|done].
    unfold found. split; intros (n & Hin & Hext & Hign); exists n; split_and!; try done.
    + apply inTree_inv in Hin as [[Hmem Hp]|(dname & sub & Hmem & Hsub)].
      * by apply list_elem_of_singleton in Hmem.
      * apply list_elem_of_singleton in Hmem. by injection Hmem as -> ->.
    + econstructor; [by left|done].
Qed.

Lemma getAllFiles_spec project dir f :
  f ∈ getAllFiles project dir [] <->
  exists items, project dir = Some items /\ found dir items f.
Proof.
  unfold getAllFiles. destruct (project dir) as [items|].
  - rewrite visit_fold_spec.
    + split.
      * intros [H|H]; [by apply elem_of_nil in H|]. eauto.
      * intros (items' & [= <-] & H). by right.
    + apply Forall_forall. intros item _. apply visit_spec.
  - split; [by intros ?%elem_of_nil|]. by intros (items & ? & _).
Qed.







(** *** What the checker reports, and what the patterns match *)



(** The literal matcher without the [i] flag. *)
Lemma matchLit_spec l : forall prev s k,
  matchLit false l prev s k = true <->
  exists rest, s = l ++ rest /\ k (prevOf prev l) rest = true.
Proof.
  induction l as [|c l IH]; intros prev s k; simpl.
  - split; [intros H; by exists s|]. intros (rest & Heq & H). simpl in Heq. by subst.
  - destruct s as [|x s].
    + split; [done|]. by intros (rest & ? & _).
    + rewrite andb_true_iff, IH. unfold charMatches. rewrite N.eqb_eq. split.
      * intros (-> & rest & -> & H). exists rest. split; [done|].
        revert H. unfold prevOf. rewrite last_cons. by destruct (last l).
      * intros (rest & [= -> ->] & H). split; [done|]. exists rest. split; [done|].
        revert H. unfold prevOf. rewrite last_cons. by destruct (last l).
Qed.

Lemma matchStar_spec p : forall s prev k,
  matchStar false p prev s k = true <->
  exists run rest,
    s = run ++ rest /\ Forall (fun x => p x = true) run /\ k (prevOf prev run) rest = true.
Proof.
  induction s as [|x s IH]; intros prev k; simpl.
  - split.
    + intros H. by exists [], [].
    + intros (run & rest & Heq & _ & H). symmetry in Heq.
      apply app_eq_nil in Heq as [-> ->]. done.
  - rewrite orb_true_iff, andb_true_iff, IH. split.
    + intros [(Hp & run & rest & -> & Hall & H)|H].
      * exists (x :: run), rest. split_and!; [done|by constructor|].
        revert H. unfold prevOf. rewrite last_cons. by destruct (last run).
      * by exists [], (x :: s).
    + intros (run & rest & Heq & Hall & H). destruct run as [|y run].
      * right. simpl in Heq. by subst rest.
      * left. injection Heq as -> ->. apply Forall_cons in Hall as [Hy Hall].
        split; [done|]. exists run, rest. split_and!; [done|done|].
        revert H. unfold prevOf. rewrite last_cons. by destruct (last run).
Qed.

Lemma prevOf_wordy prev name :
  isWordAt (last name) = true -> isWordAt (prevOf prev name) = true.
Proof. unfold prevOf. by destruct (last name). Qed.

Lemma xorb_true_l_iff b : xorb true b = true <-> b = false.
Proof. by destruct b. Qed.
Lemma xorb_true_r_iff b : xorb b true = true <-> b = false.
Proof. by destruct b. Qed.


Lemma if_then_else_false (b c : bool) :
  (if b then c else false) = true <-> b = true /\ c = true.
Proof. destruct b, c; intuition congruence. Qed.

Lemma if_then_false_else (b c : bool) :
  (if b then false else c) = true <-> b = false /\ c = true.
Proof. destruct b, c; intuition congruence. Qed.

(** The lookahead [(?!\/)]: the next character is not a slash. *)
Lemma slash_ahead prev (s : JsString) :
  matchLit false (lit "/") prev s (fun _ _ => true) = false <-> head s <> Some 47%N.
Proof.
  destruct s as [|x s]; simpl; [done|]. unfold charMatches.
  rewrite andb_true_r. rewrite N.eqb_neq. split; intros H.
  - intros [= ->]. done.
  - intros ->. done.
Qed.

(** The tail of the utility patterns, [\b(?!\/)]: after a word character
    comes neither a word character nor a slash. *)
Lemma boundary_no_slash prev (s : JsString) :
  isWordAt prev = true ->
  matchFrom false (seqs [WordBoundary; NotFollowedBy (Lit (lit "/"))]) prev s
    (fun _ _ => true) = true <->
  isWordAt (head s) = false /\ head s <> Some 47%N.
Proof.
  intros Hprev. unfold seqs. cbn [foldr matchFrom]. rewrite Hprev.
  rewrite if_then_else_false, xorb_true_l_iff, if_then_false_else, slash_ahead.
  change (lit "") with (@nil N). cbn [matchLit]. tauto.
Qed.

Lemma head_app_nonempty {A} (l r : list A) : l <> [] -> head (l ++ r) = head l.
Proof. by destruct l. Qed.

Lemma wordy_nonempty (name : JsString) : isWordAt (head name) = true -> name <> [].
Proof. by destruct name. Qed.

Lemma utility_matchesAt (name m : string) prev (s : JsString) :
  wordy (lit name) ->
  matchesAt (utility name m) prev s = true <->
  isWordAt prev = false /\
  exists after,
    s = lit name ++ after /\ isWordAt (head after) = false /\ head after <> Some 47%N.
Proof.
  intros [Hfirst Hlast]. unfold matchesAt, utility.
  cbn [pattern ignoreCase]. unfold seqs. cbn [foldr].
  change (matchFrom false
            (Seq WordBoundary
               (Seq (Lit (lit name))
                  (Seq WordBoundary (Seq (NotFollowedBy (Lit (lit "/"))) (Lit [])))))
            prev s (fun _ _ => true))
    with (if xorb (isWordAt prev) (isWordAt (head s))
          then matchLit false (lit name) prev s
                 (fun prev' s' =>
                    matchFrom false (seqs [WordBoundary; NotFollowedBy (Lit (lit "/"))])
                      prev' s' (fun _ _ => true))
          else false).
  rewrite if_then_else_false, matchLit_spec. split.
  - intros (Hx & after & -> & Hk).
    rewrite head_app_nonempty in Hx by (by apply wordy_nonempty).
    rewrite Hfirst in Hx. apply xorb_true_r_iff in Hx. split; [done|].
    apply boundary_no_slash in Hk; [|by apply prevOf_wordy]. by exists after.
  - intros (Hprev & after & -> & Hw & Hs). split.
    + rewrite head_app_nonempty by (by apply wordy_nonempty).
      by rewrite Hfirst, Hprev.
    + exists after. split; [done|]. apply boundary_no_slash; [by apply prevOf_wordy|done].
Qed.

(** X22.  A pattern for a colour utility class [name] ([text-white],
    [bg-black], ...) matches a line exactly when the line holds [name] as a
    whole word (no word character right before or after it) that is not
    directly followed by a slash: [bg-white/10], with an opacity, is never
    flagged on account of that occurrence. *)
Theorem utility_class_is_flagged_unless_followed_by_slash (name m : string)
    (text : JsString) :
  wordy (lit name) ->
  exec (utility name m) text = true <->
  exists before after,
    text = before ++ lit name ++ after /\
    isWordAt (last before) = false /\
    isWordAt (head after) = false /\ head after <> Some 47%N.
Proof.
  intros Hw. rewrite exec_occurs. unfold occurs. split.
  - intros (before & rest & -> & Hm).
    apply (utility_matchesAt name m _ _ Hw) in Hm as (Hprev & after & -> & Ha & Hs).
    by exists before, after.
  - intros (before & after & -> & Hprev & Ha & Hs).
    exists before, (lit name ++ after). split; [done|].
    apply (utility_matchesAt name m _ _ Hw). split; [done|]. by exists after.
Qed.


Lemma isDigit_word x : isDigit x = true -> isWordChar x = true.
Proof. unfold isDigit, isWordChar. intros ->. by rewrite !orb_true_r. Qed.

Lemma last_digits_word prev (digits : JsString) :
  digits <> [] -> Forall (fun x => isDigit x = true) digits ->
  isWordAt (prevOf prev digits) = true.
Proof.
  intros Hne Hall. unfold prevOf. destruct (last digits) as [x|] eqn:E.
  - simpl. apply isDigit_word. rewrite Forall_forall in Hall. apply Hall.
    apply last_Some in E as [l' ->]. apply elem_of_app. right. by left.
  - by apply last_None in E.
Qed.

Lemma utilityShade_matchesAt (name m : string) prev (s : JsString) :
  isWordAt (head (lit name)) = true ->
  matchesAt (utilityShade name m) prev s = true <->
  isWordAt prev = false /\
  exists digits after,
    s = lit name ++ lit "-" ++ digits ++ after /\
    digits <> [] /\ Forall (fun x => isDigit x = true) digits /\
    isWordAt (head after) = false /\ head after <> Some 47%N.
Proof.
  intros Hfirst. unfold matchesAt, utilityShade.
  cbn [pattern ignoreCase]. unfold seqs. cbn [foldr].
  change (matchFrom false
            (Seq WordBoundary
               (Seq (Lit (lit name))
                  (Seq (Lit (lit "-"))
                     (Seq (ClassPlus isDigit)
                        (Seq WordBoundary
                           (Seq (NotFollowedBy (Lit (lit "/"))) (Lit [])))))))
            prev s (fun _ _ => true))
    with (if xorb (isWordAt prev) (isWordAt (head s))
          then matchLit false (lit name) prev s
                 (fun prev1 s1 =>
                    matchLit false (lit "-") prev1 s1
                      (fun prev2 s2 =>
                         match s2 with
                         | x :: s' =>
                             classMatches false isDigit x &&
                             matchStar false isDigit (Some x) s'
                               (fun prev' s' =>
                                  matchFrom false
                                    (seqs [WordBoundary; NotFollowedBy (Lit (lit "/"))])
                                    prev' s' (fun _ _ => true))
                         | [] => false
                         end))
          else false).
  rewrite if_then_else_false, matchLit_spec. split.
  - intros (Hx & rest1 & -> & Hk).
    rewrite head_app_nonempty in Hx by (by apply wordy_nonempty).
    rewrite Hfirst in Hx. apply xorb_true_r_iff in Hx. split; [done|].
    apply matchLit_spec in Hk as (rest2 & -> & Hk).
    destruct rest2 as [|x s']; [done|].
    apply andb_true_iff in Hk as [Hd Hk]. simpl in Hd.
    apply matchStar_spec in Hk as (run & after & -> & Hall & Hk).
    assert (Forall (fun x => isDigit x = true) (x :: run)) as Hall' by (by constructor).
    apply boundary_no_slash in Hk.
    2:{ pose proof (last_digits_word prev (x :: run)) as Hl.
        unfold prevOf in *. rewrite last_cons in Hl.
        destruct (last run); by apply Hl. }
    destruct Hk as [Ha Hs]. exists (x :: run), after. by split_and!.
  - intros (Hprev & digits & after & -> & Hne & Hall & Hw & Hs). split.
    + rewrite head_app_nonempty by (by apply wordy_nonempty).
      by rewrite Hfirst, Hprev.
    + exists (lit "-" ++ digits ++ after). split; [done|].
      apply matchLit_spec. exists (digits ++ after). split; [done|].
      destruct digits as [|x run]; [done|]. simpl.
      apply Forall_cons in Hall as [Hx Hall]. apply andb_true_iff. split; [done|].
      apply matchStar_spec. exists run, after. split_and!; [done|done|].
      apply boundary_no_slash; [|done].
      pose proof (last_digits_word prev (x :: run)) as Hl.
      unfold prevOf in *. rewrite last_cons in Hl.
      destruct (last run); apply Hl; try done; by constructor.
Qed.

(** X23.  A pattern for a shaded colour utility class ([text-gray-*],
    [bg-slate-*], ...) matches a line exactly when the line holds the class
    prefix, a dash and a run of one or more digits, as a whole word that is
    not directly followed by a slash. *)
Theorem shaded_class_is_flagged_unless_followed_by_slash (name m : string)
    (text : JsString) :
  isWordAt (head (lit name)) = true ->
  exec (utilityShade name m) text = true <->
  exists before digits after,
    text = before ++ lit name ++ lit "-" ++ digits ++ after /\
    digits <> [] /\ Forall (fun x => isDigit x = true) digits /\
    isWordAt (last before) = false /\
    isWordAt (head after) = false /\ head after <> Some 47%N.
Proof.
  intros Hw. rewrite exec_occurs. unfold occurs. split.
  - intros (before & rest & -> & Hm).
    apply (utilityShade_matchesAt name m _ _ Hw) in Hm
      as (Hprev & digits & after & -> & Hne & Hall & Ha & Hs).
    by exists before, digits, after.
  - intros (before & digits & after & -> & Hne & Hall & Hprev & Ha & Hs).
    exists before, (lit name ++ lit "-" ++ digits ++ after). split; [done|].
    apply (utilityShade_matchesAt name m _ _ Hw). split; [done|].
    by exists digits, after.
Qed.

(** X24.  The patterns for [fill=QwhiteQ] and [stroke=QwhiteQ] (Q the
    double quote; [attr] is [fill=] or [stroke=]) end in a word boundary
    after the closing quote, so they match only where a word character
    follows the quote directly: the attribute followed by a space, a slash,
    [>] or the end of the line is not flagged. *)
Theorem quoted_white_is_flagged_only_before_a_word_character (attr : string)
    (p : Pattern) (text : JsString) :
  pattern p =
    seqs [WordBoundary; Lit (lit attr ++ dquote ++ lit "white" ++ dquote); WordBoundary] ->
  ignoreCase p = false ->
  isWordAt (head (lit attr)) = true ->
  exec p text = true <->
  exists before c after,
    text = before ++ (lit attr ++ dquote ++ lit "white" ++ dquote) ++ c :: after /\
    isWordAt (last before) = false /\ isWordChar c = true.
Proof.
  intros Hpat Hic Hfirst. rewrite exec_occurs. unfold occurs, matchesAt.
  rewrite Hpat, Hic. unfold seqs. cbn [foldr].
  set (L := lit attr ++ dquote ++ lit "white" ++ dquote).
  assert (L <> []) as HL.
  { unfold L. intros [? _]%app_eq_nil. by eapply wordy_nonempty. }
  assert (head L = head (lit attr)) as Hhead.
  { unfold L. apply head_app_nonempty. by eapply wordy_nonempty. }
  assert (forall prev, isWordAt (prevOf prev L) = false) as Hlast.
  { intros prev. unfold prevOf, L, dquote.
    rewrite !(assoc_L (++)), last_snoc. done. }
  assert (forall prev s,
            matchFrom false (Seq WordBoundary (Seq (Lit L) (Seq WordBoundary (Lit []))))
              prev s (fun _ _ => true) = true <->
            isWordAt prev = false /\
            exists c after, s = L ++ c :: after /\ isWordChar c = true) as Hm.
  { intros prev s.
    change (matchFrom false (Seq WordBoundary (Seq (Lit L) (Seq WordBoundary (Lit []))))
              prev s (fun _ _ => true))
      with (if xorb (isWordAt prev) (isWordAt (head s))
            then matchLit false L prev s
                   (fun prev' s' =>
                      if xorb (isWordAt prev') (isWordAt (head s')) then true else false)
            else false).
    rewrite if_then_else_false, matchLit_spec. split.
    - intros (Hx & rest & -> & Hk). rewrite head_app_nonempty, Hhead, Hfirst in Hx by done.
      apply xorb_true_r_iff in Hx. split; [done|].
      rewrite Hlast in Hk. simpl in Hk.
      destruct rest as [|c after]; [done|]. simpl in Hk.
      exists c, after. split; [done|]. by destruct (isWordChar c).
    - intros (Hprev & c & after & -> & Hc). split.
      + by rewrite head_app_nonempty, Hhead, Hfirst, Hprev.
      + exists (c :: after). split; [done|]. rewrite Hlast. simpl. by rewrite Hc. }
  split.
  - intros (before & rest & -> & H). apply Hm in H as (Hprev & c & after & -> & Hc).
    by exists before, c, after.
  - intros (before & c & after & -> & Hprev & Hc).
    exists before, (L ++ c :: after). split; [done|]. apply Hm. split; [done|].
    by exists c, after.
Qed.

Lemma utility_class_sample :
  exec (utility "bg-white" "") (lit "bg-white/10") = true <->
  exists before after,
    lit "bg-white/10" = before ++ lit "bg-white" ++ after /\
    isWordAt (last before) = false /\
    isWordAt (head after) = false /\ head after <> Some 47%N.
Proof.
  apply (utility_class_is_flagged_unless_followed_by_slash "bg-white" ""
           (lit "bg-white/10")).
  split; reflexivity.
Defined.

Lemma shaded_class_sample :
  exec (utilityShade "text-gray" "") (lit "text-gray-400") = true <->
  exists before digits after,
    lit "text-gray-400" = before ++ lit "text-gray" ++ lit "-" ++ digits ++ after /\
    digits <> [] /\ Forall (fun x => isDigit x = true) digits /\
    isWordAt (last before) = false /\
    isWordAt (head after) = false /\ head after <> Some 47%N.
Proof.
  apply (shaded_class_is_flagged_unless_followed_by_slash "text-gray" ""
           (lit "text-gray-400")).
  reflexivity.
Defined.

Lemma quoted_white_sample :
  exec (nth 13 FORBIDDEN_PATTERNS (utility "" ""))
    (lit "<path fill=" ++ dquote ++ lit "white" ++ dquote ++ lit " />") = true <->
  exists before c after,
    lit "<path fill=" ++ dquote ++ lit "white" ++ dquote ++ lit " />" =
      before ++ (lit "fill=" ++ dquote ++ lit "white" ++ dquote) ++ c :: after /\
    isWordAt (last before) = false /\ isWordChar c = true.
Proof.
  apply (quoted_white_is_flagged_only_before_a_word_character "fill="
           (nth 13 FORBIDDEN_PATTERNS (utility "" ""))); reflexivity.
Defined.

(** X25.  [getAllFiles] returns exactly the files that sit, at any depth,
    under the directory it is given, whose name ends with one of the
    extensions and is not on the ignore list, each with its path relative to
    the project; for a directory that does not exist it returns no file. *)
Theorem getAllFiles_lists_the_files_to_scan (project : Project) (dir : JsString)
    (f : SourceFile) :
  f ∈ getAllFiles project dir [] <->
  exists items name,
    project dir = Some items /\
    inTree dir items (relativePath f) name (content f) /\
    hasExtension name /\ (name ∉ IGNORE_FILES).
Proof.
  rewrite getAllFiles_spec. unfold found. split.
  - intros (items & Hp & name & Hin & Hext & Hign). by exists items, name.
  - intros (items & name & Hp & Hin & Hext & Hign). exists items. split; [done|].
    by exists name.
Qed.

End ThemeCheck.
